(** * Rufus web scraper: crawl-and-extract engine

    A shallow embedding of [rufus.py] and [rufus_rag.py] (class
    [RufusClient]) and the properties of the crawl controller, the
    navigator, the extractor and the relevance filter.

    Python [str] values are modelled as [string], read as sequences of
    code points below 256; Python [int] values as [Z]; the [visited] set
    and the filter's [seen] set as [gset string]; the records appended to
    [all_data] as a Rocq record with the three dictionary keys. *)

From Stdlib Require Import ZArith Ascii String.
From stdpp Require Import gmap strings list.

Local Open Scope Z_scope.

(** ** Text: [str.isspace], [str.strip], [str.lower], [re.sub(r'\s+', ' ', _)] *)

Module Text.

(** [str.isspace] on one code point below 256 (also the class [\s] of
    [re] on [str] patterns). *)
Definition isspace (c : ascii) : bool :=
  let n := nat_of_ascii c in
  ((9 <=? n)%nat && (n <=? 13)%nat) || ((28 <=? n)%nat && (n <=? 32)%nat)
  || (n =? 133)%nat || (n =? 160)%nat.

Fixpoint lstrip (s : string) : string :=
  match s with
  | EmptyString => EmptyString
  | String c s' => if isspace c then lstrip s' else s
  end.

Definition is_empty (s : string) : bool :=
  match s with EmptyString => true | String _ _ => false end.

Fixpoint rstrip (s : string) : string :=
  match s with
  | EmptyString => EmptyString
  | String c s' =>
      let r := rstrip s' in
      if isspace c && is_empty r then EmptyString else String c r
  end.

(** [s.strip()] *)
Definition strip (s : string) : string := rstrip (lstrip s).

(** [re.sub(r'\s+', ' ', s)]: every maximal run of whitespace is replaced
    by one space.  [in_run] tells that the scan is inside a run whose
    replacement has been produced already. *)
Fixpoint sub_ws_from (in_run : bool) (s : string) : string :=
  match s with
  | EmptyString => EmptyString
  | String c s' =>
      if isspace c
      then (if in_run then sub_ws_from true s'
            else String " "%char (sub_ws_from true s'))
      else String c (sub_ws_from false s')
  end.

Definition re_sub_ws (s : string) : string := sub_ws_from false s.

(** [chr(n).lower()] for a code point below 256: the ASCII capitals and
    the Latin-1 capitals (all of 192..222 but the multiplication sign). *)
Definition lower_char (c : ascii) : ascii :=
  let n := nat_of_ascii c in
  if ((65 <=? n)%nat && (n <=? 90)%nat)
     || ((192 <=? n)%nat && (n <=? 222)%nat && negb (n =? 215)%nat)
  then ascii_of_nat (n + 32) else c.

Fixpoint lower (s : string) : string :=
  match s with
  | EmptyString => EmptyString
  | String c s' => String (lower_char c) (lower s')
  end.

(** [sub in s] on strings. *)
Fixpoint contains (sub s : string) : bool :=
  String.prefix sub s
  || match s with
     | EmptyString => false
     | String _ s' => contains sub s'
     end.

(** [s.startswith(p)] *)
Definition startswith (s p : string) : bool := String.prefix p s.

(** The words of a text: its maximal runs of characters that are not
    whitespace ([s.split()]). *)
Fixpoint words (s : string) : list string :=
  match s with
  | EmptyString => []
  | String c s' =>
      if isspace c then words s'
      else match s' with
           | EmptyString => [String c EmptyString]
           | String c' _ =>
               if isspace c' then String c EmptyString :: words s'
               else match words s' with
                    | w :: ws => String c w :: ws
                    | [] => [String c EmptyString]
                    end
           end
  end.

(** The description of the normalised text in words: the words of the
    text, one space between two of them. *)
Definition normalized (s : string) : string := String.concat " " (words s).

End Text.

(** ** Records and the relevance filter *)

(** One entry of [all_data]: the dictionary
    [{"prompt": ..., "page": ..., "content": ...}]. *)
Record record := mk_record { prompt : string; page : Z; content : string }.

Global Instance record_eq_dec : EqDecision record.
Proof. solve_decision. Defined.

Definition keywords : list string :=
  ["job"; "employment"; "career"; "internship"; "fellowship"].

(** [rufus.py]: the filter of the spaCy variant.  The language model
    [nlp] is outside the repository; [lemmas text] stands for the list
    [[token.lemma_ for token in nlp(text)]].  The filter is modelled on
    the texts that [nlp] accepts: spaCy raises on a text longer than
    [nlp.max_length], and such a call of [filter_data] has no value
    here. *)
Module Rufus_filter.
Section with_nlp.
Variable lemmas : string -> list string.

Definition _is_relevant (text : string) (keywords : list string) : bool :=
  existsb (fun lemma_ => bool_decide (lemma_ ∈ keywords)) (lemmas text).

(** The [for item in data] loop of [filter_data], with its two
    accumulators [filtered_data] and [seen]. *)
Fixpoint filter_loop (data : list record) (filtered_data : list record)
    (seen : gset string) : list record :=
  match data with
  | [] => filtered_data
  | item :: data' =>
      let content := Text.lower (content item) in
      if _is_relevant content keywords && negb (bool_decide (content ∈ seen))
      then filter_loop data' (filtered_data ++ [item]) ({[content]} ∪ seen)
      else filter_loop data' filtered_data seen
  end.

Definition filter_data (data : list record) : list record :=
  filter_loop data [] ∅.
End with_nlp.
End Rufus_filter.

(** [rufus_rag.py]: the list comprehension
    [[item for item in data if any(keyword in item['content'].lower() ...)]]. *)
Module Rag_filter.
Definition filter_data (data : list record) : list record :=
  List.filter
    (fun item =>
       existsb (fun keyword => Text.contains keyword (Text.lower (content item)))
               keywords)
    data.
End Rag_filter.

(** A lemmatizer for examples: the words of the text, a final ["s"] of a
    word of more than three letters dropped. *)
Module Toy.
Fixpoint drop_final_s (w : string) : string :=
  match w with
  | EmptyString => EmptyString
  | String c EmptyString => if Ascii.eqb c "s" then EmptyString else w
  | String c w' => String c (drop_final_s w')
  end.

Definition lemma_of (w : string) : string :=
  if (3 <? String.length w)%nat then drop_final_s w else w.

Definition lemmas (text : string) : list string :=
  List.map lemma_of (Text.words text).
End Toy.

(** ** The browser, the crawl state and the crawl monad *)

(** The exceptions the code tells apart: Playwright's [TimeoutError] and
    every other [Exception]. *)
Inductive exn := TimeoutError | OtherError.

Inductive reply (A : Type) := Ok (a : A) | Fail (e : exn).
Arguments Ok {A} a.
Arguments Fail {A} e.

(** Handles of browser tabs and of anchor elements. *)
Definition Page := nat.
Definition Link := nat.

(** An element matched by [soup.select], given by its text nodes in
    document order: the strings that [get_text] joins. *)
Definition Element := list string.

(** The collaborators outside the repository: Playwright's operations on a
    world of type [World], each of which may raise, and BeautifulSoup's
    [select], which gives the matched elements ([None] when it raises). *)
Record Browser (World : Type) := {
  playwright_enter : World -> reply unit * World;
  playwright_exit : World -> reply unit * World;
  launch : World -> reply unit * World;
  new_context : World -> reply unit * World;
  new_page : World -> reply Page * World;
  context_close : World -> reply unit * World;
  page_goto : Page -> string -> Z -> World -> reply unit * World;
  page_wait_for_load_state : Page -> World -> reply unit * World;
  page_evaluate : Page -> World -> reply unit * World;
  page_wait_for_timeout : Page -> Z -> World -> reply unit * World;
  page_wait_for_selector : Page -> string -> Z -> World -> reply unit * World;
  page_content : Page -> World -> reply string * World;
  page_query_selector_all : Page -> World -> reply (list Link) * World;
  link_get_attribute : Link -> World -> reply (option string) * World;
  page_close : Page -> World -> reply unit * World;
  soup_select : string -> string -> option (list Element)
}.

(** What the run does to its surroundings, in order. *)
Inductive call :=
| CEnter | CExit | CLaunch | CNewContext | CNewPage | CContextClose
| CGoto (p : Page) (url : string) (timeout : Z)
| CWaitForLoadState (p : Page)
| CEvaluate (p : Page)
| CWaitForTimeout (p : Page) (ms : Z)
| CWaitForSelector (p : Page) (css_selector : string) (timeout : Z)
| CContent (p : Page)
| CQuerySelectorAll (p : Page)
| CGetAttribute (l : Link)
| CClose (p : Page).

Inductive level := INFO | WARNING | ERROR.

Inductive message :=
| Extracted (text_content : string)
| ExtractTimeout (n : Z)
| ExtractError (n : Z)
| LinkTimeout
| LinkError
| NavTimeout (url : string) (attempt max_retries : Z)
| NavUnexpected
| NavFailed
| NavFailedUrl (url : string)
| RetryTimeout (attempt : Z) (next_url : string)
| RetryError (attempt : Z) (next_url : string)
| HrefError
| Unexpected.

(** [EvVisit url] marks the statement [visited.add(url)]. *)
Inductive event :=
| EvCall (c : call)
| EvSleep (seconds : Z)
| EvLog (lvl : level) (msg : message)
| EvVisit (url : string).

Global Instance exn_eq_dec : EqDecision exn.
Proof. solve_decision. Defined.
Global Instance call_eq_dec : EqDecision call.
Proof. solve_decision. Defined.
Global Instance level_eq_dec : EqDecision level.
Proof. solve_decision. Defined.
Global Instance message_eq_dec : EqDecision message.
Proof. solve_decision. Defined.
Global Instance event_eq_dec : EqDecision event.
Proof. solve_decision. Defined.

(** The outcome of a computation; [OutOfFuel] is the model's own: the
    recursion of [_crawl_links] was cut. No handler catches it. *)
Inductive result (A : Type) := Done (a : A) | Raised (e : exn) | OutOfFuel.
Arguments Done {A} a.
Arguments Raised {A} e.
Arguments OutOfFuel {A}.

Record state (World : Type) := mk_state {
  world : World;
  visited : gset string;
  all_data : list record
}.
Arguments mk_state {World}.
Arguments world {World}.
Arguments visited {World}.
Arguments all_data {World}.

Definition M (World A : Type) : Type :=
  state World -> result A * state World * list event.

Definition res_of {W A} (x : result A * state W * list event) : result A := x.1.1.
Definition st_of {W A} (x : result A * state W * list event) : state W := x.1.2.
Definition tr_of {W A} (x : result A * state W * list event) : list event := x.2.
Arguments res_of {W A} !x /.
Arguments st_of {W A} !x /.
Arguments tr_of {W A} !x /.

Section monad.
Context {World : Type}.
Local Abbreviation M := (M World).

Definition ret {A} (a : A) : M A := fun st => (Done a, st, []).

Definition raise {A} (e : exn) : M A := fun st => (Raised e, st, []).

Definition out_of_fuel {A} : M A := fun st => (OutOfFuel, st, []).

Definition bind {A B} (m : M A) (f : A -> M B) : M B :=
  fun st =>
    match m st with
    | (Done a, st1, t1) =>
        match f a st1 with (r, st2, t2) => (r, st2, t1 ++ t2) end
    | (Raised e, st1, t1) => (Raised e, st1, t1)
    | (OutOfFuel, st1, t1) => (OutOfFuel, st1, t1)
    end.

(** [try: m / except ... as e:] with the handler chosen by the caller
    from the reply. *)
Definition catch {A} (m : M A) : M (reply A) :=
  fun st =>
    match m st with
    | (Done a, st1, t1) => (Done (Ok a), st1, t1)
    | (Raised e, st1, t1) => (Done (Fail e), st1, t1)
    | (OutOfFuel, st1, t1) => (OutOfFuel, st1, t1)
    end.

(** [try: m / finally: fin] *)
Definition try_finally {A} (m : M A) (fin : M unit) : M A :=
  fun st =>
    match m st with
    | (OutOfFuel, st1, t1) => (OutOfFuel, st1, t1)
    | (r, st1, t1) =>
        match fin st1 with
        | (Done _, st2, t2) => (r, st2, t1 ++ t2)
        | (Raised e, st2, t2) => (Raised e, st2, t1 ++ t2)
        | (OutOfFuel, st2, t2) => (OutOfFuel, st2, t1 ++ t2)
        end
    end.

Fixpoint for_each {A} (l : list A) (body : A -> M unit) : M unit :=
  match l with
  | [] => ret tt
  | x :: l' => bind (body x) (fun _ => for_each l' body)
  end.

Definition emit (e : event) : M unit := fun st => (Done tt, st, [e]).

Definition log (lvl : level) (msg : message) : M unit := emit (EvLog lvl msg).

(** [await asyncio.sleep(seconds)] *)
Definition sleep (seconds : Z) : M unit := emit (EvSleep seconds).

(** A call of a browser operation. *)
Definition do_call {A} (c : call) (op : World -> reply A * World) : M A :=
  fun st =>
    match op (world st) with
    | (Ok a, w) => (Done a, mk_state w (visited st) (all_data st), [EvCall c])
    | (Fail e, w) => (Raised e, mk_state w (visited st) (all_data st), [EvCall c])
    end.

Definition get_visited : M (gset string) := fun st => (Done (visited st), st, []).

(** [len(visited)] *)
Definition len_visited : M Z :=
  fun st => (Done (Z.of_nat (size (visited st))), st, []).

(** [visited = set()] *)
Definition new_visited : M unit :=
  fun st => (Done tt, mk_state (world st) ∅ (all_data st), []).

(** [visited.add(url)] *)
Definition visited_add (url : string) : M unit :=
  fun st => (Done tt, mk_state (world st) ({[url]} ∪ visited st) (all_data st),
             [EvVisit url]).

Definition get_all_data : M (list record) := fun st => (Done (all_data st), st, []).

(** [self.all_data.append(structured_data)] *)
Definition all_data_append (structured_data : record) : M unit :=
  fun st => (Done tt, mk_state (world st) (visited st) (all_data st ++ [structured_data]), []).
End monad.

Declare Scope crawl_scope.
Delimit Scope crawl_scope with crawl.
Notation "x <- m ;; k" := (bind m (fun x => k))
  (at level 100, m at next level, right associativity) : crawl_scope.
Notation "m ;; k" := (bind m (fun _ => k))
  (at level 100, right associativity) : crawl_scope.

(** [range(n)] *)
Definition range (n : Z) : list Z := List.map Z.of_nat (seq 0 (Z.to_nat n)).

(** [element.get_text(strip=True)]: BeautifulSoup strips every text node
    of the element on its own, drops the ones left empty, and joins the
    others without separator. *)
Definition get_text_strip (element : Element) : string :=
  String.concat ""
    (List.filter (fun s => negb (Text.is_empty s)) (List.map Text.strip element)).

(** [next_url and next_url.startswith('http') and next_url not in visited] *)
Definition link_wanted (next_url : option string) (visited : gset string) : option string :=
  match next_url with
  | Some u =>
      if negb (Text.is_empty u) && Text.startswith u "http"
         && negb (bool_decide (u ∈ visited))
      then Some u else None
  | None => None
  end.

(** ** [rufus.py], class [RufusClient] *)

Module Rufus.
Section client.
Context {World : Type} (B : Browser World).
(** [self.max_retries]; the model [lemmas] of the module-level [nlp]. *)
Variable max_retries : Z.
Variable lemmas : string -> list string.
Local Abbreviation M := (M World).
Local Open Scope crawl_scope.

(** The body of the [try] of [_navigate_to_url]. *)
Definition navigate_attempt (page : Page) (url : string) (timeout : Z) : M unit :=
  do_call (CGoto page url timeout) (page_goto _ B page url timeout) ;;
  do_call (CWaitForLoadState page) (page_wait_for_load_state _ B page) ;;
  do_call (CEvaluate page) (page_evaluate _ B page) ;;
  do_call (CWaitForTimeout page 3000) (page_wait_for_timeout _ B page 3000).

(** The loop [for attempt in range(self.max_retries)] and the statement
    after it. *)
Fixpoint navigate_loop (page : Page) (url : string) (timeout : Z)
    (attempts : list Z) : M unit :=
  match attempts with
  | [] => log ERROR NavFailed
  | attempt :: attempts' =>
      r <- catch (navigate_attempt page url timeout) ;;
      match r with
      | Ok _ => ret tt
      | Fail TimeoutError =>
          log ERROR (NavTimeout url (attempt + 1) max_retries) ;;
          sleep (2 ^ attempt) ;;
          navigate_loop page url timeout attempts'
      | Fail OtherError => log ERROR NavUnexpected
      end
  end.

Definition _navigate_to_url (page : Page) (url : string) (timeout : Z) : M unit :=
  navigate_loop page url timeout (range max_retries).

Definition _extract_data_from_page (page : Page) (prompt css_selector : string)
    (page_num : Z) : M unit :=
  do_call (CWaitForSelector page css_selector 30000)
          (page_wait_for_selector _ B page css_selector 30000) ;;
  content <- do_call (CContent page) (page_content _ B page) ;;
  match soup_select _ B content css_selector with
  | None => raise OtherError
  | Some elements =>
      for_each elements (fun element =>
        let text_content := get_text_strip element in
        log INFO (Extracted text_content) ;;
        all_data_append
          {| prompt := prompt; page := page_num;
             content := Text.re_sub_ws text_content |})
  end.

(** One iteration of [for link in links]; [crawl] is the recursive call. *)
Definition crawl_link (crawl : Page -> string -> M unit) (timeout : Z)
    (link : Link) : M unit :=
  r <- catch (
         next_url <- do_call (CGetAttribute link) (link_get_attribute _ B link) ;;
         visited <- get_visited ;;
         match link_wanted next_url visited with
         | Some next_url =>
             new_page <- do_call CNewPage (new_page _ B) ;;
             try_finally
               (do_call (CGoto new_page next_url timeout)
                        (page_goto _ B new_page next_url timeout) ;;
                crawl new_page next_url)
               (do_call (CClose new_page) (page_close _ B new_page))
         | None => ret tt
         end) ;;
  match r with
  | Ok _ => ret tt
  | Fail TimeoutError => log ERROR LinkTimeout
  | Fail OtherError => log ERROR LinkError
  end.

(** The statements of [_crawl_links] after [visited.add(url)]. *)
Definition crawl_visit (crawl : Page -> string -> M unit)
    (page : Page) (url css_selector prompt : string) (timeout : Z) : M unit :=
  _navigate_to_url page url timeout ;;
  page_num <- len_visited ;;
  r <- catch (_extract_data_from_page page prompt css_selector page_num) ;;
  match r with
  | Fail TimeoutError => n <- len_visited ;; log ERROR (ExtractTimeout n)
  | Fail OtherError => n <- len_visited ;; log ERROR (ExtractError n)
  | Ok _ =>
      links <- do_call (CQuerySelectorAll page) (page_query_selector_all _ B page) ;;
      for_each links (crawl_link crawl timeout)
  end.

(** The body of [_crawl_links], the recursive call left open. *)
Definition crawl_body (crawl : Page -> string -> M unit)
    (page : Page) (url css_selector prompt : string) (pages timeout : Z) : M unit :=
  visited <- get_visited ;;
  if (pages <=? Z.of_nat (size visited)) || bool_decide (url ∈ visited)
  then ret tt
  else
    visited_add url ;;
    crawl_visit crawl page url css_selector prompt timeout.

(** [_crawl_links]; [fuel] bounds the depth of the recursion. *)
Fixpoint _crawl_links (fuel : nat) (page : Page) (url css_selector prompt : string)
    (pages timeout : Z) : M unit :=
  match fuel with
  | O => out_of_fuel
  | S fuel' =>
      crawl_body
        (fun new_page next_url =>
           _crawl_links fuel' new_page next_url css_selector prompt pages timeout)
        page url css_selector prompt pages timeout
  end.

(** Depth that a crawl of budget [pages] cannot exceed. *)
Definition enough_fuel (pages : Z) : nat := S (Z.to_nat pages).

Definition filter_data := Rufus_filter.filter_data lemmas.

(** [scrape]: [async with async_playwright()] around the whole body. *)
Definition scrape (url prompt css_selector : string) (pages timeout : Z)
    : M (list record) :=
  do_call CEnter (playwright_enter _ B) ;;
  try_finally
    (do_call CLaunch (launch _ B) ;;
     do_call CNewContext (new_context _ B) ;;
     page <- do_call CNewPage (new_page _ B) ;;
     new_visited ;;
     try_finally
       (_crawl_links (enough_fuel pages) page url css_selector prompt pages timeout)
       (do_call CContextClose (context_close _ B)) ;;
     data <- get_all_data ;;
     ret (filter_data data))
    (do_call CExit (playwright_exit _ B)).
End client.
End Rufus.

(** ** [rufus_rag.py], class [RufusClient] *)

Module RufusRag.
Section client.
Context {World : Type} (B : Browser World).
Variable max_retries : Z.
Local Abbreviation M := (M World).
Local Open Scope crawl_scope.

Definition navigate_attempt (page : Page) (url : string) (timeout : Z) : M unit :=
  do_call (CGoto page url timeout) (page_goto _ B page url timeout) ;;
  do_call (CWaitForLoadState page) (page_wait_for_load_state _ B page) ;;
  do_call (CEvaluate page) (page_evaluate _ B page) ;;
  do_call (CWaitForTimeout page 3000) (page_wait_for_timeout _ B page 3000).

Fixpoint navigate_loop (page : Page) (url : string) (timeout : Z)
    (attempts : list Z) : M unit :=
  match attempts with
  | [] => log ERROR (NavFailedUrl url)
  | attempt :: attempts' =>
      r <- catch (navigate_attempt page url timeout) ;;
      match r with
      | Ok _ => ret tt
      | Fail TimeoutError =>
          log WARNING (NavTimeout url (attempt + 1) max_retries) ;;
          sleep (2 ^ attempt) ;;
          navigate_loop page url timeout attempts'
      | Fail OtherError => log ERROR NavUnexpected
      end
  end.

Definition _navigate_to_url (page : Page) (url : string) (timeout : Z) : M unit :=
  navigate_loop page url timeout (range max_retries).

Definition _extract_data_from_page (page : Page) (prompt css_selector : string)
    (page_num : Z) : M unit :=
  do_call (CWaitForSelector page css_selector 30000)
          (page_wait_for_selector _ B page css_selector 30000) ;;
  content <- do_call (CContent page) (page_content _ B page) ;;
  match soup_select _ B content css_selector with
  | None => raise OtherError
  | Some elements =>
      for_each elements (fun element =>
        let text_content := get_text_strip element in
        log INFO (Extracted text_content) ;;
        all_data_append
          {| prompt := prompt; page := page_num;
             content := Text.re_sub_ws text_content |})
  end.

Definition _get_link_href (link : Link) : M (option string) :=
  r <- catch (do_call (CGetAttribute link) (link_get_attribute _ B link)) ;;
  match r with
  | Ok href => ret href
  | Fail _ => log ERROR HrefError ;; ret None
  end.

(** The loop [for attempt in range(3)] of [_retry_navigation]; [crawl] is
    the call of [_crawl_links]. *)
Fixpoint retry_loop (crawl : Page -> string -> M unit) (page : Page)
    (next_url : string) (timeout : Z) (attempts : list Z) : M unit :=
  match attempts with
  | [] => ret tt
  | attempt :: attempts' =>
      r <- catch (
             do_call (CGoto page next_url timeout) (page_goto _ B page next_url timeout) ;;
             do_call (CWaitForLoadState page) (page_wait_for_load_state _ B page) ;;
             crawl page next_url) ;;
      match r with
      | Ok _ => ret tt
      | Fail TimeoutError =>
          log WARNING (RetryTimeout (attempt + 1) next_url) ;;
          sleep 2 ;;
          retry_loop crawl page next_url timeout attempts'
      | Fail OtherError =>
          log ERROR (RetryError (attempt + 1) next_url) ;;
          retry_loop crawl page next_url timeout attempts'
      end
  end.

Definition _retry_navigation (crawl : Page -> string -> M unit) (page : Page)
    (next_url : string) (timeout : Z) : M unit :=
  retry_loop crawl page next_url timeout (range 3).

Definition crawl_link (crawl : Page -> string -> M unit) (page : Page)
    (timeout : Z) (link : Link) : M unit :=
  next_url <- _get_link_href link ;;
  visited <- get_visited ;;
  match link_wanted next_url visited with
  | Some next_url => _retry_navigation crawl page next_url timeout
  | None => ret tt
  end.

(** The statements of [_crawl_links] after [visited.add(url)]. *)
Definition crawl_visit (crawl : Page -> string -> M unit)
    (page : Page) (url css_selector prompt : string) (timeout : Z) : M unit :=
  _navigate_to_url page url timeout ;;
  page_num <- len_visited ;;
  r <- catch (_extract_data_from_page page prompt css_selector page_num) ;;
  match r with
  | Fail TimeoutError => n <- len_visited ;; log ERROR (ExtractTimeout n)
  | Fail OtherError => n <- len_visited ;; log ERROR (ExtractError n)
  | Ok _ => ret tt
  end ;;
  links <- do_call (CQuerySelectorAll page) (page_query_selector_all _ B page) ;;
  for_each links (crawl_link crawl page timeout).

Definition crawl_body (crawl : Page -> string -> M unit)
    (page : Page) (url css_selector prompt : string) (pages timeout : Z) : M unit :=
  visited <- get_visited ;;
  if (pages <=? Z.of_nat (size visited)) || bool_decide (url ∈ visited)
  then ret tt
  else
    visited_add url ;;
    crawl_visit crawl page url css_selector prompt timeout.

Fixpoint _crawl_links (fuel : nat) (page : Page) (url css_selector prompt : string)
    (pages timeout : Z) : M unit :=
  match fuel with
  | O => out_of_fuel
  | S fuel' =>
      crawl_body
        (fun page next_url =>
           _crawl_links fuel' page next_url css_selector prompt pages timeout)
        page url css_selector prompt pages timeout
  end.

Definition enough_fuel (pages : Z) : nat := S (Z.to_nat pages).

Definition filter_data := Rag_filter.filter_data.

Definition scrape (url prompt css_selector : string) (pages timeout : Z)
    : M (list record) :=
  do_call CEnter (playwright_enter _ B) ;;
  try_finally
    (do_call CLaunch (launch _ B) ;;
     do_call CNewContext (new_context _ B) ;;
     try_finally
       (r <- catch (
              page <- do_call CNewPage (new_page _ B) ;;
              new_visited ;;
              _crawl_links (enough_fuel pages) page url css_selector prompt pages timeout) ;;
        match r with
        | Ok _ => ret tt
        | Fail _ => log ERROR Unexpected
        end)
       (do_call CContextClose (context_close _ B)) ;;
     data <- get_all_data ;;
     ret (filter_data data))
    (do_call CExit (playwright_exit _ B)).
End client.
End RufusRag.

(** ** [RufusAPI] of both files *)

(** [RufusAPI.scrape]: the client is made by [RufusClient()], hence with
    [max_retries=3], and [scrape] is called without [timeout], hence with
    30000. *)
Module RufusAPI.
Definition scrape {World} (B : Browser World) (lemmas : string -> list string)
    (url prompt css_selector : string) (pages : Z) : M World (list record) :=
  Rufus.scrape B 3 lemmas url prompt css_selector pages 30000.
End RufusAPI.

Module RufusRagAPI.
Definition scrape {World} (B : Browser World)
    (url prompt css_selector : string) (pages : Z) : M World (list record) :=
  RufusRag.scrape B 3 url prompt css_selector pages 30000.
End RufusRagAPI.

(** ** A simulated browser over a fixed site, for examples *)

Module Sim.
(** What the site serves at one address. *)
Record site_page := mk_site_page {
  goto_reply : reply unit;       (* outcome of [page.goto] *)
  idle_reply : reply unit;       (* outcome of [wait_for_load_state] *)
  selector_reply : reply unit;   (* outcome of [wait_for_selector] *)
  texts : list Element;          (* the elements the selector matches *)
  hrefs : list (option string)   (* [href] of the anchors, in order *)
}.

Definition site := string -> site_page.

(** [tabs]: the address shown in each open tab, the handle of a tab being
    its index; [anchors]: the [href] of every element handle given out. *)
Record world := mk_world { tabs : list string; anchors : list (option string) }.

Definition empty_world : world := mk_world [] [].

Definition shown (w : world) (p : Page) : string := default "about:blank" (tabs w !! p).

Definition browser (s : site) : Browser world := {|
  playwright_enter w := (Ok tt, w);
  playwright_exit w := (Ok tt, w);
  launch w := (Ok tt, w);
  new_context w := (Ok tt, w);
  new_page w := (Ok (length (tabs w)), mk_world (tabs w ++ ["about:blank"]) (anchors w));
  context_close w := (Ok tt, w);
  page_goto p url _ w :=
    match goto_reply (s url) with
    | Ok _ => (Ok tt, mk_world (<[p := url]> (tabs w)) (anchors w))
    | Fail e => (Fail e, w)
    end;
  page_wait_for_load_state p w := (idle_reply (s (shown w p)), w);
  page_evaluate _ w := (Ok tt, w);
  page_wait_for_timeout _ _ w := (Ok tt, w);
  page_wait_for_selector p _ _ w := (selector_reply (s (shown w p)), w);
  page_content p w := (Ok (shown w p), w);
  page_query_selector_all p w :=
    let hs := hrefs (s (shown w p)) in
    (Ok (seq (length (anchors w)) (length hs)), mk_world (tabs w) (anchors w ++ hs));
  link_get_attribute l w :=
    match anchors w !! l with
    | Some h => (Ok h, w)
    | None => (Fail OtherError, w)
    end;
  page_close _ w := (Ok tt, w);
  soup_select content _ := Some (texts (s content))
|}.

Definition start : state world := mk_state empty_world ∅ [].

(** A client in a browser with one blank tab open. *)
Definition one_tab : state world := mk_state (mk_world ["about:blank"] []) ∅ [].

Definition blank : site_page := mk_site_page (Ok tt) (Ok tt) (Fail TimeoutError) [] [].

(** A page with a job advert whose network never goes idle. *)
Definition busy_site : site := fun url =>
  if String.eqb url "http://a"
  then mk_site_page (Ok tt) (Fail TimeoutError) (Ok tt) [["We have a job opening"]] []
  else blank.

(** Two unrelated pages. *)
Definition two_sites : site := fun url =>
  if String.eqb url "http://a"
  then mk_site_page (Ok tt) (Ok tt) (Ok tt) [["We have a job opening"]; ["Contact us"]] []
  else if String.eqb url "http://b"
  then mk_site_page (Ok tt) (Ok tt) (Ok tt) [["Career fair"]] []
  else blank.

(** A seed that links to one other page. *)
Definition linked_site : site := fun url =>
  if String.eqb url "http://a"
  then mk_site_page (Ok tt) (Ok tt) (Ok tt) [["We have a job opening"]] [Some "http://b"]
  else if String.eqb url "http://b"
  then mk_site_page (Ok tt) (Ok tt) (Ok tt) [["Internship"]] []
  else blank.

(** A seed on which the selector never matches, with a link to a page on
    which it does. *)
Definition unmatched_site : site := fun url =>
  if String.eqb url "http://a"
  then mk_site_page (Ok tt) (Ok tt) (Fail TimeoutError) [] [Some "http://b"]
  else if String.eqb url "http://b"
  then mk_site_page (Ok tt) (Ok tt) (Ok tt) [["Internship"]] []
  else blank.

(** An address that never answers. *)
Definition dead_site : site := fun _ =>
  mk_site_page (Fail TimeoutError) (Ok tt) (Ok tt) [] [].




(** The browser of [s] with a [query_selector_all] that always fails. *)
Definition deaf_browser (s : site) : Browser world := {|
  playwright_enter := playwright_enter _ (browser s);
  playwright_exit := playwright_exit _ (browser s);
  launch := launch _ (browser s);
  new_context := new_context _ (browser s);
  new_page := new_page _ (browser s);
  context_close := context_close _ (browser s);
  page_goto := page_goto _ (browser s);
  page_wait_for_load_state := page_wait_for_load_state _ (browser s);
  page_evaluate := page_evaluate _ (browser s);
  page_wait_for_timeout := page_wait_for_timeout _ (browser s);
  page_wait_for_selector := page_wait_for_selector _ (browser s);
  page_content := page_content _ (browser s);
  page_query_selector_all _ w := (Fail OtherError, w);
  link_get_attribute := link_get_attribute _ (browser s);
  page_close := page_close _ (browser s);
  soup_select := soup_select _ (browser s)
|}.

(** A page that links to itself. *)
Definition loop_site : site := fun _ =>
  mk_site_page (Ok tt) (Ok tt) (Ok tt) [["Careers"]] [Some "http://a"].
End Sim.

(** ** Vocabulary of the statements *)

(** The filter loop of [rufus.py] as a function of the remaining input and
    of [seen]: the records it appends. *)
Fixpoint kept (lemmas : string -> list string) (data : list record)
    (seen : gset string) : list record :=
  match data with
  | [] => []
  | item :: data' =>
      let content := Text.lower (content item) in
      if Rufus_filter._is_relevant lemmas content keywords
         && negb (bool_decide (content ∈ seen))
      then item :: kept lemmas data' ({[content]} ∪ seen)
      else kept lemmas data' seen
  end.

(** The deduplication key of a record. *)
Definition key (r : record) : string := Text.lower (content r).

Definition starts_with_space (s : string) : bool :=
  match s with
  | EmptyString => false
  | String c _ => Text.isspace c
  end.

Definition is_nil {A} (l : list A) : bool :=
  match l with [] => true | _ :: _ => false end.

Definition tab : string := String (ascii_of_nat 9) EmptyString.



(** The addresses added to [visited], the pauses, and the number of
    [page.goto(url, timeout=timeout)] on one tab, in a run. *)
Definition visits (tr : list event) : list string :=
  omap (fun e => match e with EvVisit url => Some url | _ => None end) tr.

Definition sleeps (tr : list event) : list Z :=
  omap (fun e => match e with EvSleep seconds => Some seconds | _ => None end) tr.

Definition goto_count (page : Page) (url : string) (timeout : Z) (tr : list event) : nat :=
  length (List.filter (fun e => bool_decide (e = EvCall (CGoto page url timeout))) tr).

(** The navigations and the pauses of a run, in the order of the run. *)
Definition is_attempt_or_pause (e : event) : bool :=
  match e with
  | EvCall (CGoto _ _ _) | EvSleep _ => true
  | _ => false
  end.

Definition attempts_and_pauses (tr : list event) : list event :=
  List.filter is_attempt_or_pause tr.

(** The [visited] set after the events [pre] of a run started in [st]. *)
Definition visited_at {World} (st : state World) (pre : list event) : gset string :=
  visited st ∪ list_to_set (visits pre).

(** What a part of a crawl with budget [pages] does to the state. *)
Record crawl_rel {World} (pages : Z) (st : state World) (tr : list event)
    (st' : state World) : Prop := mk_crawl_rel {
  rel_visited : visited st' = visited st ∪ list_to_set (visits tr);
  rel_NoDup : NoDup (visits tr);
  rel_fresh : forall url, url ∈ visits tr -> url ∉ visited st;
  rel_budget : visits tr <> [] -> Z.of_nat (size (visited st')) <= pages;
  rel_data : all_data st `prefix_of` all_data st'
}.

(** [m], run in [st], respects the relation [R]. *)
Definition sound_at {World A} (R : state World -> list event -> state World -> Prop)
    (m : M World A) (st : state World) : Prop :=
  R st (tr_of (m st)) (st_of (m st)).

Definition sound {World A} (R : state World -> list event -> state World -> Prop)
    (m : M World A) : Prop :=
  forall st, sound_at R m st.

(** [m], run in [st], is not cut for lack of fuel. *)
Definition total_at {World A} (m : M World A) (st : state World) : Prop :=
  res_of (m st) <> OutOfFuel.

Definition total {World A} (m : M World A) : Prop := forall st, total_at m st.

(** The first [n] runs of [attempt], one after the other from [st], all
    end in a timeout. *)
Fixpoint times_out {World} (attempt : M World unit) (n : nat) (st : state World) : Prop :=
  match n with
  | O => True
  | S n' =>
      res_of (attempt st) = Raised TimeoutError
      /\ times_out attempt n' (st_of (attempt st))
  end.

(** The events of link discovery and descent: enumerating the anchors,
    reading an [href], opening a tab, adding an address. *)
Definition discovery_event (e : event) : bool :=
  match e with
  | EvCall (CQuerySelectorAll _) | EvCall (CGetAttribute _) | EvCall CNewPage
  | EvVisit _ => true
  | _ => false
  end.

(** A part of a run that touches neither [visited] nor [all_data] and
    discovers nothing. *)
Definition quiet {World} (st : state World) (tr : list event) (st' : state World) : Prop :=
  visited st' = visited st /\ all_data st' = all_data st
  /\ Forall (fun e => discovery_event e = false) tr.

(** The test at the head of [_crawl_links] lets [url] through. *)
Definition passes_test {World} (st : state World) (url : string) (pages : Z) : Prop :=
  Z.of_nat (size (visited st)) < pages /\ url ∉ visited st.

(** The extraction on the page of [url], run after the address was added
    and navigated to, raises. *)
Definition rufus_extraction_fails {World} (B : Browser World) (max_retries : Z)
    (page : Page) (url prompt css_selector : string) (timeout : Z)
    (st : state World) : Prop :=
  let st1 := st_of (Rufus._navigate_to_url B max_retries page url timeout
                      (st_of (visited_add url st))) in
  exists e,
    res_of (Rufus._extract_data_from_page B page prompt css_selector
              (Z.of_nat (size (visited st1))) st1) = Raised e.

Definition rag_extraction_fails {World} (B : Browser World) (max_retries : Z)
    (page : Page) (url prompt css_selector : string) (timeout : Z)
    (st : state World) : Prop :=
  let st1 := st_of (RufusRag._navigate_to_url B max_retries page url timeout
                      (st_of (visited_add url st))) in
  exists e,
    res_of (RufusRag._extract_data_from_page B page prompt css_selector
              (Z.of_nat (size (visited st1))) st1) = Raised e.

(** A word: a text that is not empty and holds no whitespace. *)
Fixpoint no_space (w : string) : bool :=
  match w with
  | EmptyString => true
  | String c w' => negb (Text.isspace c) && no_space w'
  end.

Definition proper_word (w : string) : bool := negb (Text.is_empty w) && no_space w.


Definition is_log (e : event) : bool :=
  match e with EvLog _ _ => true | _ => false end.

(** [m] never raises to its caller. *)
Definition no_raise {World A} (m : M World A) : Prop :=
  forall st e, res_of (m st) <> Raised e.

(** The last two statements of [_crawl_links] of [rufus_rag.py]: the
    anchors of the page are enumerated and every link is handled in turn;
    [fuel] is the depth left to the recursive calls. *)
Definition rag_link_loop {World} (B : Browser World) (max_retries : Z) (fuel : nat)
    (page : Page) (css_selector prompt : string) (pages timeout : Z) : M World unit :=
  bind (do_call (CQuerySelectorAll page) (page_query_selector_all _ B page))
    (fun links =>
       for_each links
         (RufusRag.crawl_link B
            (fun page next_url =>
               RufusRag._crawl_links B max_retries fuel page next_url css_selector
                 prompt pages timeout)
            page timeout)).

(** A browser operation that succeeds in every world. *)
Definition never_fails {World A} (op : World -> reply A * World) : Prop :=
  forall w, exists a w', op w = (Ok a, w').

(** Starting and stopping Playwright, launching the browser, opening and
    closing the context always succeed. *)
Definition setup_never_fails {World} (B : Browser World) : Prop :=
  never_fails (playwright_enter _ B) /\ never_fails (playwright_exit _ B)
  /\ never_fails (launch _ B) /\ never_fails (new_context _ B)
  /\ never_fails (context_close _ B).

(** A part of a run that only appends to [all_data]. *)
Definition data_rel {World} (st : state World) (tr : list event) (st' : state World) : Prop :=
  all_data st `prefix_of` all_data st'.

(** A part of a run all of whose events satisfy [P]. *)
Definition emits {World} (P : event -> Prop) (st : state World) (tr : list event)
    (st' : state World) : Prop :=
  Forall P tr.

(** The events a crawl from [seed] may show: navigations go to the seed or
    to an address that starts with ["http"], with the timeout of the
    caller; the dwell is 3000 ms; a selector wait is for the selector of
    the caller, with 30000 ms; a pause has a length [sleep_ok] allows; an
    address added is the seed or starts with ["http"]. *)
Definition crawl_event (sleep_ok : Z -> Prop) (seed css_selector : string) (timeout : Z)
    (e : event) : Prop :=
  match e with
  | EvCall (CGoto _ url t) =>
      (url = seed \/ Text.startswith url "http" = true) /\ t = timeout
  | EvCall (CWaitForTimeout _ ms) => ms = 3000
  | EvCall (CWaitForSelector _ css t) => css = css_selector /\ t = 30000
  | EvSleep seconds => sleep_ok seconds
  | EvVisit url => url = seed \/ Text.startswith url "http" = true
  | _ => True
  end.

(** The number of extractions begun in a run: the waits for the selector. *)
Definition is_selector_wait (e : event) : bool :=
  match e with EvCall (CWaitForSelector _ _ _) => true | _ => false end.

Definition extraction_count (tr : list event) : nat :=
  length (List.filter is_selector_wait tr).

(** An event that is neither a wait for the selector nor the addition of
    an address. *)
Definition plain_event (e : event) : Prop :=
  match e with
  | EvCall (CWaitForSelector _ _ _) | EvVisit _ => False
  | _ => True
  end.

(** A part of a run that begins as many extractions as it adds addresses. *)
Definition balanced {World} (st : state World) (tr : list event) (st' : state World) : Prop :=
  extraction_count tr = length (visits tr).

(** A record as a crawl with the label [prompt0] and the budget [pages]
    makes them: the label of the caller, a page number from 1 to the
    budget, a normalised content. *)
Definition record_ok (prompt0 : string) (pages : Z) (r : record) : Prop :=
  prompt r = prompt0
  /\ 1 <= page r <= pages
  /\ Text.re_sub_ws (Text.strip (content r)) = content r.

(** At least one address is visited, and the budget is kept. *)
Definition in_budget {World} (pages : Z) (st : state World) : Prop :=
  1 <= Z.of_nat (size (visited st)) <= pages.

(** A part of a run that, started in budget, stays in budget and appends
    only records of that kind. *)
Definition appends_ok {World} (prompt0 : string) (pages : Z) (st : state World)
    (tr : list event) (st' : state World) : Prop :=
  in_budget pages st ->
  in_budget pages st'
  /\ exists new, all_data st' = all_data st ++ new
                 /\ Forall (record_ok prompt0 pages) new.

(** The events of a call through [RufusAPI]: pauses of 1, 2 or 4 seconds,
    navigations with 30000 ms. *)
Definition api_event (e : event) : Prop :=
  match e with
  | EvSleep seconds => seconds = 1 \/ seconds = 2 \/ seconds = 4
  | EvCall (CGoto _ _ t) => t = 30000
  | _ => True
  end.

(** ** The text functions *)

Section text_facts.
Import Text.

Lemma words_lstrip s : words (lstrip s) = words s.
Proof.
  induction s as [|c s IH]; [done|].
  simpl. destruct (isspace c) eqn:Hc; [done|]. simpl. by rewrite Hc.
Qed.

Lemma starts_with_space_lstrip s : starts_with_space (lstrip s) = false.
Proof.
  induction s as [|c s IH]; [done|].
  simpl. destruct (isspace c) eqn:Hc; [done|]. simpl. by rewrite Hc.
Qed.

Lemma words_nonempty c s : isspace c = false -> is_nil (words (String c s)) = false.
Proof.
  intros Hc. simpl. rewrite Hc.
  destruct s as [|c' s']; [done|].
  destruct (isspace c'); [done|]. by destruct (words (String c' s')).
Qed.

Lemma rstrip_empty s : is_empty (rstrip s) = is_nil (words s).
Proof.
  induction s as [|c s IH]; [done|].
  destruct (isspace c) eqn:Hc.
  - simpl. rewrite Hc. simpl. rewrite IH. by destruct (is_nil (words s)).
  - rewrite words_nonempty by done. simpl. by rewrite Hc.
Qed.

Lemma sub_ws_rstrip s b :
  sub_ws_from b (rstrip s)
  = ((if starts_with_space s && negb b && negb (is_nil (words s))
      then " " else "") +:+ String.concat " " (words s))%string.
Proof.
  revert b. induction s as [|c s IH]; intros b; [done|].
  destruct (isspace c) eqn:Hc.
  - cbn [rstrip starts_with_space words]. rewrite Hc. cbn [andb].
    rewrite rstrip_empty.
    destruct (is_nil (words s)) eqn:Hn.
    + destruct (words s); [|done]. by destruct b.
    + cbn [sub_ws_from]. rewrite Hc, (IH true), andb_false_r.
      by destruct b.
  - cbn [rstrip starts_with_space]. rewrite Hc. cbn [andb sub_ws_from].
    rewrite Hc, (IH false). cbn [words]. rewrite Hc.
    destruct s as [|c' s']; [done|].
    cbn [starts_with_space negb andb].
    destruct (isspace c') eqn:Hc'.
    + cbn [andb]. destruct (words (String c' s')) eqn:Hw; done.
    + pose proof (words_nonempty c' s' Hc') as Hne.
      destruct (words (String c' s')) as [|w ws]; [done|].
      cbn [andb]. by destruct ws.
Qed.

Lemma re_sub_ws_strip s : re_sub_ws (strip s) = normalized s.
Proof.
  unfold re_sub_ws, strip, normalized.
  by rewrite sub_ws_rstrip, starts_with_space_lstrip, words_lstrip.
Qed.

(** Texts that [strip] leaves as they are, and their concatenation. *)
Lemma lstrip_fixed s : starts_with_space s = false -> lstrip s = s.
Proof. destruct s as [|c s]; [done|]. simpl. by intros ->. Qed.

Lemma starts_with_space_rstrip s :
  starts_with_space s = false -> starts_with_space (rstrip s) = false.
Proof. destruct s as [|c s]; [done|]. simpl. intros Hc. by rewrite Hc. Qed.

Lemma rstrip_idem s : rstrip (rstrip s) = rstrip s.
Proof.
  induction s as [|c s IH]; [done|]. simpl.
  destruct (isspace c && is_empty (rstrip s)) eqn:Hc; [done|].
  simpl. by rewrite IH, Hc.
Qed.

Lemma strip_fixed_inv s :
  strip s = s -> starts_with_space s = false /\ rstrip s = s.
Proof.
  intros Hs.
  assert (starts_with_space s = false) as Hstart.
  { rewrite <- Hs. apply starts_with_space_rstrip, starts_with_space_lstrip. }
  split; [done|]. unfold strip in Hs. by rewrite lstrip_fixed in Hs.
Qed.

Lemma strip_fixed s :
  starts_with_space s = false -> rstrip s = s -> strip s = s.
Proof. intros Hstart Hend. unfold strip. by rewrite lstrip_fixed. Qed.

Lemma strip_strip s : strip (strip s) = strip s.
Proof.
  apply strip_fixed.
  - apply starts_with_space_rstrip, starts_with_space_lstrip.
  - apply rstrip_idem.
Qed.

Lemma append_empty_r s : (s +:+ "")%string = s.
Proof.
  induction s as [|c s IH]; [done|].
  change (String c (s +:+ "") = String c s). by rewrite IH.
Qed.

Lemma rstrip_append a b :
  is_empty b = false -> rstrip b = b -> rstrip (a +:+ b) = (a +:+ b)%string.
Proof.
  intros Hne Hb. induction a as [|c a IH]; [exact Hb|].
  change (rstrip (String c (a +:+ b)) = String c (a +:+ b)).
  cbn [rstrip]. rewrite IH.
  assert (is_empty (a +:+ b) = false) as -> by (destruct a; [exact Hne|done]).
  by rewrite andb_false_r.
Qed.

Lemma strip_append a b :
  strip a = a -> strip b = b -> strip (a +:+ b) = (a +:+ b)%string.
Proof.
  intros Ha Hb. destruct a as [|c a]; [exact Hb|].
  destruct b as [|c' b]; [by rewrite append_empty_r|].
  apply strip_fixed_inv in Ha as [Hstart _]. apply strip_fixed_inv in Hb as [_ Hend].
  apply strip_fixed; [exact Hstart|]. by apply rstrip_append.
Qed.

Lemma concat_empty_cons x l :
  String.concat "" (x :: l) = (x +:+ String.concat "" l)%string.
Proof. destruct l as [|y l]; [symmetry; apply append_empty_r|reflexivity]. Qed.

(** The text that [get_text(strip=True)] gives has no whitespace at either
    end. *)
Lemma get_text_strip_fixed element :
  strip (get_text_strip element) = get_text_strip element.
Proof.
  unfold get_text_strip. induction element as [|text element IH]; [done|].
  cbn [List.map List.filter]. destruct (is_empty (strip text)); cbn [negb]; [done|].
  rewrite concat_empty_cons. apply strip_append; [apply strip_strip|done].
Qed.

(** Of an element with one text node it gives the stripped text. *)
Lemma get_text_strip_one text : get_text_strip [text] = strip text.
Proof.
  unfold get_text_strip. simpl.
  by destruct (strip text) as [|c t].
Qed.

Lemma re_sub_ws_get_text element :
  re_sub_ws (get_text_strip element) = normalized (get_text_strip element).
Proof. by rewrite <- (get_text_strip_fixed element) at 1; rewrite re_sub_ws_strip. Qed.

End text_facts.

(** ** The relevance filter *)

Section filter_facts.
Variable lemmas : string -> list string.
Local Abbreviation relevant := (fun r => Rufus_filter._is_relevant lemmas (key r) keywords).

Lemma filter_loop_kept data filtered_data seen :
  Rufus_filter.filter_loop lemmas data filtered_data seen
  = filtered_data ++ kept lemmas data seen.
Proof.
  revert filtered_data seen.
  induction data as [|item data IH]; intros acc seen; simpl.
  - by rewrite app_nil_r.
  - case_match; rewrite IH; [by rewrite <- app_assoc | done].
Qed.

Lemma filter_data_kept data : Rufus_filter.filter_data lemmas data = kept lemmas data ∅.
Proof. unfold Rufus_filter.filter_data. by rewrite filter_loop_kept. Qed.

Lemma kept_elem data seen r :
  r ∈ kept lemmas data seen -> r ∈ data /\ relevant r = true /\ key r ∉ seen.
Proof.
  revert seen. induction data as [|item data IH]; intros seen; simpl.
  - by intros ?%elem_of_nil.
  - case_match eqn:Hc.
    + apply andb_prop in Hc as [Hrel Hseen].
      apply negb_true_iff, bool_decide_eq_false in Hseen.
      intros [->|Hin]%elem_of_cons.
      * split; [left|done].
      * apply IH in Hin as (? & ? & ?).
        split; [by right|]. split; [done|set_solver].
    + intros Hin. apply IH in Hin as (? & ? & ?). split; [by right|done].
Qed.

Lemma kept_NoDup data seen : NoDup (key <$> kept lemmas data seen).
Proof.
  revert seen. induction data as [|item data IH]; intros seen; simpl.
  - constructor.
  - case_match; [|done].
    rewrite fmap_cons. constructor; [|done].
    intros (r & Hk & Hr)%list_elem_of_fmap.
    apply kept_elem in Hr as (_ & _ & Hnot).
    apply Hnot. unfold key in Hk. rewrite Hk. set_solver.
Qed.

Lemma kept_all l seen :
  (forall r, r ∈ l -> relevant r = true) ->
  NoDup (key <$> l) ->
  (forall r, r ∈ l -> key r ∉ seen) ->
  kept lemmas l seen = l.
Proof.
  revert seen. induction l as [|item l IH]; intros seen Hrel Hnd Hseen; [done|].
  simpl. rewrite fmap_cons in Hnd. apply NoDup_cons in Hnd as [Hitem Hnd].
  fold (key item). rewrite (Hrel item) by left.
  rewrite bool_decide_eq_false_2 by (apply Hseen; left).
  simpl. f_equal. apply IH; [|done|].
  - intros r Hr. apply Hrel. by right.
  - intros r Hr. apply not_elem_of_union. split.
    + intros Heq%elem_of_singleton. apply Hitem. rewrite <- Heq.
      by apply list_elem_of_fmap_2.
    + apply Hseen. by right.
Qed.
End filter_facts.



(** C5 (amended): every record of the output of [filter_data] of [rufus.py]
    has a lowercased content one of whose lemmas is a keyword; every record
    of the output of [filter_data] of [rufus_rag.py] has a lowercased
    content in which a keyword occurs as a substring. *)
Theorem filter_data_relevant lemmas (data : list record) (r : record) :
  (r ∈ Rufus_filter.filter_data lemmas data ->
   exists lemma_, lemma_ ∈ lemmas (Text.lower (content r)) /\ lemma_ ∈ keywords)
  /\
  (r ∈ Rag_filter.filter_data data ->
   exists keyword, keyword ∈ keywords
                   /\ Text.contains keyword (Text.lower (content r)) = true).
Proof.
  split.
  - rewrite filter_data_kept. intros (_ & Hrel & _)%kept_elem.
    unfold Rufus_filter._is_relevant in Hrel.
    apply existsb_exists in Hrel as (t & Ht & Hk).
    exists t. split; [by apply list_elem_of_In|].
    by apply bool_decide_eq_true in Hk.
  - unfold Rag_filter.filter_data. intros Hin.
    apply list_elem_of_In, filter_In in Hin as [_ Hex].
    apply existsb_exists in Hex as (k & Hk & Hc).
    exists k. split; [by apply list_elem_of_In|done].
Qed.

(** C5 as stated fails on [rufus_rag.py]: ["Unemployment office"] passes
    its filter, and none of its lemmas is a keyword. *)
Lemma rag_filter_data_no_lemma :
  let r := mk_record "p" 1 "Unemployment office" in
  r ∈ Rag_filter.filter_data [r] /\
  Toy.lemmas (Text.lower (content r)) = ["unemployment"; "office"] /\
  ~ exists lemma_, lemma_ ∈ Toy.lemmas (Text.lower (content r)) /\ lemma_ ∈ keywords.
Proof.
  split; [by left|]. split; [reflexivity|].
  intros (t & Ht & Hk). vm_compute in Ht.
  apply elem_of_cons in Ht as [->|Ht];
    [|apply list_elem_of_singleton in Ht as ->];
    by apply (bool_decide_pack _) in Hk.
Qed.

(** C10: [filter_data] of [rufus.py] is idempotent. *)
Theorem filter_data_idempotent lemmas (d : list record) :
  Rufus_filter.filter_data lemmas (Rufus_filter.filter_data lemmas d)
  = Rufus_filter.filter_data lemmas d.
Proof.
  rewrite !filter_data_kept. apply kept_all.
  - by intros r (_ & Hrel & _)%kept_elem.
  - apply kept_NoDup.
  - intros r _. apply not_elem_of_empty.
Qed.

(** ** Reasoning about computations *)

Section logic.
Context {World : Type} (R : state World -> list event -> state World -> Prop).
Hypothesis R_nil : forall st, R st [] st.
Hypothesis R_app : forall st t1 st1 t2 st2,
  R st t1 st1 -> R st1 t2 st2 -> R st (t1 ++ t2) st2.

Lemma sound_ret {A} (a : A) : sound R (@ret World A a).
Proof. intros st. apply R_nil. Qed.

Lemma sound_raise {A} e : sound R (@raise World A e).
Proof. intros st. apply R_nil. Qed.

Lemma sound_out_of_fuel {A} : sound R (@out_of_fuel World A).
Proof. intros st. apply R_nil. Qed.

Lemma sound_get_visited : sound R (@get_visited World).
Proof. intros st. apply R_nil. Qed.

Lemma sound_len_visited : sound R (@len_visited World).
Proof. intros st. apply R_nil. Qed.

Lemma sound_get_all_data : sound R (@get_all_data World).
Proof. intros st. apply R_nil. Qed.

Lemma sound_at_bind {A B} (m : M World A) (f : A -> M World B) st :
  sound_at R m st ->
  (forall a, res_of (m st) = Done a -> sound_at R (f a) (st_of (m st))) ->
  sound_at R (bind m f) st.
Proof.
  unfold sound_at, bind. intros Hm Hf.
  destruct (m st) as [[[a|e|] st1] t1]; simpl in *; [|done|done].
  specialize (Hf a eq_refl).
  destruct (f a st1) as [[r2 st2] t2]; simpl in *. eauto.
Qed.

Lemma sound_bind {A B} (m : M World A) (f : A -> M World B) :
  sound R m -> (forall a, sound R (f a)) -> sound R (bind m f).
Proof. intros Hm Hf st. apply sound_at_bind; [apply Hm|]. intros a _. apply Hf. Qed.

Lemma sound_at_catch {A} (m : M World A) st :
  sound_at R m st -> sound_at R (catch m) st.
Proof.
  unfold sound_at, catch. by destruct (m st) as [[[a|e|] st1] t1].
Qed.

Lemma sound_catch {A} (m : M World A) : sound R m -> sound R (catch m).
Proof. intros Hm st. apply sound_at_catch, Hm. Qed.

Lemma sound_at_try_finally {A} (m : M World A) fin st :
  sound_at R m st -> sound R fin -> sound_at R (try_finally m fin) st.
Proof.
  unfold sound_at, try_finally. intros Hm Hfin.
  destruct (m st) as [[r st1] t1]; simpl in *.
  specialize (Hfin st1). unfold sound_at in Hfin.
  destruct r; [| |done];
    destruct (fin st1) as [[[[]|e'|] st2] t2]; simpl in *; eauto.
Qed.

Lemma sound_try_finally {A} (m : M World A) fin :
  sound R m -> sound R fin -> sound R (try_finally m fin).
Proof. intros Hm Hfin st. apply sound_at_try_finally; [apply Hm|done]. Qed.

Lemma sound_for_each {A} (l : list A) (body : A -> M World unit) :
  (forall x, sound R (body x)) -> sound R (for_each l body).
Proof.
  intros Hbody. induction l as [|x l IH]; simpl.
  - apply sound_ret.
  - apply sound_bind; [apply Hbody|done].
Qed.
End logic.

Section totality.
Context {World : Type}.

Lemma total_at_bind {A B} (m : M World A) (f : A -> M World B) st :
  total_at m st ->
  (forall a, res_of (m st) = Done a -> total_at (f a) (st_of (m st))) ->
  total_at (bind m f) st.
Proof.
  unfold total_at, bind. intros Hm Hf.
  destruct (m st) as [[[a|e|] st1] t1]; simpl in *; [|done|done].
  specialize (Hf a eq_refl). by destruct (f a st1) as [[r2 st2] t2].
Qed.

Lemma total_bind {A B} (m : M World A) (f : A -> M World B) :
  total m -> (forall a, total (f a)) -> total (bind m f).
Proof. intros Hm Hf st. apply total_at_bind; [apply Hm|]. intros a _. apply Hf. Qed.

Lemma total_at_catch {A} (m : M World A) st : total_at m st -> total_at (catch m) st.
Proof. unfold total_at, catch. by destruct (m st) as [[[a|e|] st1] t1]. Qed.

Lemma total_catch {A} (m : M World A) : total m -> total (catch m).
Proof. intros Hm st. apply total_at_catch, Hm. Qed.

Lemma total_at_try_finally {A} (m : M World A) fin st :
  total_at m st -> total fin -> total_at (try_finally m fin) st.
Proof.
  unfold total_at, try_finally. intros Hm Hfin.
  destruct (m st) as [[r st1] t1]; simpl in *.
  specialize (Hfin st1). unfold total_at in Hfin.
  destruct r; [| |done]; by destruct (fin st1) as [[[[]|e'|] st2] t2].
Qed.

Lemma total_for_each_inv {A} (Inv : state World -> Prop) (l : list A)
    (body : A -> M World unit) st :
  (forall x st, Inv st -> total_at (body x) st) ->
  (forall x st, Inv st -> Inv (st_of (body x st))) ->
  Inv st -> total_at (for_each l body) st.
Proof.
  intros Htot Hinv. revert st. induction l as [|x l IH]; intros st Hst; simpl.
  - done.
  - apply total_at_bind; [by apply Htot|]. intros _ _. apply IH. by apply Hinv.
Qed.

Lemma total_for_each {A} (l : list A) (body : A -> M World unit) :
  (forall x, total (body x)) -> total (for_each l body).
Proof.
  intros Hbody st. apply (total_for_each_inv (fun _ => True)); [|done|done].
  intros x st' _. apply Hbody.
Qed.

Lemma total_ret {A} (a : A) : total (@ret World A a).
Proof. done. Qed.

Lemma total_raise {A} e : total (@raise World A e).
Proof. done. Qed.

Lemma total_emit e : total (@emit World e).
Proof. done. Qed.

Lemma total_do_call {A} c (op : World -> reply A * World) : total (do_call c op).
Proof. intros st. unfold total_at, do_call. by destruct (op (world st)) as [[a|e] w]. Qed.

Lemma total_all_data_append r : total (@all_data_append World r).
Proof. done. Qed.
End totality.

(** ** The crawl relation *)

Lemma visits_app t1 t2 : visits (t1 ++ t2) = visits t1 ++ visits t2.
Proof. unfold visits. apply omap_app. Qed.

Lemma sleeps_app t1 t2 : sleeps (t1 ++ t2) = sleeps t1 ++ sleeps t2.
Proof. unfold sleeps. apply omap_app. Qed.

Lemma goto_count_app page url timeout t1 t2 :
  goto_count page url timeout (t1 ++ t2)
  = (goto_count page url timeout t1 + goto_count page url timeout t2)%nat.
Proof. unfold goto_count. by rewrite List.filter_app, length_app. Qed.

Section crawl_rel_facts.
Context {World : Type} (pages : Z).
Local Abbreviation R := (@crawl_rel World pages).

Lemma crawl_rel_nil st : R st [] st.
Proof.
  split; simpl; try done.
  - set_solver.
  - constructor.
  - intros url Hin. by apply elem_of_nil in Hin.
Qed.

Lemma crawl_rel_app st t1 st1 t2 st2 :
  R st t1 st1 -> R st1 t2 st2 -> R st (t1 ++ t2) st2.
Proof.
  intros [Hv1 Hnd1 Hf1 Hb1 Hd1] [Hv2 Hnd2 Hf2 Hb2 Hd2].
  split; rewrite ?visits_app.
  - rewrite Hv2, Hv1, list_to_set_app_L. set_solver.
  - apply NoDup_app. split; [done|]. split; [|done].
    intros url Hin1 Hin2. apply (Hf2 url Hin2). rewrite Hv1. set_solver.
  - intros url [Hin|Hin]%elem_of_app; [by apply Hf1|].
    intros Hst. apply (Hf2 url Hin). rewrite Hv1. set_solver.
  - intros Hne. destruct (visits t2) as [|u l] eqn:Ht2.
    + rewrite app_nil_r in Hne. rewrite Hv2. simpl.
      rewrite union_empty_r_L. by apply Hb1.
    + by apply Hb2.
  - by etrans.
Qed.

(** A step that leaves [visited] and [all_data] alone and adds no address. *)
Lemma crawl_rel_quiet st tr st' :
  visits tr = [] -> visited st' = visited st -> all_data st' = all_data st ->
  R st tr st'.
Proof.
  intros Ht Hv Hd. split; rewrite ?Ht, ?Hv, ?Hd; simpl; try done.
  - set_solver.
  - constructor.
  - intros url Hin. by apply elem_of_nil in Hin.
Qed.

Lemma sound_do_call {A} c (op : World -> reply A * World) : sound R (do_call c op).
Proof.
  intros st. unfold sound_at, do_call.
  destruct (op (world st)) as [[a|e] w]; by apply crawl_rel_quiet.
Qed.

Lemma sound_log lvl msg : sound R (log lvl msg).
Proof. intros st. by apply crawl_rel_quiet. Qed.

Lemma sound_sleep seconds : sound R (sleep seconds).
Proof. intros st. by apply crawl_rel_quiet. Qed.

Lemma sound_all_data_append r : sound R (all_data_append r).
Proof.
  intros st. split; simpl; try done.
  - set_solver.
  - constructor.
  - intros url Hin. by apply elem_of_nil in Hin.
  - by apply prefix_app_r.
Qed.

(** The admission: [visited.add(url)] after the test of [_crawl_links]. *)
Lemma sound_at_visited_add url st :
  Z.of_nat (size (visited st)) < pages -> url ∉ visited st ->
  sound_at R (visited_add url) st.
Proof.
  intros Hlt Hnot. split; simpl.
  - set_solver.
  - apply NoDup_singleton.
  - by intros u ->%list_elem_of_singleton.
  - intros _. rewrite size_union by set_solver. rewrite size_singleton. lia.
  - done.
Qed.

(** The events before any point of a run: the set holds the addresses added
    so far, no address was added twice, and the budget holds. *)
Lemma crawl_rel_prefix st tr st' pre post :
  R st tr st' -> Z.of_nat (size (visited st)) <= pages -> tr = pre ++ post ->
  NoDup (visits pre)
  /\ (forall url, url ∈ visits pre -> url ∉ visited st)
  /\ Z.of_nat (size (visited_at st pre)) <= pages.
Proof.
  intros [Hv Hnd Hf Hb Hd] Hle ->. rewrite visits_app in *.
  split; [by apply NoDup_app in Hnd as (? & _ & _)|].
  split; [intros url Hin; apply Hf; set_solver|].
  unfold visited_at.
  destruct (visits pre ++ visits post) as [|u l] eqn:Hall.
  - apply app_eq_nil in Hall as [-> _]. simpl. by rewrite union_empty_r_L.
  - etrans; [|by apply Hb].
    apply inj_le, subseteq_size. rewrite Hv, <- Hall, list_to_set_app_L. set_solver.
Qed.
End crawl_rel_facts.

(** One proof step of [sound (crawl_rel pages) m], by the shape of [m]. *)
Ltac sound_step pages :=
  first
    [ apply (sound_bind _ (crawl_rel_app pages)); [|intros ?]
    | apply sound_catch
    | apply (sound_try_finally _ (crawl_rel_app pages))
    | apply (sound_for_each _ (crawl_rel_nil pages) (crawl_rel_app pages)); intros ?
    | apply (sound_ret _ (crawl_rel_nil pages))
    | apply (sound_raise _ (crawl_rel_nil pages))
    | apply (sound_out_of_fuel _ (crawl_rel_nil pages))
    | apply (sound_get_visited _ (crawl_rel_nil pages))
    | apply (sound_len_visited _ (crawl_rel_nil pages))
    | apply (sound_get_all_data _ (crawl_rel_nil pages))
    | apply sound_do_call
    | apply sound_log
    | apply sound_sleep
    | apply sound_all_data_append
    | assumption
    | match goal with
      | |- sound _ (match ?x with _ => _ end) => destruct x
      | |- sound _ (if ?b then _ else _) => destruct b
      end ].

Ltac sound_auto pages := repeat sound_step pages.

Section rufus_sound.
Context {World : Type} (B : Browser World) (max_retries : Z) (pages : Z).
Local Abbreviation R := (@crawl_rel World pages).

Lemma rufus_navigate_attempt_sound page url timeout :
  sound R (Rufus.navigate_attempt B page url timeout).
Proof. unfold Rufus.navigate_attempt. sound_auto pages. Qed.

Lemma rufus_navigate_sound page url timeout :
  sound R (Rufus._navigate_to_url B max_retries page url timeout).
Proof.
  unfold Rufus._navigate_to_url.
  induction (range max_retries) as [|attempt attempts IH]; simpl.
  - sound_auto pages.
  - pose proof (rufus_navigate_attempt_sound page url timeout).
    sound_auto pages.
Qed.

Lemma rufus_extract_sound page prompt css_selector page_num :
  sound R (Rufus._extract_data_from_page B page prompt css_selector page_num).
Proof. unfold Rufus._extract_data_from_page. sound_auto pages. Qed.

Lemma rufus_crawl_link_sound crawl timeout link :
  (forall p u, sound R (crawl p u)) ->
  sound R (Rufus.crawl_link B crawl timeout link).
Proof.
  intros Hcrawl. unfold Rufus.crawl_link. sound_auto pages. apply Hcrawl.
Qed.

Lemma rufus_crawl_visit_sound crawl page url css_selector prompt timeout :
  (forall p u, sound R (crawl p u)) ->
  sound R (Rufus.crawl_visit B max_retries crawl page url css_selector prompt timeout).
Proof.
  intros Hcrawl. unfold Rufus.crawl_visit.
  pose proof (rufus_navigate_sound page url timeout).
  pose proof (rufus_extract_sound page prompt css_selector).
  pose proof (rufus_crawl_link_sound crawl timeout).
  sound_auto pages; auto.
Qed.

Lemma rufus_crawl_body_sound crawl page url css_selector prompt timeout :
  (forall p u, sound R (crawl p u)) ->
  sound R (Rufus.crawl_body B max_retries crawl page url css_selector prompt pages timeout).
Proof.
  intros Hcrawl st. unfold Rufus.crawl_body.
  apply (sound_at_bind _ (crawl_rel_app pages)); [apply crawl_rel_nil|].
  simpl. intros v [= <-].
  destruct (_ || _) eqn:Hadm; [apply crawl_rel_nil|].
  apply orb_false_elim in Hadm as [Hlt Hnot].
  apply Z.leb_gt in Hlt. apply bool_decide_eq_false in Hnot.
  apply (sound_at_bind _ (crawl_rel_app pages)); [by apply sound_at_visited_add|].
  intros _ _. by apply rufus_crawl_visit_sound.
Qed.

Lemma rufus_crawl_sound fuel page url css_selector prompt timeout :
  sound R (Rufus._crawl_links B max_retries fuel page url css_selector prompt pages timeout).
Proof.
  revert page url. induction fuel as [|fuel IH]; intros page url; simpl.
  - sound_auto pages.
  - by apply rufus_crawl_body_sound.
Qed.
End rufus_sound.

Section rag_sound.
Context {World : Type} (B : Browser World) (max_retries : Z) (pages : Z).
Local Abbreviation R := (@crawl_rel World pages).

Lemma rag_navigate_attempt_sound page url timeout :
  sound R (RufusRag.navigate_attempt B page url timeout).
Proof. unfold RufusRag.navigate_attempt. sound_auto pages. Qed.

Lemma rag_navigate_sound page url timeout :
  sound R (RufusRag._navigate_to_url B max_retries page url timeout).
Proof.
  unfold RufusRag._navigate_to_url.
  induction (range max_retries) as [|attempt attempts IH]; simpl.
  - sound_auto pages.
  - pose proof (rag_navigate_attempt_sound page url timeout).
    sound_auto pages.
Qed.

Lemma rag_extract_sound page prompt css_selector page_num :
  sound R (RufusRag._extract_data_from_page B page prompt css_selector page_num).
Proof. unfold RufusRag._extract_data_from_page. sound_auto pages. Qed.

Lemma rag_get_link_href_sound link : sound R (RufusRag._get_link_href B link).
Proof. unfold RufusRag._get_link_href. sound_auto pages. Qed.

Lemma rag_retry_navigation_sound crawl page next_url timeout :
  (forall p u, sound R (crawl p u)) ->
  sound R (RufusRag._retry_navigation B crawl page next_url timeout).
Proof.
  intros Hcrawl. unfold RufusRag._retry_navigation.
  induction (range 3) as [|attempt attempts IH]; simpl.
  - sound_auto pages.
  - sound_auto pages. apply Hcrawl.
Qed.

Lemma rag_crawl_link_sound crawl page timeout link :
  (forall p u, sound R (crawl p u)) ->
  sound R (RufusRag.crawl_link B crawl page timeout link).
Proof.
  intros Hcrawl. unfold RufusRag.crawl_link.
  pose proof (rag_get_link_href_sound link).
  sound_auto pages; apply Hcrawl.
Qed.

Lemma rag_crawl_visit_sound crawl page url css_selector prompt timeout :
  (forall p u, sound R (crawl p u)) ->
  sound R (RufusRag.crawl_visit B max_retries crawl page url css_selector prompt timeout).
Proof.
  intros Hcrawl. unfold RufusRag.crawl_visit.
  pose proof (rag_navigate_sound page url timeout).
  pose proof (rag_extract_sound page prompt css_selector).
  pose proof (rag_crawl_link_sound crawl page timeout).
  sound_auto pages; auto.
Qed.

Lemma rag_crawl_body_sound crawl page url css_selector prompt timeout :
  (forall p u, sound R (crawl p u)) ->
  sound R (RufusRag.crawl_body B max_retries crawl page url css_selector prompt pages timeout).
Proof.
  intros Hcrawl st. unfold RufusRag.crawl_body.
  apply (sound_at_bind _ (crawl_rel_app pages)); [apply crawl_rel_nil|].
  simpl. intros v [= <-].
  destruct (_ || _) eqn:Hadm; [apply crawl_rel_nil|].
  apply orb_false_elim in Hadm as [Hlt Hnot].
  apply Z.leb_gt in Hlt. apply bool_decide_eq_false in Hnot.
  apply (sound_at_bind _ (crawl_rel_app pages)); [by apply sound_at_visited_add|].
  intros _ _. by apply rag_crawl_visit_sound.
Qed.

Lemma rag_crawl_sound fuel page url css_selector prompt timeout :
  sound R (RufusRag._crawl_links B max_retries fuel page url css_selector prompt pages timeout).
Proof.
  revert page url. induction fuel as [|fuel IH]; intros page url; simpl.
  - sound_auto pages.
  - by apply rag_crawl_body_sound.
Qed.
End rag_sound.

Lemma crawl_rel_at_add {World} pages (st : state World) tr st' pre url post :
  crawl_rel pages st tr st' -> Z.of_nat (size (visited st)) <= pages ->
  tr = pre ++ (EvVisit url :: post) ->
  (url ∉ visited_at st pre) /\ Z.of_nat (size (visited_at st pre)) < pages.
Proof.
  intros Hrel Hle Htr.
  destruct (crawl_rel_prefix pages st tr st' (pre ++ [EvVisit url]) post Hrel Hle)
    as (Hnd & Hfresh & Hsize).
  { by rewrite <- app_assoc. }
  rewrite visits_app in Hnd, Hfresh. simpl in Hnd, Hfresh.
  apply NoDup_app in Hnd as (_ & Hnot & _).
  assert (url ∉ visited_at st pre) as Hurl.
  { unfold visited_at. apply not_elem_of_union. split.
    - apply Hfresh. set_solver.
    - rewrite elem_of_list_to_set. intros Hin. apply (Hnot url Hin). by left. }
  split; [done|].
  unfold visited_at in *. rewrite visits_app, list_to_set_app_L in Hsize.
  simpl in Hsize. rewrite union_empty_r_L, assoc_L in Hsize by apply _.
  rewrite size_union in Hsize by set_solver. rewrite size_singleton in Hsize. lia.
Qed.

(** C3 (amended): in both variants, at every point of a crawl with budget
    [pages] that starts within its budget, the visited set holds at most
    [pages] addresses and no address has been added twice; and an address
    is added only when the test of [_crawl_links] lets it through: it was
    not in the set, and the set held fewer than [pages] addresses. *)
Theorem visited_within_budget {World} (B : Browser World) max_retries fuel page
    url css_selector prompt pages timeout (st : state World) pre post :
  Z.of_nat (size (visited st)) <= pages ->
  (tr_of (Rufus._crawl_links B max_retries fuel page url css_selector prompt
            pages timeout st) = pre ++ post
   \/ tr_of (RufusRag._crawl_links B max_retries fuel page url css_selector prompt
               pages timeout st) = pre ++ post) ->
  NoDup (visits pre)
  /\ (forall url, url ∈ visits pre -> url ∉ visited st)
  /\ Z.of_nat (size (visited_at st pre)) <= pages
  /\ (forall next_url post', post = (EvVisit next_url :: post') ->
      (next_url ∉ visited_at st pre) /\ Z.of_nat (size (visited_at st pre)) < pages).
Proof.
  intros Hle Htr.
  assert (exists tr st', crawl_rel pages st tr st' /\ tr = pre ++ post)
    as (tr & st' & Hrel & ->).
  { destruct Htr as [Htr|Htr]; eexists _, _; (split; [|exact Htr]).
    - apply (rufus_crawl_sound B max_retries pages fuel page url css_selector prompt
               timeout st).
    - apply (rag_crawl_sound B max_retries pages fuel page url css_selector prompt
               timeout st). }
  destruct (crawl_rel_prefix pages st _ st' pre post Hrel Hle eq_refl)
    as (Hnd & Hfresh & Hsize).
  split; [done|]. split; [done|]. split; [done|].
  intros next_url post' ->.
  apply (crawl_rel_at_add pages st _ st' pre next_url post' Hrel Hle eq_refl).
Qed.

(** ** Termination *)

Lemma do_call_visited {World A} c (op : World -> reply A * World) st :
  visited (st_of (do_call c op st)) = visited st.
Proof. unfold do_call. by destruct (op (world st)) as [[a|e] w]. Qed.

Lemma do_call_all_data {World A} c (op : World -> reply A * World) st :
  all_data (st_of (do_call c op st)) = all_data st.
Proof. unfold do_call. by destruct (op (world st)) as [[a|e] w]. Qed.

Lemma sound_visited_mono {World A} pages (m : M World A) st :
  sound_at (crawl_rel pages) m st -> visited st ⊆ visited (st_of (m st)).
Proof. intros [Hv _ _ _ _]. rewrite Hv. set_solver. Qed.

(** One proof step of [total_at m st], by the shape of [m]. *)
Ltac total_step :=
  first
    [ apply total_at_bind; [|intros ? _]
    | apply total_at_catch
    | apply total_at_try_finally
    | apply total_do_call
    | apply total_for_each; intros ?
    | apply total_ret
    | apply total_raise
    | apply total_emit
    | apply total_all_data_append
    | assumption
    | done
    | match goal with
      | |- total_at (match ?x with _ => _ end) _ => destruct x
      | |- total _ => intros ?
      end ].

Ltac total_auto := repeat total_step.

Section rufus_total.
Context {World : Type} (B : Browser World) (max_retries : Z).

Lemma rufus_navigate_total page url timeout :
  total (Rufus._navigate_to_url B max_retries page url timeout).
Proof.
  unfold Rufus._navigate_to_url.
  induction (range max_retries) as [|attempt attempts IH]; intros st; simpl.
  - done.
  - unfold Rufus.navigate_attempt. total_auto; apply IH.
Qed.

Lemma rufus_extract_total page prompt css_selector page_num :
  total (Rufus._extract_data_from_page B page prompt css_selector page_num).
Proof. intros st. unfold Rufus._extract_data_from_page. total_auto. Qed.

Lemma rufus_crawl_link_total crawl timeout link (V : gset string) st :
  (forall p u st', V ⊆ visited st' -> total_at (crawl p u) st') ->
  V ⊆ visited st ->
  total_at (Rufus.crawl_link B crawl timeout link) st.
Proof.
  intros Hcrawl HV. unfold Rufus.crawl_link. total_auto.
  apply Hcrawl. by repeat first [rewrite do_call_visited | progress simpl].
Qed.

Lemma rufus_crawl_visit_total pages crawl page url css_selector prompt timeout st :
  (forall p u, sound (crawl_rel pages) (crawl p u)) ->
  (forall p u st', visited st ⊆ visited st' -> total_at (crawl p u) st') ->
  total_at (Rufus.crawl_visit B max_retries crawl page url css_selector prompt timeout) st.
Proof.
  intros Hsound Hcrawl. unfold Rufus.crawl_visit.
  pose proof (rufus_navigate_sound B max_retries pages page url timeout st) as Hnav.
  apply sound_visited_mono in Hnav.
  apply total_at_bind; [apply rufus_navigate_total|]. intros _ _.
  set (st1 := st_of (Rufus._navigate_to_url B max_retries page url timeout st)) in *.
  apply total_at_bind; [done|]. intros page_num _. simpl.
  pose proof (rufus_extract_sound B pages page prompt css_selector page_num st1) as Hex.
  apply sound_visited_mono in Hex.
  apply total_at_bind; [apply total_at_catch, rufus_extract_total|].
  intros r _.
  assert (visited st ⊆ visited
    (st_of (catch (Rufus._extract_data_from_page B page prompt css_selector page_num) st1)))
    as Hst2.
  { unfold catch.
    destruct (Rufus._extract_data_from_page B page prompt css_selector page_num st1)
      as [[[a|e|] st2] t2]; simpl in *; set_solver. }
  set (st2 := st_of (catch _ st1)) in *.
  destruct r as [[]|[]]; [|total_auto..].
  apply total_at_bind; [apply total_do_call|]. intros links _.
  apply (total_for_each_inv (fun st' => visited st ⊆ visited st')).
  - intros link st' Hst'. eapply rufus_crawl_link_total; [|done]. done.
  - intros link st' Hst'.
    pose proof (rufus_crawl_link_sound B pages crawl timeout link Hsound st') as Hl.
    apply sound_visited_mono in Hl. set_solver.
  - by rewrite do_call_visited.
Qed.

Lemma rufus_crawl_total fuel page url css_selector prompt pages timeout st :
  (Z.to_nat (pages - Z.of_nat (size (visited st))) < fuel)%nat ->
  total_at (Rufus._crawl_links B max_retries fuel page url css_selector prompt
              pages timeout) st.
Proof.
  revert page url st. induction fuel as [|fuel IH]; intros page url st Hfuel; [lia|].
  simpl. unfold Rufus.crawl_body.
  apply total_at_bind; [done|]. simpl. intros v [= <-].
  destruct (_ || _) eqn:Hadm; [done|].
  apply orb_false_elim in Hadm as [Hlt Hnot].
  apply Z.leb_gt in Hlt. apply bool_decide_eq_false in Hnot.
  apply total_at_bind; [done|]. intros _ _.
  apply (rufus_crawl_visit_total pages).
  - intros p u. apply rufus_crawl_sound.
  - intros p u st' Hsub. apply IH.
    apply subseteq_size in Hsub. simpl in Hsub.
    rewrite size_union in Hsub by set_solver. rewrite size_singleton in Hsub. lia.
Qed.
End rufus_total.

Lemma rufus_scrape_total {World} (B : Browser World) max_retries lemmas
    url prompt css_selector pages timeout :
  total (Rufus.scrape B max_retries lemmas url prompt css_selector pages timeout).
Proof.
  assert (forall page st', visited st' = ∅ ->
            total_at (Rufus._crawl_links B max_retries (Rufus.enough_fuel pages) page url
                        css_selector prompt pages timeout) st') as Hcrawl.
  { intros page st' Hst'. apply rufus_crawl_total.
    rewrite Hst', size_empty. unfold Rufus.enough_fuel. lia. }
  intros st. unfold Rufus.scrape.
  revert Hcrawl. generalize (Rufus._crawl_links B max_retries (Rufus.enough_fuel pages)).
  intros crawl Hcrawl. total_auto. by apply Hcrawl.
Qed.

Section rag_total.
Context {World : Type} (B : Browser World) (max_retries : Z).

Lemma rag_navigate_total page url timeout :
  total (RufusRag._navigate_to_url B max_retries page url timeout).
Proof.
  unfold RufusRag._navigate_to_url.
  induction (range max_retries) as [|attempt attempts IH]; intros st; simpl.
  - done.
  - unfold RufusRag.navigate_attempt. total_auto; apply IH.
Qed.

Lemma rag_retry_total pages crawl page next_url timeout attempts (V : gset string) st :
  (forall p u, sound (crawl_rel pages) (crawl p u)) ->
  (forall p u st', V ⊆ visited st' -> total_at (crawl p u) st') ->
  V ⊆ visited st ->
  total_at (RufusRag.retry_loop B crawl page next_url timeout attempts) st.
Proof.
  intros Hsound Hcrawl. revert st.
  induction attempts as [|attempt attempts IH]; intros st HV; [done|].
  cbn [RufusRag.retry_loop].
  set (body := bind (do_call (CGoto page next_url timeout)
                       (page_goto World B page next_url timeout))
                 (fun _ => bind (do_call (CWaitForLoadState page)
                                   (page_wait_for_load_state World B page))
                             (fun _ => crawl page next_url))).
  assert (sound (crawl_rel pages) body) as Hbody by (unfold body; sound_auto pages; auto).
  apply total_at_bind.
  - apply total_at_catch. unfold body. total_auto.
    apply Hcrawl. by rewrite !do_call_visited.
  - intros r _.
    assert (V ⊆ visited (st_of (catch body st))) as HV1.
    { specialize (Hbody st). apply sound_visited_mono in Hbody.
      unfold catch. destruct (body st) as [[[a|e|] st1] t1]; simpl in *; set_solver. }
    destruct r as [[]|[]]; [done| |]; total_auto; by apply IH.
Qed.

Lemma rag_crawl_link_total pages crawl page timeout link (V : gset string) st :
  (forall p u, sound (crawl_rel pages) (crawl p u)) ->
  (forall p u st', V ⊆ visited st' -> total_at (crawl p u) st') ->
  V ⊆ visited st ->
  total_at (RufusRag.crawl_link B crawl page timeout link) st.
Proof.
  intros Hsound Hcrawl HV. unfold RufusRag.crawl_link.
  pose proof (rag_get_link_href_sound B pages link st) as Hhref.
  apply sound_visited_mono in Hhref.
  apply total_at_bind; [unfold RufusRag._get_link_href; total_auto|].
  intros next_url _. apply total_at_bind; [done|]. intros v _. simpl.
  destruct (link_wanted next_url v); [|done].
  eapply rag_retry_total; [done|done|set_solver].
Qed.

Lemma rag_crawl_visit_total pages crawl page url css_selector prompt timeout st :
  (forall p u, sound (crawl_rel pages) (crawl p u)) ->
  (forall p u st', visited st ⊆ visited st' -> total_at (crawl p u) st') ->
  total_at (RufusRag.crawl_visit B max_retries crawl page url css_selector prompt timeout) st.
Proof.
  intros Hsound Hcrawl. unfold RufusRag.crawl_visit.
  pose proof (rag_navigate_sound B max_retries pages page url timeout st) as Hnav.
  apply sound_visited_mono in Hnav.
  apply total_at_bind; [apply rag_navigate_total|]. intros _ _.
  set (st1 := st_of (RufusRag._navigate_to_url B max_retries page url timeout st)) in *.
  apply total_at_bind; [done|]. intros page_num _. simpl.
  pose proof (rag_extract_sound B pages page prompt css_selector page_num st1) as Hex.
  apply sound_visited_mono in Hex.
  apply total_at_bind; [apply total_at_catch, (rufus_extract_total B)|].
  intros r _.
  assert (visited st ⊆ visited
    (st_of (catch (RufusRag._extract_data_from_page B page prompt css_selector page_num) st1)))
    as Hst2.
  { unfold catch.
    destruct (RufusRag._extract_data_from_page B page prompt css_selector page_num st1)
      as [[[a|e|] st2] t2]; simpl in *; set_solver. }
  set (st2 := st_of (catch _ st1)) in *.
  apply total_at_bind; [destruct r as [[]|[]]; total_auto|].
  intros _ _.
  apply total_at_bind; [apply total_do_call|]. intros links _.
  apply (total_for_each_inv (fun st' => visited st ⊆ visited st')).
  - intros link st' Hst'. by eapply rag_crawl_link_total.
  - intros link st' Hst'.
    pose proof (rag_crawl_link_sound B pages crawl page timeout link Hsound st') as Hl.
    apply sound_visited_mono in Hl. set_solver.
  - rewrite do_call_visited. by destruct r as [[]|[]].
Qed.

Lemma rag_crawl_total fuel page url css_selector prompt pages timeout st :
  (Z.to_nat (pages - Z.of_nat (size (visited st))) < fuel)%nat ->
  total_at (RufusRag._crawl_links B max_retries fuel page url css_selector prompt
              pages timeout) st.
Proof.
  revert page url st. induction fuel as [|fuel IH]; intros page url st Hfuel; [lia|].
  simpl. unfold RufusRag.crawl_body.
  apply total_at_bind; [done|]. simpl. intros v [= <-].
  destruct (_ || _) eqn:Hadm; [done|].
  apply orb_false_elim in Hadm as [Hlt Hnot].
  apply Z.leb_gt in Hlt. apply bool_decide_eq_false in Hnot.
  apply total_at_bind; [done|]. intros _ _.
  apply (rag_crawl_visit_total pages).
  - intros p u. apply rag_crawl_sound.
  - intros p u st' Hsub. apply IH.
    apply subseteq_size in Hsub. simpl in Hsub.
    rewrite size_union in Hsub by set_solver. rewrite size_singleton in Hsub. lia.
Qed.

Lemma rag_scrape_total url prompt css_selector pages timeout :
  total (RufusRag.scrape B max_retries url prompt css_selector pages timeout).
Proof.
  assert (forall page st', visited st' = ∅ ->
            total_at (RufusRag._crawl_links B max_retries (RufusRag.enough_fuel pages)
                        page url css_selector prompt pages timeout) st') as Hcrawl.
  { intros page st' Hst'. apply rag_crawl_total.
    rewrite Hst', size_empty. unfold RufusRag.enough_fuel. lia. }
  intros st. unfold RufusRag.scrape.
  revert Hcrawl.
  generalize (RufusRag._crawl_links B max_retries (RufusRag.enough_fuel pages)).
  intros crawl Hcrawl. total_auto. by apply Hcrawl.
Qed.
End rag_total.

(** An address that is in the visited set already is turned away at the
    head of [_crawl_links]. *)
Lemma rufus_crawl_visited {World} (B : Browser World) max_retries fuel page
    url css_selector prompt pages timeout (st : state World) :
  url ∈ visited st ->
  Rufus._crawl_links B max_retries (S fuel) page url css_selector prompt pages timeout st
  = (Done tt, st, []).
Proof.
  intros Hin. simpl. unfold Rufus.crawl_body, bind, get_visited.
  by rewrite bool_decide_eq_true_2, orb_true_r.
Qed.

(** C8: the crawl of [rufus.py] terminates on every site, cyclic or not:
    a recursion depth above the part of the budget that is left is never
    exhausted, whatever the browser answers and whatever the pages link
    to; an address that is in the visited set already is turned away at
    once. *)
Theorem crawl_terminates {World} (B : Browser World) max_retries fuel page
    url css_selector prompt pages timeout (st : state World) :
  (Z.to_nat (pages - Z.of_nat (size (visited st))) < fuel)%nat ->
  let x := Rufus._crawl_links B max_retries fuel page url css_selector prompt
             pages timeout st in
  res_of x <> OutOfFuel
  /\ (url ∈ visited st -> x = (Done tt, st, [])).
Proof.
  intros Hfuel. split; [by apply rufus_crawl_total|].
  destruct fuel as [|fuel]; [lia|]. apply rufus_crawl_visited.
Qed.

Lemma crawl_terminates_witness :
  (Z.to_nat (3 - Z.of_nat (size (visited Sim.one_tab))) < 4)%nat
  /\ res_of (Rufus._crawl_links (Sim.browser Sim.loop_site) 3 4 0%nat
               "http://a" ".x" "p" 3 30000 Sim.one_tab) <> OutOfFuel.
Proof.
  assert (Z.to_nat (3 - Z.of_nat (size (visited Sim.one_tab))) < 4)%nat as Hfuel
    by (vm_compute; lia).
  split; [exact Hfuel|].
  exact (proj1 (crawl_terminates (Sim.browser Sim.loop_site) 3 4 0%nat
                  "http://a" ".x" "p" 3 30000 Sim.one_tab Hfuel)).
Defined.

(** ** The navigator *)

Lemma range_length n : length (range n) = Z.to_nat n.
Proof. unfold range. by rewrite length_map, length_seq. Qed.

Lemma goto_count_goto page url timeout tr :
  goto_count page url timeout (EvCall (CGoto page url timeout) :: tr)
  = S (goto_count page url timeout tr).
Proof. unfold goto_count. simpl. by rewrite bool_decide_eq_true_2. Qed.

Lemma goto_count_other page url timeout e tr :
  e <> EvCall (CGoto page url timeout) ->
  goto_count page url timeout (e :: tr) = goto_count page url timeout tr.
Proof. intros He. unfold goto_count. simpl. by rewrite bool_decide_eq_false_2. Qed.

Section navigator.
Context {World : Type} (B : Browser World) (max_retries : Z).

(** An attempt does one [goto] and no pause. *)
Lemma navigate_attempt_trace page url timeout st :
  let x := Rufus.navigate_attempt B page url timeout st in
  sleeps (tr_of x) = [] /\ goto_count page url timeout (tr_of x) = 1%nat.
Proof.
  unfold Rufus.navigate_attempt, bind, do_call.
  destruct (page_goto World B page url timeout (world st)) as [[[]|e1] w1]; simpl;
    [|by rewrite goto_count_goto].
  destruct (page_wait_for_load_state World B page w1) as [[[]|e2] w2]; simpl;
    [|by rewrite goto_count_goto, goto_count_other].
  destruct (page_evaluate World B page w2) as [[[]|e3] w3]; simpl;
    [|by rewrite goto_count_goto, !goto_count_other].
  destruct (page_wait_for_timeout World B page 3000 w3) as [[[]|e4] w4]; simpl;
    by rewrite goto_count_goto, !goto_count_other.
Qed.

Lemma rufus_navigate_loop_step page url timeout attempt attempts st :
  res_of (Rufus.navigate_attempt B page url timeout st) = Raised TimeoutError ->
  Rufus.navigate_loop B max_retries page url timeout (attempt :: attempts) st
  = match Rufus.navigate_loop B max_retries page url timeout attempts
            (st_of (Rufus.navigate_attempt B page url timeout st)) with
    | (r, st2, t2) =>
        (r, st2,
         tr_of (Rufus.navigate_attempt B page url timeout st)
         ++ EvLog ERROR (NavTimeout url (attempt + 1) max_retries)
            :: EvSleep (2 ^ attempt) :: t2)
    end.
Proof.
  intros Hres. cbn [Rufus.navigate_loop]. unfold bind, catch, log, sleep, emit.
  destruct (Rufus.navigate_attempt B page url timeout st) as [[r st1] t1].
  simpl in *. subst r.
  by destruct (Rufus.navigate_loop B max_retries page url timeout attempts st1)
    as [[r2 st2] t2].
Qed.

Lemma rufus_navigate_loop_timeouts page url timeout attempts st :
  times_out (Rufus.navigate_attempt B page url timeout) (length attempts) st ->
  res_of (Rufus.navigate_loop B max_retries page url timeout attempts st) = Done tt
  /\ sleeps (tr_of (Rufus.navigate_loop B max_retries page url timeout attempts st))
     = (fun attempt => 2 ^ attempt) <$> attempts
  /\ goto_count page url timeout
       (tr_of (Rufus.navigate_loop B max_retries page url timeout attempts st))
     = length attempts
  /\ last (tr_of (Rufus.navigate_loop B max_retries page url timeout attempts st))
     = Some (EvLog ERROR NavFailed).
Proof.
  revert st. induction attempts as [|attempt attempts IH]; intros st Hto; [done|].
  destruct Hto as [Hres Hto]. specialize (IH _ Hto).
  rewrite rufus_navigate_loop_step by done.
  pose proof (navigate_attempt_trace page url timeout st) as [Hs Hg].
  destruct (Rufus.navigate_loop B max_retries page url timeout attempts
              (st_of (Rufus.navigate_attempt B page url timeout st)))
    as [[r2 st2] t2].
  simpl in IH |- *. destruct IH as (-> & Hs2 & Hg2 & Hl2).
  rewrite sleeps_app, goto_count_app. simpl in Hs, Hg.
  change (RufusRag.navigate_attempt B page url timeout)
    with (Rufus.navigate_attempt B page url timeout).
  rewrite Hs, Hg. simpl.
  rewrite goto_count_other, goto_count_other by done.
  rewrite Hs2, Hg2. repeat split; try done.
  by rewrite last_app, last_cons, last_cons, Hl2.
Qed.

Lemma rag_navigate_loop_step page url timeout attempt attempts st :
  res_of (RufusRag.navigate_attempt B page url timeout st) = Raised TimeoutError ->
  RufusRag.navigate_loop B max_retries page url timeout (attempt :: attempts) st
  = match RufusRag.navigate_loop B max_retries page url timeout attempts
            (st_of (RufusRag.navigate_attempt B page url timeout st)) with
    | (r, st2, t2) =>
        (r, st2,
         tr_of (RufusRag.navigate_attempt B page url timeout st)
         ++ EvLog WARNING (NavTimeout url (attempt + 1) max_retries)
            :: EvSleep (2 ^ attempt) :: t2)
    end.
Proof.
  intros Hres. cbn [RufusRag.navigate_loop]. unfold bind, catch, log, sleep, emit.
  destruct (RufusRag.navigate_attempt B page url timeout st) as [[r st1] t1].
  simpl in *. subst r.
  by destruct (RufusRag.navigate_loop B max_retries page url timeout attempts st1)
    as [[r2 st2] t2].
Qed.

Lemma rag_navigate_loop_timeouts page url timeout attempts st :
  times_out (RufusRag.navigate_attempt B page url timeout) (length attempts) st ->
  res_of (RufusRag.navigate_loop B max_retries page url timeout attempts st) = Done tt
  /\ sleeps (tr_of (RufusRag.navigate_loop B max_retries page url timeout attempts st))
     = (fun attempt => 2 ^ attempt) <$> attempts
  /\ goto_count page url timeout
       (tr_of (RufusRag.navigate_loop B max_retries page url timeout attempts st))
     = length attempts
  /\ last (tr_of (RufusRag.navigate_loop B max_retries page url timeout attempts st))
     = Some (EvLog ERROR (NavFailedUrl url)).
Proof.
  revert st. induction attempts as [|attempt attempts IH]; intros st Hto; [done|].
  destruct Hto as [Hres Hto]. specialize (IH _ Hto).
  rewrite rag_navigate_loop_step by done.
  pose proof (navigate_attempt_trace page url timeout st) as [Hs Hg].
  destruct (RufusRag.navigate_loop B max_retries page url timeout attempts
              (st_of (RufusRag.navigate_attempt B page url timeout st)))
    as [[r2 st2] t2].
  simpl in IH |- *. destruct IH as (-> & Hs2 & Hg2 & Hl2).
  rewrite sleeps_app, goto_count_app. simpl in Hs, Hg.
  change (RufusRag.navigate_attempt B page url timeout)
    with (Rufus.navigate_attempt B page url timeout).
  rewrite Hs, Hg. simpl.
  rewrite goto_count_other, goto_count_other by done.
  rewrite Hs2, Hg2. repeat split; try done.
  by rewrite last_app, last_cons, last_cons, Hl2.
Qed.

(** An attempt does its [goto] and no pause; the pause comes after it. *)
Lemma navigate_attempt_pace page url timeout st :
  attempts_and_pauses (tr_of (Rufus.navigate_attempt B page url timeout st))
  = [EvCall (CGoto page url timeout)].
Proof.
  unfold Rufus.navigate_attempt, bind, do_call.
  destruct (page_goto World B page url timeout (world st)) as [[[]|e1] w1]; simpl;
    [|done].
  destruct (page_wait_for_load_state World B page w1) as [[[]|e2] w2]; simpl; [|done].
  destruct (page_evaluate World B page w2) as [[[]|e3] w3]; simpl; [|done].
  by destruct (page_wait_for_timeout World B page 3000 w3) as [[[]|e4] w4].
Qed.

Lemma rufus_navigate_loop_pace page url timeout attempts st :
  times_out (Rufus.navigate_attempt B page url timeout) (length attempts) st ->
  attempts_and_pauses
    (tr_of (Rufus.navigate_loop B max_retries page url timeout attempts st))
  = concat ((fun attempt => [EvCall (CGoto page url timeout); EvSleep (2 ^ attempt)])
              <$> attempts).
Proof.
  revert st. induction attempts as [|attempt attempts IH]; intros st Hto; [done|].
  destruct Hto as [Hres Hto]. specialize (IH _ Hto).
  rewrite rufus_navigate_loop_step by done.
  pose proof (navigate_attempt_pace page url timeout st) as Hp.
  destruct (Rufus.navigate_loop B max_retries page url timeout attempts
              (st_of (Rufus.navigate_attempt B page url timeout st)))
    as [[r2 st2] t2].
  simpl in IH |- *. unfold attempts_and_pauses in *.
  rewrite List.filter_app, Hp. simpl. by rewrite IH.
Qed.

Lemma rag_navigate_loop_pace page url timeout attempts st :
  times_out (RufusRag.navigate_attempt B page url timeout) (length attempts) st ->
  attempts_and_pauses
    (tr_of (RufusRag.navigate_loop B max_retries page url timeout attempts st))
  = concat ((fun attempt => [EvCall (CGoto page url timeout); EvSleep (2 ^ attempt)])
              <$> attempts).
Proof.
  revert st. induction attempts as [|attempt attempts IH]; intros st Hto; [done|].
  destruct Hto as [Hres Hto]. specialize (IH _ Hto).
  rewrite rag_navigate_loop_step by done.
  pose proof (navigate_attempt_pace page url timeout st) as Hp.
  destruct (RufusRag.navigate_loop B max_retries page url timeout attempts
              (st_of (RufusRag.navigate_attempt B page url timeout st)))
    as [[r2 st2] t2].
  simpl in IH |- *. unfold attempts_and_pauses in *.
  change (RufusRag.navigate_attempt B page url timeout)
    with (Rufus.navigate_attempt B page url timeout).
  rewrite List.filter_app, Hp. simpl. by rewrite IH.
Qed.

End navigator.

(** C7: when every attempt times out, [_navigate_to_url] (of either
    variant) tries the navigation exactly [max_retries] times and pauses
    [2 ^ attempt] seconds after attempt [attempt] and before the next
    one: its navigations and pauses are, in this order, the [goto] of
    attempt 0, a pause of 1 second, the [goto] of attempt 1, a pause of 2
    seconds, and so on (1, 2 and 4 seconds for the default of three
    attempts); it then gives up with its last diagnostic. *)
Theorem navigate_backoff {World} (B : Browser World) max_retries page url timeout
    (st : state World) :
  0 <= max_retries ->
  times_out (Rufus.navigate_attempt B page url timeout) (Z.to_nat max_retries) st ->
  let x := Rufus._navigate_to_url B max_retries page url timeout st in
  let y := RufusRag._navigate_to_url B max_retries page url timeout st in
  (res_of x = Done tt
   /\ sleeps (tr_of x) = (fun attempt => 2 ^ attempt) <$> range max_retries
   /\ Z.of_nat (goto_count page url timeout (tr_of x)) = max_retries
   /\ last (tr_of x) = Some (EvLog ERROR NavFailed)
   /\ attempts_and_pauses (tr_of x)
      = concat ((fun attempt => [EvCall (CGoto page url timeout); EvSleep (2 ^ attempt)])
                  <$> range max_retries))
  /\ (res_of y = Done tt
      /\ sleeps (tr_of y) = (fun attempt => 2 ^ attempt) <$> range max_retries
      /\ Z.of_nat (goto_count page url timeout (tr_of y)) = max_retries
      /\ last (tr_of y) = Some (EvLog ERROR (NavFailedUrl url))
      /\ attempts_and_pauses (tr_of y)
         = concat ((fun attempt => [EvCall (CGoto page url timeout); EvSleep (2 ^ attempt)])
                     <$> range max_retries))
  /\ (max_retries = 3 ->
      attempts_and_pauses (tr_of x)
      = [EvCall (CGoto page url timeout); EvSleep 1;
         EvCall (CGoto page url timeout); EvSleep 2;
         EvCall (CGoto page url timeout); EvSleep 4]
      /\ attempts_and_pauses (tr_of y) = attempts_and_pauses (tr_of x)
      /\ sleeps (tr_of x) = [1; 2; 4] /\ sleeps (tr_of y) = [1; 2; 4]).
Proof.
  intros Hpos Hto. rewrite <- range_length in Hto.
  pose proof (rufus_navigate_loop_timeouts B max_retries page url timeout _ st Hto)
    as (Hr & Hs & Hg & Hl).
  pose proof (rag_navigate_loop_timeouts B max_retries page url timeout _ st Hto)
    as (Hr' & Hs' & Hg' & Hl').
  pose proof (rufus_navigate_loop_pace B max_retries page url timeout _ st Hto) as Hp.
  pose proof (rag_navigate_loop_pace B max_retries page url timeout _ st Hto) as Hp'.
  cbv zeta. unfold Rufus._navigate_to_url, RufusRag._navigate_to_url.
  rewrite range_length in Hg, Hg'.
  split; [|split].
  - rewrite Hg. repeat split; try done. lia.
  - rewrite Hg'. repeat split; try done. lia.
  - intros ->. by rewrite Hs, Hs', Hp, Hp'.
Qed.

Lemma navigate_backoff_witness :
  let x := Rufus._navigate_to_url (Sim.browser Sim.dead_site) 3 0%nat "http://a" 30000
             Sim.one_tab in
  attempts_and_pauses (tr_of x)
  = [EvCall (CGoto 0%nat "http://a" 30000); EvSleep 1;
     EvCall (CGoto 0%nat "http://a" 30000); EvSleep 2;
     EvCall (CGoto 0%nat "http://a" 30000); EvSleep 4]
  /\ goto_count 0%nat "http://a" 30000 (tr_of x) = 3%nat.
Proof.
  assert (0 <= 3) as Hpos by lia.
  assert (times_out (Rufus.navigate_attempt (Sim.browser Sim.dead_site) 0%nat
                       "http://a" 30000) (Z.to_nat 3) Sim.one_tab) as Hto.
  { vm_compute. repeat split. }
  destruct (navigate_backoff (Sim.browser Sim.dead_site) 3 0%nat "http://a" 30000
              Sim.one_tab Hpos Hto) as ((_ & _ & Hg & _) & _ & H3).
  destruct (H3 eq_refl) as [Hp _].
  split; [exact Hp|]. apply Nat2Z.inj. exact Hg.
Defined.

(** ** Navigation and extraction leave the crawl state alone *)

Section quiet_facts.
Context {World : Type}.

Lemma quiet_nil (st : state World) : quiet st [] st.
Proof. by repeat split. Qed.

Lemma quiet_app (st : state World) t1 st1 t2 st2 :
  quiet st t1 st1 -> quiet st1 t2 st2 -> quiet st (t1 ++ t2) st2.
Proof.
  intros (Hv1 & Hd1 & Hf1) (Hv2 & Hd2 & Hf2).
  repeat split; [congruence|congruence|by apply Forall_app].
Qed.

Lemma quiet_do_call {A} c (op : World -> reply A * World) :
  discovery_event (EvCall c) = false -> sound quiet (do_call c op).
Proof.
  intros Hc st. unfold sound_at, do_call.
  destruct (op (world st)) as [[a|e] w]; repeat split; simpl; by repeat constructor.
Qed.

Lemma quiet_log lvl msg : sound (@quiet World) (log lvl msg).
Proof. intros st. repeat split. by repeat constructor. Qed.

Lemma quiet_sleep seconds : sound (@quiet World) (sleep seconds).
Proof. intros st. repeat split. by repeat constructor. Qed.
End quiet_facts.

Ltac quiet_step :=
  first
    [ apply (sound_bind _ quiet_app); [|intros ?]
    | apply sound_catch
    | apply (sound_ret _ quiet_nil)
    | apply (sound_raise _ quiet_nil)
    | apply (sound_len_visited _ quiet_nil)
    | apply quiet_do_call; reflexivity
    | apply quiet_log
    | apply quiet_sleep
    | assumption
    | match goal with
      | |- sound _ (match ?x with _ => _ end) => destruct x
      end ].

Section navigate_facts.
Context {World : Type} (B : Browser World) (max_retries : Z).

Lemma rufus_navigate_quiet page url timeout :
  sound quiet (Rufus._navigate_to_url B max_retries page url timeout).
Proof.
  unfold Rufus._navigate_to_url.
  induction (range max_retries) as [|attempt attempts IH]; simpl.
  - apply quiet_log.
  - unfold Rufus.navigate_attempt. repeat quiet_step.
Qed.

Lemma rag_navigate_quiet page url timeout :
  sound quiet (RufusRag._navigate_to_url B max_retries page url timeout).
Proof.
  unfold RufusRag._navigate_to_url.
  induction (range max_retries) as [|attempt attempts IH]; simpl.
  - apply quiet_log.
  - unfold RufusRag.navigate_attempt. repeat quiet_step.
Qed.

(** [_navigate_to_url] returns normally whatever happens: it has no way to
    tell its caller that the navigation failed. *)
Lemma rufus_navigate_returns page url timeout st :
  res_of (Rufus._navigate_to_url B max_retries page url timeout st) = Done tt.
Proof.
  unfold Rufus._navigate_to_url. revert st.
  induction (range max_retries) as [|attempt attempts IH]; intros st; [done|].
  assert (total_at (Rufus.navigate_attempt B page url timeout) st) as Ht
    by (unfold Rufus.navigate_attempt; total_auto).
  cbn [Rufus.navigate_loop]. unfold bind at 1. unfold catch.
  unfold total_at in Ht. revert Ht.
  destruct (Rufus.navigate_attempt B page url timeout st) as [[[[]|[]|] st1] t1];
    simpl; try done.
  intros _. unfold bind, log, sleep, emit. simpl. specialize (IH st1).
  by destruct (Rufus.navigate_loop B max_retries page url timeout attempts st1)
    as [[r2 st2] t2].
Qed.

Lemma rag_navigate_returns page url timeout st :
  res_of (RufusRag._navigate_to_url B max_retries page url timeout st) = Done tt.
Proof.
  unfold RufusRag._navigate_to_url. revert st.
  induction (range max_retries) as [|attempt attempts IH]; intros st; [done|].
  assert (total_at (RufusRag.navigate_attempt B page url timeout) st) as Ht
    by (unfold RufusRag.navigate_attempt; total_auto).
  cbn [RufusRag.navigate_loop]. unfold bind at 1. unfold catch.
  unfold total_at in Ht. revert Ht.
  destruct (RufusRag.navigate_attempt B page url timeout st) as [[[[]|[]|] st1] t1];
    simpl; try done.
  intros _. unfold bind, log, sleep, emit. simpl. specialize (IH st1).
  by destruct (RufusRag.navigate_loop B max_retries page url timeout attempts st1)
    as [[r2 st2] t2].
Qed.
End navigate_facts.

(** ** The extractor *)

Lemma bind_do_call_ok {World A C} c (op : World -> reply A * World)
    (f : A -> M World C) st a w :
  op (world st) = (Ok a, w) ->
  bind (do_call c op) f st
  = match f a (mk_state w (visited st) (all_data st)) with
    | (r, st2, t2) => (r, st2, EvCall c :: t2)
    end.
Proof. intros Hop. unfold bind, do_call. by rewrite Hop. Qed.

Lemma bind_do_call_fail {World A C} c (op : World -> reply A * World)
    (f : A -> M World C) st e w :
  op (world st) = (Fail e, w) ->
  bind (do_call c op) f st
  = (Raised e, mk_state w (visited st) (all_data st), [EvCall c]).
Proof. intros Hop. unfold bind, do_call. by rewrite Hop. Qed.

(** Runs a call whose reply [H] gives. *)
Ltac run_call op H :=
  first [ erewrite (bind_do_call_ok _ op) by (simpl; exact H)
        | erewrite (bind_do_call_fail _ op) by (simpl; exact H) ].

Section extract_facts.
Context {World : Type} (B : Browser World).

(** The record made from one element. *)
Local Abbreviation record_of prompt page_num :=
  (fun element => mk_record prompt page_num (Text.re_sub_ws (get_text_strip element))).

Lemma extract_loop_run prompt page_num elements (st : state World) :
  for_each elements (fun element =>
    bind (log INFO (Extracted (get_text_strip element))) (fun _ =>
      all_data_append (record_of prompt page_num element))) st
  = (Done tt,
     mk_state (world st) (visited st)
       (all_data st ++ (record_of prompt page_num <$> elements)),
     (fun element => EvLog INFO (Extracted (get_text_strip element))) <$> elements).
Proof.
  revert st. induction elements as [|element elements IH]; intros st.
  - simpl. unfold ret. rewrite app_nil_r. by destruct st.
  - cbn [for_each]. unfold bind at 1. unfold bind at 1.
    unfold log, emit, all_data_append. simpl.
    rewrite IH. simpl. by rewrite <- app_assoc.
Qed.

(** A successful extraction: one record for each matched element, in order. *)
Lemma rufus_extract_run page prompt css_selector page_num (st : state World)
    w1 content w2 elements :
  page_wait_for_selector _ B page css_selector 30000 (world st) = (Ok tt, w1) ->
  page_content _ B page w1 = (Ok content, w2) ->
  soup_select _ B content css_selector = Some elements ->
  Rufus._extract_data_from_page B page prompt css_selector page_num st
  = (Done tt,
     mk_state w2 (visited st) (all_data st ++ (record_of prompt page_num <$> elements)),
     EvCall (CWaitForSelector page css_selector 30000) :: EvCall (CContent page)
     :: ((fun element => EvLog INFO (Extracted (get_text_strip element))) <$> elements)).
Proof.
  intros Hw Hc Hs. unfold Rufus._extract_data_from_page.
  run_call (page_wait_for_selector _ B page css_selector 30000) Hw.
  run_call (page_content _ B page) Hc. simpl.
  rewrite Hs. by rewrite extract_loop_run.
Qed.

(** A failed extraction appended nothing and discovered nothing. *)
Lemma rufus_extract_raised page prompt css_selector page_num (st : state World) e :
  res_of (Rufus._extract_data_from_page B page prompt css_selector page_num st) = Raised e ->
  quiet st (tr_of (Rufus._extract_data_from_page B page prompt css_selector page_num st))
    (st_of (Rufus._extract_data_from_page B page prompt css_selector page_num st)).
Proof.
  unfold Rufus._extract_data_from_page.
  destruct (page_wait_for_selector World B page css_selector 30000 (world st))
    as [[[]|e1] w1] eqn:Hw.
  2:{ run_call (page_wait_for_selector _ B page css_selector 30000) Hw. simpl.
      intros _; repeat split; by repeat constructor. }
  run_call (page_wait_for_selector _ B page css_selector 30000) Hw.
  destruct (page_content World B page w1) as [[content|e2] w2] eqn:Hc.
  2:{ run_call (page_content _ B page) Hc. simpl.
      intros _; repeat split; by repeat constructor. }
  run_call (page_content _ B page) Hc. simpl.
  destruct (soup_select World B content css_selector) as [elements|]; simpl;
    [|intros _; repeat split; by repeat constructor].
  by rewrite extract_loop_run.
Qed.

Lemma rag_extract_eq page prompt css_selector page_num :
  RufusRag._extract_data_from_page B page prompt css_selector page_num
  = Rufus._extract_data_from_page B page prompt css_selector page_num.
Proof. reflexivity. Qed.

(** The extraction begins with the wait for the selector. *)
Lemma rufus_extract_begins page prompt css_selector page_num (st : state World) :
  exists tr,
    tr_of (Rufus._extract_data_from_page B page prompt css_selector page_num st)
    = EvCall (CWaitForSelector page css_selector 30000) :: tr.
Proof.
  unfold Rufus._extract_data_from_page.
  destruct (page_wait_for_selector World B page css_selector 30000 (world st))
    as [[[]|e1] w1] eqn:Hw.
  - run_call (page_wait_for_selector _ B page css_selector 30000) Hw.
    destruct (bind _ _ _) as [[r2 st2] t2]. by eexists.
  - run_call (page_wait_for_selector _ B page css_selector 30000) Hw. by eexists.
Qed.
End extract_facts.


(** ** One page of the crawl *)

Section page_facts.
Context {World : Type} (B : Browser World) (max_retries : Z).

Lemma rufus_crawl_body_passes crawl page url css_selector prompt pages timeout
    (st : state World) :
  passes_test st url pages ->
  Rufus.crawl_body B max_retries crawl page url css_selector prompt pages timeout st
  = match Rufus.crawl_visit B max_retries crawl page url css_selector prompt timeout
            (st_of (visited_add url st)) with
    | (r, st2, t2) => (r, st2, EvVisit url :: t2)
    end.
Proof.
  intros [Hlt Hnot]. unfold Rufus.crawl_body, bind, get_visited.
  rewrite (proj2 (Z.leb_gt _ _) Hlt), bool_decide_eq_false_2 by done. simpl.
  by destruct (Rufus.crawl_visit _ _ _ _ _ _ _ _ _) as [[r st2] t2].
Qed.

Lemma rag_crawl_body_passes crawl page url css_selector prompt pages timeout
    (st : state World) :
  passes_test st url pages ->
  RufusRag.crawl_body B max_retries crawl page url css_selector prompt pages timeout st
  = match RufusRag.crawl_visit B max_retries crawl page url css_selector prompt timeout
            (st_of (visited_add url st)) with
    | (r, st2, t2) => (r, st2, EvVisit url :: t2)
    end.
Proof.
  intros [Hlt Hnot]. unfold RufusRag.crawl_body, bind, get_visited.
  rewrite (proj2 (Z.leb_gt _ _) Hlt), bool_decide_eq_false_2 by done. simpl.
  by destruct (RufusRag.crawl_visit _ _ _ _ _ _ _ _ _) as [[r st2] t2].
Qed.

(** [rufus.py]: navigation, then extraction whatever the navigation gave,
    then the links only if the extraction succeeded. *)
Lemma rufus_crawl_visit_run crawl page url css_selector prompt timeout (st : state World) :
  let nav := Rufus._navigate_to_url B max_retries page url timeout st in
  let page_num := Z.of_nat (size (visited (st_of nav))) in
  let ex := Rufus._extract_data_from_page B page prompt css_selector page_num (st_of nav) in
  Rufus.crawl_visit B max_retries crawl page url css_selector prompt timeout st
  = match res_of ex with
    | Done _ =>
        match bind (do_call (CQuerySelectorAll page) (page_query_selector_all _ B page))
                (fun links => for_each links (Rufus.crawl_link B crawl timeout))
                (st_of ex) with
        | (r, st3, t3) => (r, st3, tr_of nav ++ tr_of ex ++ t3)
        end
    | Raised TimeoutError =>
        (Done tt, st_of ex,
         tr_of nav ++ tr_of ex
         ++ [EvLog ERROR (ExtractTimeout (Z.of_nat (size (visited (st_of ex)))))])
    | Raised OtherError =>
        (Done tt, st_of ex,
         tr_of nav ++ tr_of ex
         ++ [EvLog ERROR (ExtractError (Z.of_nat (size (visited (st_of ex)))))])
    | OutOfFuel => (OutOfFuel, st_of ex, tr_of nav ++ tr_of ex)
    end.
Proof.
  cbv zeta. unfold Rufus.crawl_visit.
  pose proof (rufus_navigate_returns B max_retries page url timeout st) as Hnav.
  unfold bind at 1.
  destruct (Rufus._navigate_to_url B max_retries page url timeout st) as [[r1 st1] t1].
  simpl in Hnav. subst r1. simpl.
  unfold bind at 1. unfold len_visited at 1. simpl.
  unfold bind at 1. unfold catch.
  destruct (Rufus._extract_data_from_page _ _ _ _ _ _) as [[[[]|[]|] st2] t2]; simpl.
  - destruct (bind _ _ st2) as [[r3 st3] t3]. by rewrite ?app_nil_l, ?app_nil_r.
  - unfold bind, len_visited, log, emit. simpl. by rewrite ?app_nil_l, ?app_nil_r.
  - unfold bind, len_visited, log, emit. simpl. by rewrite ?app_nil_l, ?app_nil_r.
  - by rewrite ?app_nil_l, ?app_nil_r.
Qed.

(** [rufus_rag.py]: the links are enumerated whatever the extraction gave. *)
Lemma rag_crawl_visit_run crawl page url css_selector prompt timeout (st : state World) :
  let nav := RufusRag._navigate_to_url B max_retries page url timeout st in
  let page_num := Z.of_nat (size (visited (st_of nav))) in
  let ex := RufusRag._extract_data_from_page B page prompt css_selector page_num (st_of nav) in
  exists log_, 
    (forall e, res_of ex = Raised e -> exists msg, log_ = [EvLog ERROR msg])
    /\ RufusRag.crawl_visit B max_retries crawl page url css_selector prompt timeout st
       = match bind (do_call (CQuerySelectorAll page) (page_query_selector_all _ B page))
                 (fun links => for_each links (RufusRag.crawl_link B crawl page timeout))
                 (st_of ex) with
         | (r, st3, t3) => (r, st3, tr_of nav ++ tr_of ex ++ log_ ++ t3)
         end.
Proof.
  cbv zeta. unfold RufusRag.crawl_visit.
  pose proof (rag_navigate_returns B max_retries page url timeout st) as Hnav.
  pose proof (rufus_extract_total B page prompt css_selector
                (Z.of_nat (size (visited (st_of
                  (RufusRag._navigate_to_url B max_retries page url timeout st)))))
                (st_of (RufusRag._navigate_to_url B max_retries page url timeout st)))
    as Hex.
  unfold total_at in Hex. rewrite <- rag_extract_eq in Hex. revert Hex.
  unfold bind at 1.
  destruct (RufusRag._navigate_to_url B max_retries page url timeout st) as [[r1 st1] t1].
  simpl in Hnav. subst r1. simpl.
  unfold bind at 1. unfold len_visited at 1. simpl.
  unfold bind at 1. unfold bind at 1. unfold catch.
  destruct (RufusRag._extract_data_from_page _ _ _ _ _ _) as [[[[]|[]|] st2] t2];
    simpl; intros Hex; [| | |done].
  - exists []. split; [done|]. unfold bind.
    destruct (do_call _ _ st2) as [[[links|e|] st3] t3]; simpl; [|done|done].
    by destruct (for_each links _ st3) as [[r4 st4] t4].
  - eexists. split; [by eexists|]. unfold bind, len_visited, log, emit. simpl.
    destruct (do_call _ _ st2) as [[[links|e|] st3] t3]; simpl; [|done|done].
    by destruct (for_each links _ st3) as [[r4 st4] t4].
  - eexists. split; [by eexists|]. unfold bind, len_visited, log, emit. simpl.
    destruct (do_call _ _ st2) as [[[links|e|] st3] t3]; simpl; [|done|done].
    by destruct (for_each links _ st3) as [[r4 st4] t4].
Qed.
End page_facts.

Lemma bind_do_call_begins {World A C} c (op : World -> reply A * World)
    (f : A -> M World C) st :
  exists tr, tr_of (bind (do_call c op) f st) = EvCall c :: tr.
Proof.
  unfold bind, do_call. destruct (op (world st)) as [[a|e] w]; simpl.
  - destruct (f a _) as [[r2 st2] t2]. by eexists.
  - by eexists.
Qed.

(** The link loop of a page keeps the records the crawl holds. *)
Lemma rufus_links_sound {World} (B : Browser World) pages crawl page timeout :
  (forall p u, sound (crawl_rel pages) (crawl p u)) ->
  sound (crawl_rel pages)
    (bind (do_call (CQuerySelectorAll page) (page_query_selector_all World B page))
       (fun links => for_each links (Rufus.crawl_link B crawl timeout))).
Proof.
  intros Hcrawl.
  pose proof (fun link => rufus_crawl_link_sound B pages crawl timeout link Hcrawl).
  sound_auto pages; auto.
Qed.

(** The page number of an address that passes the test. *)
Lemma page_num_after_add {World} (st : state World) url pages :
  passes_test st url pages ->
  Z.of_nat (size (visited (st_of (visited_add url st))))
  = Z.of_nat (size (visited st)) + 1.
Proof.
  intros [_ Hnot]. simpl.
  rewrite size_union by set_solver. rewrite size_singleton. lia.
Qed.

(** C1 (amended): for every address that passes the test of
    [_crawl_links], whether its navigation succeeds or fails:
    [_navigate_to_url] returns normally, the address is in the visited
    set, and the extraction is run on the page right after the
    navigation. When the wait for the selector, [page.content()] and
    [soup.select] succeed, the extraction returns and has appended one
    record for every matched element; when the extraction returns, these
    records stay in [all_data] and the anchors of the page are
    enumerated. *)
Theorem navigation_failure_goes_on {World} (B : Browser World) max_retries fuel
    page url css_selector prompt pages timeout (st : state World) :
  passes_test st url pages ->
  let x := Rufus._crawl_links B max_retries (S fuel) page url css_selector prompt
             pages timeout st in
  let nav := Rufus._navigate_to_url B max_retries page url timeout
               (st_of (visited_add url st)) in
  let page_num := Z.of_nat (size (visited st)) + 1 in
  let ex := Rufus._extract_data_from_page B page prompt css_selector page_num
              (st_of nav) in
  (forall st', res_of (Rufus._navigate_to_url B max_retries page url timeout st') = Done tt)
  /\ url ∈ visited (st_of x)
  /\ EvCall (CWaitForSelector page css_selector 30000) ∈ tr_of x
  /\ (exists rest, tr_of x = EvVisit url :: tr_of nav ++ tr_of ex ++ rest)
  /\ (forall w1 content w2 elements,
        page_wait_for_selector _ B page css_selector 30000 (world (st_of nav))
        = (Ok tt, w1) ->
        page_content _ B page w1 = (Ok content, w2) ->
        soup_select _ B content css_selector = Some elements ->
        res_of ex = Done tt
        /\ all_data (st_of ex)
           = all_data st
             ++ ((fun element =>
                    mk_record prompt page_num (Text.re_sub_ws (get_text_strip element)))
                   <$> elements))
  /\ (res_of ex = Done tt ->
      all_data (st_of ex) `prefix_of` all_data (st_of x)
      /\ EvCall (CQuerySelectorAll page) ∈ tr_of x).
Proof.
  intros Hpass. cbv zeta. split; [apply rufus_navigate_returns|].
  cbn [Rufus._crawl_links].
  rewrite rufus_crawl_body_passes by done.
  set (crawl := fun new_page next_url =>
         Rufus._crawl_links B max_retries fuel new_page next_url css_selector prompt
           pages timeout).
  pose proof (rufus_navigate_quiet B max_retries page url timeout
                (st_of (visited_add url st))) as (Hv1 & Hd1 & _).
  assert (Z.of_nat (size (visited (st_of
            (Rufus._navigate_to_url B max_retries page url timeout
               (st_of (visited_add url st))))))
          = Z.of_nat (size (visited st)) + 1) as Hnum.
  { rewrite Hv1. by apply (page_num_after_add st url pages). }
  rewrite rufus_crawl_visit_run. cbv zeta. rewrite Hnum.
  set (st0 := st_of (visited_add url st)) in *.
  set (nav := Rufus._navigate_to_url B max_retries page url timeout st0) in *.
  set (page_num := Z.of_nat (size (visited st)) + 1).
  set (ex := Rufus._extract_data_from_page B page prompt css_selector page_num (st_of nav)).
  pose proof (rufus_extract_sound B pages page prompt css_selector page_num (st_of nav))
    as Hex_sound.
  apply sound_visited_mono in Hex_sound. fold ex in Hex_sound.
  assert (url ∈ visited (st_of ex)) as Hurl.
  { apply Hex_sound. rewrite Hv1. unfold st0. simpl. set_solver. }
  destruct (rufus_extract_begins B page prompt css_selector page_num (st_of nav))
    as [tr Htr].
  fold ex in Htr.
  assert (forall w1 content w2 elements,
            page_wait_for_selector _ B page css_selector 30000 (world (st_of nav))
            = (Ok tt, w1) ->
            page_content _ B page w1 = (Ok content, w2) ->
            soup_select _ B content css_selector = Some elements ->
            res_of ex = Done tt
            /\ all_data (st_of ex)
               = all_data st
                 ++ ((fun element =>
                        mk_record prompt page_num
                          (Text.re_sub_ws (get_text_strip element))) <$> elements))
    as Hrecords.
  { intros w1 content w2 elements Hw Hc Hs. unfold ex.
    rewrite (rufus_extract_run B page prompt css_selector page_num (st_of nav)
               _ _ _ _ Hw Hc Hs).
    simpl. by rewrite Hd1. }
  pose proof (rufus_links_sound B pages crawl page timeout
                (fun p u => rufus_crawl_sound B max_retries pages fuel p u
                              css_selector prompt timeout) (st_of ex)) as Hlinks.
  destruct (bind_do_call_begins (CQuerySelectorAll page)
              (page_query_selector_all World B page)
              (fun links => for_each links (Rufus.crawl_link B crawl timeout))
              (st_of ex)) as [t4 Ht4].
  destruct (res_of ex) as [[]|e|] eqn:Hres.
  - destruct Hlinks as [Hv3 _ _ _ Hd3].
    destruct (bind _ _ (st_of ex)) as [[r3 st3] t3]. simpl in *. subst t3.
    split; [rewrite Hv3; set_solver|].
    split; [rewrite Htr; right; apply elem_of_app; right; left|].
    split; [by eexists|]. split; [done|]. intros _. split; [done|].
    right. apply elem_of_app. right. apply elem_of_app. right. left.
  - assert (forall msg,
              url ∈ visited (st_of ex)
              /\ EvCall (CWaitForSelector page css_selector 30000)
                 ∈ EvVisit url :: tr_of nav ++ tr_of ex ++ [EvLog ERROR msg]
              /\ (exists rest,
                    EvVisit url :: tr_of nav ++ tr_of ex ++ [EvLog ERROR msg]
                    = EvVisit url :: tr_of nav ++ tr_of ex ++ rest)) as Hcase.
    { intros msg. split; [done|]. split; [|by eexists].
      rewrite Htr. right. apply elem_of_app. right. left. }
    destruct e; simpl; (split; [done|]); (split; [apply Hcase|]);
      (split; [by eexists|]); by split.
  - simpl. split; [done|]. split.
    { rewrite Htr. right. apply elem_of_app. right. left. }
    split; [exists []; by rewrite app_nil_r|]. by split.
Qed.

Lemma elem_of_tr_bind {World A C} (m : M World A) (f : A -> M World C) st e :
  e ∈ tr_of (m st) -> e ∈ tr_of (bind m f st).
Proof.
  unfold bind. destruct (m st) as [[[a|e'|] st1] t1]; simpl; [|done|done].
  destruct (f a st1) as [[r2 st2] t2]. simpl. intros Hin.
  apply elem_of_app. by left.
Qed.

(** A link of [rufus_rag.py] whose [href] is wanted is navigated to on the
    page of the caller. *)
Lemma rag_crawl_link_goes {World} (B : Browser World) crawl page timeout link
    (st : state World) href w u :
  link_get_attribute _ B link (world st) = (Ok href, w) ->
  link_wanted href (visited st) = Some u ->
  exists tr,
    tr_of (RufusRag.crawl_link B crawl page timeout link st)
    = EvCall (CGetAttribute link) :: EvCall (CGoto page u timeout) :: tr.
Proof.
  intros Hget Hwanted.
  unfold RufusRag.crawl_link, RufusRag._get_link_href.
  unfold bind at 1. unfold bind at 1. unfold catch. unfold do_call at 1.
  rewrite Hget. cbn [world visited all_data]. unfold ret at 1.
  unfold bind at 1. unfold get_visited. cbn [visited]. rewrite Hwanted.
  unfold RufusRag._retry_navigation.
  change (range 3) with [0; 1; 2]. cbn [RufusRag.retry_loop].
  unfold bind at 1. unfold catch.
  match goal with
  | |- context [bind (do_call ?c ?op) ?f ?s] =>
      destruct (bind_do_call_begins c op f s) as [t1 Ht1];
      destruct (bind (do_call c op) f s) as [[[[]|[]|] st1] t1']
  end; simpl in Ht1; subst t1'.
  all: match goal with
       | |- context [let (_, _) := ?m ?s in _] =>
           destruct (m s) as [[r2 st2] t2]
       | |- _ => idtac
       end; simpl; by eexists.
Qed.

(** C6 (amended): when the extraction on an address that passed the test
    raises, [_crawl_links] of [rufus.py] returns normally to its caller,
    the page has added no record, only its own address has been added to
    the visited set, and no anchor was enumerated, no [href] read and no
    tab opened from it. In [rufus_rag.py] the page has added no record
    either, but the call goes on: what is left of it is the enumeration
    of the anchors and the loop over the links, run from a state that
    holds the records of before; the anchors are enumerated, and a first
    link whose [href] is wanted is navigated to. *)
Theorem extraction_failure_local {World} (B : Browser World) max_retries fuel
    page url css_selector prompt pages timeout (st : state World) :
  passes_test st url pages ->
  let x := Rufus._crawl_links B max_retries (S fuel) page url css_selector prompt
             pages timeout st in
  let y := RufusRag._crawl_links B max_retries (S fuel) page url css_selector prompt
             pages timeout st in
  (rufus_extraction_fails B max_retries page url prompt css_selector timeout st ->
   res_of x = Done tt
   /\ all_data (st_of x) = all_data st
   /\ visited (st_of x) = {[url]} ∪ visited st
   /\ exists tr, tr_of x = EvVisit url :: tr
                 /\ Forall (fun e => discovery_event e = false) tr)
  /\ (rag_extraction_fails B max_retries page url prompt css_selector timeout st ->
      let nav := RufusRag._navigate_to_url B max_retries page url timeout
                   (st_of (visited_add url st)) in
      let ex := RufusRag._extract_data_from_page B page prompt css_selector
                  (Z.of_nat (size (visited (st_of nav)))) (st_of nav) in
      let rest := rag_link_loop B max_retries fuel page css_selector prompt pages
                    timeout (st_of ex) in
      all_data (st_of ex) = all_data st
      /\ visited (st_of ex) = {[url]} ∪ visited st
      /\ res_of y = res_of rest
      /\ st_of y = st_of rest
      /\ (exists pre, tr_of y = EvVisit url :: pre ++ tr_of rest
                      /\ Forall (fun e => discovery_event e = false) pre)
      /\ EvCall (CQuerySelectorAll page) ∈ tr_of y
      /\ (forall link links w href w' u,
            page_query_selector_all _ B page (world (st_of ex)) = (Ok (link :: links), w) ->
            link_get_attribute _ B link w = (Ok href, w') ->
            link_wanted href ({[url]} ∪ visited st) = Some u ->
            EvCall (CGoto page u timeout) ∈ tr_of y)).
Proof.
  intros Hpass. cbv zeta. split.
  - intros [e Hfail]. cbn [Rufus._crawl_links].
    rewrite rufus_crawl_body_passes by done.
    set (crawl := fun new_page next_url =>
           Rufus._crawl_links B max_retries fuel new_page next_url css_selector prompt
             pages timeout).
    set (st0 := st_of (visited_add url st)) in *.
    rewrite rufus_crawl_visit_run. cbv zeta.
    pose proof (rufus_navigate_quiet B max_retries page url timeout st0)
      as (Hv1 & Hd1 & Hf1).
    apply rufus_extract_raised in Hfail as Hq. destruct Hq as (Hv2 & Hd2 & Hf2).
    rewrite Hfail.
    assert (forall msg,
      Forall (fun e => discovery_event e = false)
        (tr_of (Rufus._navigate_to_url B max_retries page url timeout st0)
         ++ tr_of (Rufus._extract_data_from_page B page prompt css_selector
                     (Z.of_nat (size (visited (st_of
                        (Rufus._navigate_to_url B max_retries page url timeout st0)))))
                     (st_of (Rufus._navigate_to_url B max_retries page url timeout st0)))
         ++ [EvLog ERROR msg])) as Hquiet.
    { intros msg. apply Forall_app. split; [done|].
      apply Forall_app. split; [done|]. by repeat constructor. }
    destruct e; simpl.
    all: split; [done|]; split; [by rewrite Hd2, Hd1|].
    all: split; [by rewrite Hv2, Hv1|]; eexists; split; [done|]; apply Hquiet.
  - intros [e Hfail]. cbn [RufusRag._crawl_links].
    rewrite rag_crawl_body_passes by done.
    set (crawl := fun page next_url =>
           RufusRag._crawl_links B max_retries fuel page next_url css_selector prompt
             pages timeout).
    set (st0 := st_of (visited_add url st)) in *.
    destruct (rag_crawl_visit_run B max_retries crawl page url css_selector prompt
                timeout st0) as (log_ & Hlog & ->).
    cbv zeta in Hlog. destruct (Hlog e Hfail) as [msg ->].
    pose proof (rag_navigate_quiet B max_retries page url timeout st0)
      as (Hv1 & Hd1 & Hf1).
    rewrite rag_extract_eq in Hfail.
    apply rufus_extract_raised in Hfail as Hq. destruct Hq as (Hv2 & Hd2 & Hf2).
    rewrite rag_extract_eq.
    set (nav := RufusRag._navigate_to_url B max_retries page url timeout st0) in *.
    set (ex := Rufus._extract_data_from_page B page prompt css_selector
                 (Z.of_nat (size (visited (st_of nav)))) (st_of nav)) in *.
    change (bind (do_call (CQuerySelectorAll page) (page_query_selector_all World B page))
              (fun links => for_each links (RufusRag.crawl_link B crawl page timeout)))
      with (rag_link_loop B max_retries fuel page css_selector prompt pages timeout).
    assert (visited (st_of ex) = {[url]} ∪ visited st) as Hvisited
      by (by rewrite Hv2, Hv1).
    assert (EvCall (CQuerySelectorAll page)
            ∈ tr_of (rag_link_loop B max_retries fuel page css_selector prompt pages
                       timeout (st_of ex))) as Hqsa.
    { destruct (bind_do_call_begins (CQuerySelectorAll page)
                  (page_query_selector_all World B page)
                  (fun links => for_each links (RufusRag.crawl_link B crawl page timeout))
                  (st_of ex)) as [t4 Ht4].
      unfold rag_link_loop. fold crawl. rewrite Ht4. left. }
    assert (forall link links w href w' u,
              page_query_selector_all _ B page (world (st_of ex)) = (Ok (link :: links), w) ->
              link_get_attribute _ B link w = (Ok href, w') ->
              link_wanted href ({[url]} ∪ visited st) = Some u ->
              EvCall (CGoto page u timeout)
              ∈ tr_of (rag_link_loop B max_retries fuel page css_selector prompt pages
                         timeout (st_of ex))) as Hgoto.
    { intros link links w href w' u Hq Hget Hwanted.
      unfold rag_link_loop. fold crawl.
      rewrite (bind_do_call_ok _ _ _ _ _ _ Hq). cbn [for_each].
      set (st4 := mk_state w (visited (st_of ex)) (all_data (st_of ex))).
      destruct (rag_crawl_link_goes B crawl page timeout link st4 href w' u)
        as [tr Htr]; [done|by rewrite <- Hvisited in Hwanted|].
      assert (EvCall (CGoto page u timeout)
              ∈ tr_of (bind (RufusRag.crawl_link B crawl page timeout link)
                         (fun _ => for_each links
                                     (RufusRag.crawl_link B crawl page timeout)) st4))
        as Hin.
      { apply elem_of_tr_bind. rewrite Htr. right. left. }
      destruct (bind _ _ st4) as [[r5 st5] t5]. simpl in *. by right. }
    destruct (rag_link_loop B max_retries fuel page css_selector prompt pages timeout
                (st_of ex)) as [[r3 st3] t3].
    simpl in *.
    split; [by rewrite Hd2, Hd1|]. split; [done|]. split; [done|]. split; [done|].
    split.
    { exists (tr_of nav ++ tr_of ex ++ [EvLog ERROR msg]).
      split; [by rewrite <- !app_assoc|].
      apply Forall_app. split; [done|]. apply Forall_app. split; [done|].
      by repeat constructor. }
    assert (forall e0, e0 ∈ t3 ->
              e0 ∈ EvVisit url :: tr_of nav ++ tr_of ex ++ [EvLog ERROR msg] ++ t3)
      as Hin.
    { intros e0 He0. right. apply elem_of_app. right. apply elem_of_app. right.
      apply elem_of_app. by right. }
    split; [by apply Hin|].
    intros link links w href w' u Hq Hget Hwanted. apply Hin. by eapply Hgoto.
Qed.

(** ** More on the relevance filter *)

Section filter_more.
Variable lemmas : string -> list string.
Local Abbreviation relevant := (fun r => Rufus_filter._is_relevant lemmas (key r) keywords).

Lemma kept_sublist data seen : kept lemmas data seen `sublist_of` data.
Proof.
  revert seen. induction data as [|item data IH]; intros seen; simpl.
  - constructor.
  - case_match; [by apply sublist_skip|by apply sublist_cons].
Qed.

Lemma kept_first l1 r l2 seen :
  relevant r = true -> key r ∉ seen ->
  (forall r', r' ∈ l1 -> key r' <> key r) ->
  r ∈ kept lemmas (l1 ++ r :: l2) seen.
Proof.
  revert seen. induction l1 as [|a l1 IH]; intros seen Hrel Hseen Hfirst; simpl.
  - fold (key r). rewrite Hrel, bool_decide_eq_false_2 by done. simpl. left.
  - case_match.
    + right. apply IH; [done| |].
      * apply not_elem_of_union. split; [|done].
        intros Heq%elem_of_singleton. apply (Hfirst a); [left|done].
      * intros r' Hr'. apply Hfirst. by right.
    + apply IH; [done|done|]. intros r' Hr'. apply Hfirst. by right.
Qed.

Lemma kept_covers data seen r :
  r ∈ data -> relevant r = true ->
  key r ∈ seen \/ key r ∈ (key <$> kept lemmas data seen).
Proof.
  revert seen. induction data as [|a data IH]; intros seen Hin Hrel.
  - by apply elem_of_nil in Hin.
  - simpl. fold (key a). apply elem_of_cons in Hin as [->|Hin].
    + rewrite Hrel. destruct (decide (key a ∈ seen)) as [Hs|Hs]; [by left|].
      rewrite bool_decide_eq_false_2 by done. simpl. right. left.
    + case_match.
      * destruct (IH ({[key a]} ∪ seen) Hin Hrel) as [Hs|Hk].
        -- apply elem_of_union in Hs as [->%elem_of_singleton|Hs]; [|by left].
           right. left.
        -- right. by right.
      * by apply IH.
Qed.

Lemma kept_app d1 d2 seen :
  kept lemmas (d1 ++ d2) seen
  = kept lemmas d1 seen
    ++ kept lemmas d2 (seen ∪ list_to_set (key <$> kept lemmas d1 seen)).
Proof.
  revert seen. induction d1 as [|a d1 IH]; intros seen; simpl.
  - by rewrite union_empty_r_L.
  - destruct (Rufus_filter._is_relevant lemmas (Text.lower (content a)) keywords
              && negb (bool_decide (Text.lower (content a) ∈ seen)));
      rewrite IH; simpl; [|done].
    do 2 f_equal. unfold key at 2.
    change (list_fmap record string key) with (fmap (M := list) key).
    generalize (list_to_set (C := gset string)
                  (key <$> kept lemmas d1 ({[Text.lower (content a)]} ∪ seen))).
    intros X. f_equal. set_solver.
Qed.
End filter_more.

(** The output of [filter_data] of [rufus.py] grows with its input: the
    filter of a list is a prefix of the filter of the list with more
    records appended. *)
Lemma filter_data_prefix lemmas (data new : list record) :
  Rufus_filter.filter_data lemmas data
  `prefix_of` Rufus_filter.filter_data lemmas (data ++ new).
Proof. rewrite !filter_data_kept, kept_app. by eexists. Qed.

(** ** The accumulator across calls of [scrape] *)

Lemma bind_Done_inv {World A C} (m : M World A) (f : A -> M World C) st c :
  res_of (bind m f st) = Done c ->
  exists a, res_of (m st) = Done a
            /\ res_of (f a (st_of (m st))) = Done c
            /\ st_of (bind m f st) = st_of (f a (st_of (m st))).
Proof.
  unfold bind. destruct (m st) as [[[a|e|] st1] t1]; simpl; [|done|done].
  destruct (f a st1) as [[r2 st2] t2] eqn:Hf. simpl. intros ->.
  exists a. by rewrite Hf.
Qed.

Lemma try_finally_Done_inv {World A} (m : M World A) fin st a :
  res_of (try_finally m fin st) = Done a ->
  res_of (m st) = Done a
  /\ st_of (try_finally m fin st) = st_of (fin (st_of (m st))).
Proof.
  unfold try_finally. destruct (m st) as [[[a'|e|] st1] t1]; simpl; [| |done].
  - by destruct (fin st1) as [[[[]|e'|] st2] t2]; simpl; [intros [= ->]|..].
  - by destruct (fin st1) as [[[[]|e'|] st2] t2].
Qed.

(** C2 (amended): the accumulator [all_data] belongs to the client, not to
    the call: a call of [scrape] that returns has appended its records to
    the records the client held already, and returns the filter of them
    all. The result therefore begins with the filter of the records held
    before the call, and every relevant record held before the call has
    its lowercased content in the result; on a client that holds none the
    result is the filter of the records of this call only. *)
Theorem scrape_filters_all_data {World} (B : Browser World) max_retries lemmas
    url prompt css_selector pages timeout (st : state World) out :
  res_of (Rufus.scrape B max_retries lemmas url prompt css_selector pages timeout st)
  = Done out ->
  exists new,
    all_data (st_of (Rufus.scrape B max_retries lemmas url prompt css_selector
                       pages timeout st)) = all_data st ++ new
    /\ out = Rufus_filter.filter_data lemmas (all_data st ++ new)
    /\ Rufus_filter.filter_data lemmas (all_data st) `prefix_of` out
    /\ (forall r, r ∈ all_data st ->
          Rufus_filter._is_relevant lemmas (Text.lower (content r)) keywords = true ->
          key r ∈ (key <$> out))
    /\ (all_data st = [] -> out = Rufus_filter.filter_data lemmas new).
Proof.
  intros Hdone. unfold Rufus.scrape in *.
  apply bind_Done_inv in Hdone as (_ & _ & Hdone & ->).
  set (st1 := st_of (do_call CEnter (playwright_enter World B) st)) in *.
  apply try_finally_Done_inv in Hdone as (Hdone & ->).
  rewrite do_call_all_data.
  apply bind_Done_inv in Hdone as (_ & _ & Hdone & ->).
  set (st2 := st_of (do_call CLaunch (launch World B) st1)) in *.
  apply bind_Done_inv in Hdone as (_ & _ & Hdone & ->).
  set (st3 := st_of (do_call CNewContext (new_context World B) st2)) in *.
  apply bind_Done_inv in Hdone as (page & _ & Hdone & ->).
  set (st4 := st_of (do_call CNewPage (new_page World B) st3)) in *.
  apply bind_Done_inv in Hdone as (_ & _ & Hdone & ->).
  set (st5 := st_of (new_visited st4)) in *.
  apply bind_Done_inv in Hdone as (u & Hcrawl & Hdone & ->).
  apply try_finally_Done_inv in Hcrawl as (_ & Hst6).
  set (st6 := st_of (try_finally _ _ st5)) in *.
  simpl in Hdone. injection Hdone as <-. simpl.
  pose proof (rufus_crawl_sound B max_retries pages (Rufus.enough_fuel pages) page url
                css_selector prompt timeout st5) as [_ _ _ _ [new Hnew]].
  assert (all_data st6 = all_data st ++ new) as Hall.
  { rewrite Hst6, do_call_all_data, Hnew. subst st5 st4 st3 st2 st1. simpl.
    by rewrite !do_call_all_data. }
  exists new. rewrite Hall. split; [done|]. split; [done|].
  split; [apply filter_data_prefix|]. split; [|by intros ->].
  intros r Hin Hrel. rewrite filter_data_kept.
  destruct (kept_covers lemmas (all_data st ++ new) ∅ r) as [Hs|Hk]; [|done| |done].
  - apply elem_of_app. by left.
  - by apply elem_of_empty in Hs.
Qed.

(** ** The claims on the simulated sites *)

(** Decides a closed statement by evaluation. *)
Ltac by_eval := apply (bool_decide_unpack _); vm_compute; exact I.

(** C1 as stated fails: on a page whose network never goes idle every
    attempt of the navigation times out and the navigator gives up, yet
    the page is extracted from, adds a record, and has its anchors
    enumerated. *)
Lemma failed_navigation_still_extracts :
  let x := Rufus.scrape (Sim.browser Sim.busy_site) 3 Toy.lemmas
             "http://a" "p" ".x" 1 30000 Sim.start in
  sleeps (tr_of x) = [1; 2; 4]
  /\ EvLog ERROR NavFailed ∈ tr_of x
  /\ EvCall (CWaitForSelector 0%nat ".x" 30000) ∈ tr_of x
  /\ EvCall (CQuerySelectorAll 0%nat) ∈ tr_of x
  /\ all_data (st_of x) = [mk_record "p" 1 "We have a job opening"]
  /\ res_of x = Done [mk_record "p" 1 "We have a job opening"].
Proof.
  cbv zeta. split; [by vm_compute|]. split; [by_eval|]. split; [by_eval|].
  split; [by_eval|]. split; by vm_compute.
Qed.

Lemma navigation_failure_goes_on_witness :
  let x := Rufus._crawl_links (Sim.browser Sim.busy_site) 3 1 0%nat
             "http://a" ".x" "p" 1 30000 Sim.one_tab in
  "http://a" ∈ visited (st_of x)
  /\ EvCall (CWaitForSelector 0%nat ".x" 30000) ∈ tr_of x
  /\ EvCall (CQuerySelectorAll 0%nat) ∈ tr_of x.
Proof.
  assert (passes_test Sim.one_tab "http://a" 1) as Hpass.
  { split; [by vm_compute|]. simpl. apply not_elem_of_empty. }
  destruct (navigation_failure_goes_on (Sim.browser Sim.busy_site) 3 0 0%nat
              "http://a" ".x" "p" 1 30000 Sim.one_tab Hpass)
    as (_ & Hvisited & Hwait & _ & _ & Hlinks).
  split; [exact Hvisited|]. split; [exact Hwait|].
  apply Hlinks. by vm_compute.
Defined.

(** C2 as stated fails: the second call of [scrape] on a client returns the
    record of the first call as well. *)
Lemma second_scrape_returns_first :
  let first := Rufus.scrape (Sim.browser Sim.two_sites) 3 Toy.lemmas
                 "http://a" "first" ".x" 1 30000 Sim.start in
  let second := Rufus.scrape (Sim.browser Sim.two_sites) 3 Toy.lemmas
                  "http://b" "second" ".x" 1 30000 (st_of first) in
  res_of first = Done [mk_record "first" 1 "We have a job opening"]
  /\ res_of second = Done [mk_record "first" 1 "We have a job opening";
                           mk_record "second" 1 "Career fair"].
Proof. cbv zeta. split; by vm_compute. Qed.

Lemma scrape_filters_all_data_witness :
  let first := Rufus.scrape (Sim.browser Sim.two_sites) 3 Toy.lemmas
                 "http://a" "first" ".x" 1 30000 Sim.start in
  let x := Rufus.scrape (Sim.browser Sim.two_sites) 3 Toy.lemmas
             "http://b" "second" ".x" 1 30000 (st_of first) in
  exists new,
    all_data (st_of x) = all_data (st_of first) ++ new
    /\ Rufus_filter.filter_data Toy.lemmas (all_data (st_of first))
       `prefix_of` [mk_record "first" 1 "We have a job opening";
                    mk_record "second" 1 "Career fair"].
Proof.
  cbv zeta.
  destruct (scrape_filters_all_data (Sim.browser Sim.two_sites) 3 Toy.lemmas
              "http://b" "second" ".x" 1 30000
              (st_of (Rufus.scrape (Sim.browser Sim.two_sites) 3 Toy.lemmas
                        "http://a" "first" ".x" 1 30000 Sim.start))
              [mk_record "first" 1 "We have a job opening";
               mk_record "second" 1 "Career fair"])
    as (new & Hall & _ & Hprefix & _); [by vm_compute|].
  exists new. by split.
Defined.

(** C3 as stated fails, in both variants: with a budget of one page the
    link found on the seed is navigated to although the budget is used up;
    the test of the budget comes after this [goto] and rejects the
    address, which is never added to the visited set. *)
Lemma goto_before_budget_test :
  let x := Rufus.scrape (Sim.browser Sim.linked_site) 3 Toy.lemmas
             "http://a" "p" ".x" 1 30000 Sim.start in
  let y := RufusRag.scrape (Sim.browser Sim.linked_site) 3
             "http://a" "p" ".x" 1 30000 Sim.start in
  (EvCall (CGoto 1%nat "http://b" 30000) ∈ tr_of x
   /\ visits (tr_of x) = ["http://a"]
   /\ "http://b" ∉ visited (st_of x))
  /\ (EvCall (CGoto 0%nat "http://b" 30000) ∈ tr_of y
      /\ visits (tr_of y) = ["http://a"]
      /\ "http://b" ∉ visited (st_of y)).
Proof.
  cbv zeta. split; (split; [by_eval|]); (split; [by vm_compute|]); by_eval.
Qed.

Lemma visited_within_budget_witness :
  let tr := tr_of (Rufus._crawl_links (Sim.browser Sim.linked_site) 3 3 0%nat
                     "http://a" ".x" "p" 2 30000 Sim.one_tab) in
  NoDup (visits tr) /\ Z.of_nat (size (visited_at Sim.one_tab tr)) <= 2.
Proof.
  cbv zeta.
  assert (Z.of_nat (size (visited Sim.one_tab)) <= 2) as Hle by (by vm_compute).
  destruct (visited_within_budget (Sim.browser Sim.linked_site) 3 3 0%nat
              "http://a" ".x" "p" 2 30000 Sim.one_tab _ [] Hle
              (or_introl (eq_sym (app_nil_r _)))) as (Hnd & _ & Hb & _).
  by split.
Defined.

(** C6 as stated fails on [rufus_rag.py]: the selector never matches on
    the seed, the failure is logged, and the crawl still enumerates the
    anchors of the seed, descends to the linked page and takes its
    record. *)
Lemma rag_extraction_failure_descends :
  let y := RufusRag.scrape (Sim.browser Sim.unmatched_site) 3
             "http://a" "p" ".x" 2 30000 Sim.start in
  EvLog ERROR (ExtractTimeout 1) ∈ tr_of y
  /\ EvCall (CQuerySelectorAll 0%nat) ∈ tr_of y
  /\ visits (tr_of y) = ["http://a"; "http://b"]
  /\ res_of y = Done [mk_record "p" 2 "Internship"].
Proof.
  cbv zeta. split; [by_eval|]. split; [by_eval|]. split; by vm_compute.
Qed.

Lemma extraction_failure_local_witness :
  let x := Rufus._crawl_links (Sim.browser Sim.unmatched_site) 3 1 0%nat
             "http://a" ".x" "p" 2 30000 Sim.one_tab in
  let y := RufusRag._crawl_links (Sim.browser Sim.unmatched_site) 3 1 0%nat
             "http://a" ".x" "p" 2 30000 Sim.one_tab in
  (res_of x = Done tt /\ all_data (st_of x) = [])
  /\ EvCall (CQuerySelectorAll 0%nat) ∈ tr_of y
  /\ EvCall (CGoto 0%nat "http://b" 30000) ∈ tr_of y.
Proof.
  assert (passes_test Sim.one_tab "http://a" 2) as Hpass.
  { split; [by vm_compute|]. simpl. apply not_elem_of_empty. }
  destruct (extraction_failure_local (Sim.browser Sim.unmatched_site) 3 0 0%nat
              "http://a" ".x" "p" 2 30000 Sim.one_tab Hpass) as [Hx Hy].
  split.
  - destruct Hx as (Hr & Hd & _); [by exists TimeoutError; vm_compute|]. by split.
  - destruct Hy as (_ & _ & _ & _ & _ & Hanchors & Hgoto);
      [by exists TimeoutError; vm_compute|].
    split; [exact Hanchors|].
    apply (Hgoto 0%nat [] (Sim.mk_world ["http://a"] [Some "http://b"])
             (Some "http://b") (Sim.mk_world ["http://a"] [Some "http://b"])
             "http://b"); by vm_compute.
Defined.



(** ** The selection made by the relevance filter *)

(** X1: [filter_data] of [rufus.py] is a stable selection: its output is a
    sublist of its input, the records in their input order. *)
Theorem filter_data_sublist lemmas (data : list record) :
  Rufus_filter.filter_data lemmas data `sublist_of` data.
Proof. rewrite filter_data_kept. apply kept_sublist. Qed.

(** X2: [filter_data] of [rufus.py] loses no relevant content: the
    lowercased content of every relevant input record is the lowercased
    content of some output record, and the record kept for it is the first
    input record that has it. *)
Theorem filter_data_keeps_first lemmas (data : list record) (r : record) :
  r ∈ data ->
  Rufus_filter._is_relevant lemmas (Text.lower (content r)) keywords = true ->
  key r ∈ (key <$> Rufus_filter.filter_data lemmas data)
  /\ (forall l1 l2, data = l1 ++ r :: l2 ->
        (forall r', r' ∈ l1 -> key r' <> key r) ->
        r ∈ Rufus_filter.filter_data lemmas data).
Proof.
  intros Hin Hrel. rewrite filter_data_kept. split.
  - destruct (kept_covers lemmas data ∅ r Hin Hrel) as [Hs|Hk]; [|done].
    by apply elem_of_empty in Hs.
  - intros l1 l2 -> Hfirst. apply kept_first; [done| |done].
    apply not_elem_of_empty.
Qed.

Lemma filter_data_keeps_first_witness :
  let data := [mk_record "p" 1 "Contact us"; mk_record "p" 1 "Job offer";
               mk_record "p" 2 "JOB OFFER"] in
  key (mk_record "p" 2 "JOB OFFER") ∈ (key <$> Rufus_filter.filter_data Toy.lemmas data).
Proof.
  cbv zeta.
  refine (proj1 (filter_data_keeps_first Toy.lemmas _ (mk_record "p" 2 "JOB OFFER") _ _)).
  - right. right. left.
  - by vm_compute.
Defined.

(** ** More on the normalisation of the extracted text *)

Section words_facts.
Import Text.

Lemma words_of_word w : proper_word w = true -> words w = [w].
Proof.
  induction w as [|c w IH]; [done|].
  unfold proper_word. simpl. intros [Hc Hw]%andb_prop.
  apply negb_true_iff in Hc. rewrite Hc.
  destruct w as [|c' w']; [done|].
  simpl in Hw. apply andb_prop in Hw as Hw'. destruct Hw' as [Hc' _].
  apply negb_true_iff in Hc'. rewrite Hc'.
  by rewrite IH.
Qed.

Lemma words_word_space w t :
  proper_word w = true -> words (w +:+ String " " t) = w :: words t.
Proof.
  induction w as [|c w IH]; [done|].
  unfold proper_word. simpl. intros [Hc Hw]%andb_prop.
  apply negb_true_iff in Hc. rewrite Hc.
  destruct w as [|c' w']; [done|].
  simpl in Hw. apply andb_prop in Hw as Hw'. destruct Hw' as [Hc' _].
  apply negb_true_iff in Hc'.
  change ((String c' w' +:+ String " " t)%string)
    with (String c' (w' +:+ String " " t)) at 1.
  cbv iota beta. rewrite Hc'.
  change (String c' (w' +:+ String " " t)) with ((String c' w' +:+ String " " t)%string).
  by rewrite IH.
Qed.

Lemma words_proper s : Forall (fun w => proper_word w = true) (words s).
Proof.
  induction s as [|c s IH]; [constructor|].
  simpl. destruct (isspace c) eqn:Hc; [done|].
  assert (proper_word (String c EmptyString) = true) as Hone
    by (unfold proper_word; simpl; by rewrite Hc).
  destruct s as [|c' s']; [by repeat constructor|].
  destruct (isspace c') eqn:Hc'; [by constructor|].
  destruct (words (String c' s')) as [|w ws]; [by repeat constructor|].
  apply Forall_cons in IH as [Hw Hws]. constructor; [|done].
  unfold proper_word in *. simpl. rewrite Hc. simpl.
  by apply andb_prop in Hw as [_ ->].
Qed.

Lemma words_concat ws :
  Forall (fun w => proper_word w = true) ws -> words (String.concat " " ws) = ws.
Proof.
  induction ws as [|w ws IH]; [done|].
  intros [Hw Hws]%Forall_cons. simpl.
  destruct ws as [|w2 ws]; [by apply words_of_word|].
  change (w +:+ " " +:+ String.concat " " (w2 :: ws))%string
    with (w +:+ String " " (String.concat " " (w2 :: ws)))%string.
  rewrite words_word_space by done. by rewrite IH.
Qed.
End words_facts.

Lemma re_sub_ws_empty s : Text.re_sub_ws s = EmptyString <-> s = EmptyString.
Proof.
  destruct s as [|c s]; [done|]. unfold Text.re_sub_ws. simpl.
  by destruct (Text.isspace c).
Qed.

Lemma strip_empty text : Text.strip text = EmptyString <-> Text.words text = [].
Proof.
  assert (Text.is_empty (Text.strip text) = is_nil (Text.words text)) as Hempty.
  { unfold Text.strip. by rewrite rstrip_empty, words_lstrip. }
  by destruct (Text.strip text), (Text.words text).
Qed.

Lemma get_text_strip_empty element :
  get_text_strip element = EmptyString
  <-> Forall (fun text => Text.strip text = EmptyString) element.
Proof.
  unfold get_text_strip. induction element as [|text element IH]; [done|].
  cbn [List.map List.filter]. rewrite Forall_cons.
  destruct (Text.strip text) as [|c t]; cbn [Text.is_empty negb].
  - rewrite IH. naive_solver.
  - rewrite concat_empty_cons. split; [|by intros [? _]].
    intros Hnil. apply (f_equal Text.is_empty) in Hnil. discriminate Hnil.
Qed.

(** X3: the content stored for an element is a fixed point of the
    extraction: an element whose only text node is that content gives the
    same content. Its words are the words of the text that
    [get_text(strip=True)] gives, and it is empty exactly when no text
    node of the element holds a word. *)
Theorem content_normal_form (element : Element) :
  let content := Text.re_sub_ws (get_text_strip element) in
  Text.re_sub_ws (get_text_strip [content]) = content
  /\ Text.words content = Text.words (get_text_strip element)
  /\ (content = EmptyString <-> Forall (fun text => Text.words text = []) element).
Proof.
  cbv zeta. rewrite (re_sub_ws_get_text element). split; [|split].
  - rewrite get_text_strip_one, re_sub_ws_strip. unfold Text.normalized.
    by rewrite words_concat by apply words_proper.
  - unfold Text.normalized. by rewrite words_concat by apply words_proper.
  - rewrite <- (re_sub_ws_get_text element), re_sub_ws_empty, get_text_strip_empty.
    apply Forall_proper; [|done]. intros text. apply strip_empty.
Qed.

(** ** More on the navigator *)

(** Refutes the membership [H] of an event in an explicit list of other
    events. *)
Ltac not_in_list H :=
  repeat (apply elem_of_cons in H as [H|H]; [discriminate H|]);
  by apply elem_of_nil in H.

Section navigator_more.
Context {World : Type} (B : Browser World) (max_retries : Z).





End navigator_more.




(** X5: a navigation, retries included, is local to its address, in both
    variants: [_navigate_to_url] leaves the visited set and the
    accumulator as they are, enumerates no anchor, reads no [href], opens
    no tab, and returns normally to its caller in every case. *)
Theorem navigate_frame {World} (B : Browser World) max_retries page url timeout
    (st : state World) :
  let x := Rufus._navigate_to_url B max_retries page url timeout st in
  let y := RufusRag._navigate_to_url B max_retries page url timeout st in
  (res_of x = Done tt /\ visited (st_of x) = visited st
   /\ all_data (st_of x) = all_data st
   /\ Forall (fun e => discovery_event e = false) (tr_of x))
  /\ (res_of y = Done tt /\ visited (st_of y) = visited st
      /\ all_data (st_of y) = all_data st
      /\ Forall (fun e => discovery_event e = false) (tr_of y)).
Proof.
  cbv zeta. split.
  - split; [apply rufus_navigate_returns|].
    apply (rufus_navigate_quiet B max_retries page url timeout st).
  - split; [apply rag_navigate_returns|].
    apply (rag_navigate_quiet B max_retries page url timeout st).
Qed.

(** X6: with [max_retries] zero or negative [_navigate_to_url] (of either
    variant) makes no attempt: no browser call at all, only the final
    diagnostic, and the state is untouched. *)
Theorem navigate_without_retries {World} (B : Browser World) max_retries page url
    timeout (st : state World) :
  max_retries <= 0 ->
  Rufus._navigate_to_url B max_retries page url timeout st
  = (Done tt, st, [EvLog ERROR NavFailed])
  /\ RufusRag._navigate_to_url B max_retries page url timeout st
     = (Done tt, st, [EvLog ERROR (NavFailedUrl url)]).
Proof.
  intros Hle. unfold Rufus._navigate_to_url, RufusRag._navigate_to_url, range.
  by replace (Z.to_nat max_retries) with 0%nat by lia.
Qed.

Lemma navigate_without_retries_witness :
  Rufus._navigate_to_url (Sim.browser Sim.two_sites) 0 0%nat "http://a" 30000 Sim.one_tab
  = (Done tt, Sim.one_tab, [EvLog ERROR NavFailed]).
Proof.
  apply (navigate_without_retries (Sim.browser Sim.two_sites) 0 0%nat "http://a" 30000
           Sim.one_tab).
  lia.
Defined.

(** ** What reaches the caller of the crawl *)

Section no_raise_facts.
Context {World : Type}.

Lemma no_raise_ret {A} (a : A) : no_raise (@ret World A a).
Proof. done. Qed.

Lemma no_raise_emit e : no_raise (@emit World e).
Proof. done. Qed.

Lemma no_raise_get_visited : no_raise (@get_visited World).
Proof. done. Qed.

Lemma no_raise_len_visited : no_raise (@len_visited World).
Proof. done. Qed.

Lemma no_raise_new_visited : no_raise (@new_visited World).
Proof. done. Qed.

Lemma no_raise_get_all_data : no_raise (@get_all_data World).
Proof. done. Qed.

Lemma no_raise_out_of_fuel {A} : no_raise (@out_of_fuel World A).
Proof. done. Qed.

Lemma no_raise_do_call {A} c (op : World -> reply A * World) :
  never_fails op -> no_raise (do_call c op).
Proof.
  intros Hop st e. unfold do_call.
  destruct (Hop (world st)) as (a & w & ->). done.
Qed.

Lemma no_raise_bind {A C} (m : M World A) (f : A -> M World C) :
  no_raise m -> (forall a, no_raise (f a)) -> no_raise (bind m f).
Proof.
  intros Hm Hf st e. unfold bind. specialize (Hm st).
  destruct (m st) as [[[a|e'|] st1] t1]; simpl in *; [|by destruct (Hm e')|done].
  specialize (Hf a st1 e). by destruct (f a st1) as [[r2 st2] t2].
Qed.

Lemma no_raise_catch {A} (m : M World A) : no_raise (catch m).
Proof. intros st e. unfold catch. by destruct (m st) as [[[a|e'|] st1] t1]. Qed.

Lemma no_raise_try_finally {A} (m : M World A) fin :
  no_raise m -> no_raise fin -> no_raise (try_finally m fin).
Proof.
  intros Hm Hfin st e. unfold try_finally. specialize (Hm st).
  destruct (m st) as [[[a|e'|] st1] t1]; simpl in *; [|by destruct (Hm e')|done].
  specialize (Hfin st1).
  destruct (fin st1) as [[[[]|e2|] st2] t2]; simpl in *; [done| |done].
  by destruct (Hfin e2).
Qed.

Lemma no_raise_for_each {A} (l : list A) (body : A -> M World unit) :
  (forall x, no_raise (body x)) -> no_raise (for_each l body).
Proof.
  intros Hbody. induction l as [|x l IH]; simpl.
  - apply no_raise_ret.
  - by apply no_raise_bind.
Qed.
End no_raise_facts.

(** One proof step of [no_raise m], by the shape of [m]. *)
Ltac no_raise_step :=
  first
    [ apply no_raise_catch
    | apply no_raise_bind; [|intros ?]
    | apply no_raise_try_finally
    | apply no_raise_for_each; intros ?
    | apply no_raise_ret
    | apply no_raise_emit
    | apply no_raise_get_visited
    | apply no_raise_len_visited
    | apply no_raise_new_visited
    | apply no_raise_get_all_data
    | apply no_raise_out_of_fuel
    | apply no_raise_do_call; assumption
    | assumption
    | match goal with
      | |- no_raise (match ?x with _ => _ end) => destruct x
      | |- no_raise (if ?b then _ else _) => destruct b
      end ].

Section crawl_raises.
Context {World : Type} (B : Browser World) (max_retries : Z).

Lemma rufus_navigate_no_raise page url timeout :
  no_raise (Rufus._navigate_to_url B max_retries page url timeout).
Proof. intros st e. by rewrite rufus_navigate_returns. Qed.

Lemma rag_navigate_no_raise page url timeout :
  no_raise (RufusRag._navigate_to_url B max_retries page url timeout).
Proof. intros st e. by rewrite rag_navigate_returns. Qed.

(** The loop over the links catches whatever an iteration raises. *)
Lemma rufus_crawl_link_no_raise crawl timeout link :
  no_raise (Rufus.crawl_link B crawl timeout link).
Proof. unfold Rufus.crawl_link. repeat no_raise_step. Qed.

Lemma rag_retry_no_raise crawl page next_url timeout attempts :
  no_raise (RufusRag.retry_loop B crawl page next_url timeout attempts).
Proof.
  induction attempts as [|attempt attempts IH]; simpl; repeat no_raise_step.
Qed.

Lemma rag_crawl_link_no_raise crawl page timeout link :
  no_raise (RufusRag.crawl_link B crawl page timeout link).
Proof.
  unfold RufusRag.crawl_link, RufusRag._get_link_href.
  pose proof (rag_retry_no_raise crawl page).
  unfold RufusRag._retry_navigation. repeat no_raise_step.
Qed.

(** The test at the head of [_crawl_links] turns the address away. *)
Lemma rufus_crawl_body_rejects crawl page url css_selector prompt pages timeout
    (st : state World) :
  pages <= Z.of_nat (size (visited st)) \/ url ∈ visited st ->
  Rufus.crawl_body B max_retries crawl page url css_selector prompt pages timeout st
  = (Done tt, st, []).
Proof.
  intros Hrej. unfold Rufus.crawl_body, bind, get_visited.
  destruct Hrej as [Hle|Hin].
  - by rewrite (proj2 (Z.leb_le _ _) Hle).
  - by rewrite bool_decide_eq_true_2, orb_true_r.
Qed.

Lemma rag_crawl_body_rejects crawl page url css_selector prompt pages timeout
    (st : state World) :
  pages <= Z.of_nat (size (visited st)) \/ url ∈ visited st ->
  RufusRag.crawl_body B max_retries crawl page url css_selector prompt pages timeout st
  = (Done tt, st, []).
Proof.
  intros Hrej. unfold RufusRag.crawl_body, bind, get_visited.
  destruct Hrej as [Hle|Hin].
  - by rewrite (proj2 (Z.leb_le _ _) Hle).
  - by rewrite bool_decide_eq_true_2, orb_true_r.
Qed.

Lemma passes_or_rejects (st : state World) url pages :
  passes_test st url pages
  \/ (pages <= Z.of_nat (size (visited st)) \/ url ∈ visited st).
Proof.
  unfold passes_test.
  destruct (decide (url ∈ visited st)); [by right; right|].
  destruct (decide (pages <= Z.of_nat (size (visited st)))); [by right; left|].
  left. split; [lia|done].
Qed.

(** The enumeration of the anchors followed by the loop raises only what
    the enumeration raised. *)
Lemma anchors_raise page (body : Link -> M World unit) (st : state World) e :
  (forall link, no_raise (body link)) ->
  res_of (bind (do_call (CQuerySelectorAll page) (page_query_selector_all _ B page))
            (fun links => for_each links body) st) = Raised e ->
  (exists w', page_query_selector_all _ B page (world st) = (Fail e, w'))
  /\ tr_of (bind (do_call (CQuerySelectorAll page) (page_query_selector_all _ B page))
              (fun links => for_each links body) st)
     = [EvCall (CQuerySelectorAll page)].
Proof.
  intros Hbody. unfold bind, do_call.
  destruct (page_query_selector_all World B page (world st)) as [[links|e'] w'];
    simpl.
  - pose proof (no_raise_for_each links body Hbody
                  (mk_state w' (visited st) (all_data st)) e) as Hno.
    by destruct (for_each links body _) as [[r2 st2] t2].
  - intros [= ->]. split; [by eexists|done].
Qed.
End crawl_raises.

(** X7: when the budget is used up (a budget of zero or less is used up
    from the start) or the address is in the visited set, [_crawl_links]
    (of either variant) does nothing at all: no statement of the crawl
    runs, no browser call is made, the state is as before. *)
Theorem crawl_rejects {World} (B : Browser World) max_retries fuel page
    url css_selector prompt pages timeout (st : state World) :
  pages <= Z.of_nat (size (visited st)) \/ url ∈ visited st ->
  Rufus._crawl_links B max_retries (S fuel) page url css_selector prompt pages timeout st
  = (Done tt, st, [])
  /\ RufusRag._crawl_links B max_retries (S fuel) page url css_selector prompt pages
       timeout st
     = (Done tt, st, []).
Proof.
  intros Hrej. split; simpl.
  - by apply rufus_crawl_body_rejects.
  - by apply rag_crawl_body_rejects.
Qed.

Lemma crawl_rejects_witness :
  Rufus._crawl_links (Sim.browser Sim.linked_site) 3 1 0%nat "http://a" ".x" "p" 0 30000
    Sim.one_tab
  = (Done tt, Sim.one_tab, []).
Proof.
  apply (crawl_rejects (Sim.browser Sim.linked_site) 3 0 0%nat "http://a" ".x" "p" 0
           30000 Sim.one_tab).
  left. by vm_compute.
Defined.

Lemma last_cons_app_snoc {A} (x : A) l1 l2 y :
  last (x :: l1 ++ l2 ++ [y]) = Some y.
Proof. by rewrite app_comm_cons, app_assoc, last_snoc. Qed.

(** X8: failures below a link never leave the crawl: an exception reaches
    the caller of [_crawl_links] (of either variant) only when
    [query_selector_all] on the page of the call itself has raised it, and
    the call then ends on that enumeration; whatever is raised while a
    link is read, its tab opened, navigated to, crawled or closed is
    caught in the loop. *)
Theorem crawl_raises_only_from_anchors {World} (B : Browser World) max_retries fuel
    page url css_selector prompt pages timeout (st : state World) e :
  let x := Rufus._crawl_links B max_retries fuel page url css_selector prompt
             pages timeout st in
  let y := RufusRag._crawl_links B max_retries fuel page url css_selector prompt
             pages timeout st in
  (res_of x = Raised e ->
   (exists w w', page_query_selector_all _ B page w = (Fail e, w'))
   /\ last (tr_of x) = Some (EvCall (CQuerySelectorAll page)))
  /\ (res_of y = Raised e ->
      (exists w w', page_query_selector_all _ B page w = (Fail e, w'))
      /\ last (tr_of y) = Some (EvCall (CQuerySelectorAll page))).
Proof.
  cbv zeta. destruct fuel as [|fuel]; [done|]. cbn [Rufus._crawl_links RufusRag._crawl_links].
  destruct (passes_or_rejects st url pages) as [Hpass|Hrej].
  2:{ rewrite rufus_crawl_body_rejects, rag_crawl_body_rejects by done. done. }
  split.
  - rewrite rufus_crawl_body_passes by done.
    rewrite rufus_crawl_visit_run. cbv zeta.
    destruct (res_of (Rufus._extract_data_from_page _ _ _ _ _ _)) as [[]|[]|];
      [|done..].
    match goal with
    | |- context [bind (do_call ?c ?op) (fun links => for_each links ?body) ?s] =>
        pose proof (anchors_raise B page body s e
                      (rufus_crawl_link_no_raise B _ timeout)) as Hanchors;
        destruct (bind (do_call c op) (fun links => for_each links body) s)
          as [[r3 st3] t3]
    end.
    simpl in *. intros ->. destruct (Hanchors eq_refl) as [[w' Hw'] ->].
    split; [by eexists _, _|]. apply last_cons_app_snoc.
  - rewrite rag_crawl_body_passes by done.
    destruct (rag_crawl_visit_run B max_retries
                (fun page next_url =>
                   RufusRag._crawl_links B max_retries fuel page next_url css_selector
                     prompt pages timeout)
                page url css_selector prompt timeout (st_of (visited_add url st)))
      as (log_ & _ & ->).
    match goal with
    | |- context [bind (do_call ?c ?op) (fun links => for_each links ?body) ?s] =>
        pose proof (anchors_raise B page body s e
                      (rag_crawl_link_no_raise B _ page timeout)) as Hanchors;
        destruct (bind (do_call c op) (fun links => for_each links body) s)
          as [[r3 st3] t3]
    end.
    simpl in *. intros ->. destruct (Hanchors eq_refl) as [[w' Hw'] ->].
    split; [by eexists _, _|].
    rewrite (app_assoc _ log_). apply last_cons_app_snoc.
Qed.

Lemma crawl_raises_only_from_anchors_witness :
  last (tr_of (Rufus._crawl_links (Sim.deaf_browser Sim.linked_site) 3 2 0%nat
                 "http://a" ".x" "p" 2 30000 Sim.one_tab))
  = Some (EvCall (CQuerySelectorAll 0%nat)).
Proof.
  refine (proj2 (proj1 (crawl_raises_only_from_anchors (Sim.deaf_browser Sim.linked_site)
                          3 2 0%nat "http://a" ".x" "p" 2 30000 Sim.one_tab OtherError)
                   _)).
  by vm_compute.
Defined.

Lemma no_raise_visited_add {World} url : no_raise (@visited_add World url).
Proof. done. Qed.

Lemma no_raise_total_done {World A} (m : M World A) st :
  no_raise m -> total_at m st -> exists a, res_of (m st) = Done a.
Proof.
  intros Hno Htot. specialize (Hno st). unfold total_at in Htot.
  destruct (res_of (m st)) as [a|e|]; [by eexists|by destruct (Hno e)|done].
Qed.

Section scrape_return_facts.
Context {World : Type} (B : Browser World) (max_retries : Z).

Lemma rufus_extract_no_raise_catch page prompt css_selector page_num :
  no_raise (catch (Rufus._extract_data_from_page B page prompt css_selector page_num)).
Proof. apply no_raise_catch. Qed.

Lemma rufus_crawl_no_raise fuel page url css_selector prompt pages timeout :
  (forall p, never_fails (page_query_selector_all _ B p)) ->
  no_raise (Rufus._crawl_links B max_retries fuel page url css_selector prompt
              pages timeout).
Proof.
  intros Hq. revert page url. induction fuel as [|fuel IH]; intros page url; simpl.
  - apply no_raise_out_of_fuel.
  - unfold Rufus.crawl_body.
    apply no_raise_bind; [apply no_raise_get_visited|]. intros v.
    destruct (_ || _); [apply no_raise_ret|].
    apply no_raise_bind; [apply no_raise_visited_add|]. intros _.
    unfold Rufus.crawl_visit.
    apply no_raise_bind; [apply rufus_navigate_no_raise|]. intros _.
    apply no_raise_bind; [apply no_raise_len_visited|]. intros page_num.
    apply no_raise_bind; [apply no_raise_catch|]. intros [[]|[]].
    + apply no_raise_bind; [apply no_raise_do_call, Hq|]. intros links.
      apply no_raise_for_each. intros link. apply rufus_crawl_link_no_raise.
    + repeat no_raise_step.
    + repeat no_raise_step.
Qed.

Lemma rag_scrape_no_raise url prompt css_selector pages timeout :
  setup_never_fails B ->
  no_raise (RufusRag.scrape B max_retries url prompt css_selector pages timeout).
Proof.
  intros (Henter & Hexit & Hlaunch & Hctx & Hclose).
  unfold RufusRag.scrape.
  generalize (RufusRag._crawl_links B max_retries (RufusRag.enough_fuel pages)).
  intros crawl. repeat no_raise_step.
Qed.
End scrape_return_facts.

(** X9: [scrape] of [rufus_rag.py] lets no failure of the crawl out.
    When starting and stopping Playwright, launching the browser, opening
    and closing the context never fail, it returns a list, whatever
    opening the tab, the pages and the links do. *)
Theorem rag_scrape_returns {World} (B : Browser World) max_retries
    url prompt css_selector pages timeout (st : state World) :
  setup_never_fails B ->
  exists out,
    res_of (RufusRag.scrape B max_retries url prompt css_selector pages timeout st)
    = Done out.
Proof.
  intros Hsetup.
  apply no_raise_total_done; [by apply rag_scrape_no_raise|apply rag_scrape_total].
Qed.

Lemma rag_scrape_returns_witness :
  exists out,
    res_of (RufusRag.scrape (Sim.deaf_browser Sim.linked_site) 3 "http://a" "p" ".x" 2
              30000 Sim.start) = Done out.
Proof.
  apply (rag_scrape_returns (Sim.deaf_browser Sim.linked_site) 3
           "http://a" "p" ".x" 2 30000 Sim.start).
  repeat split; intros w; by eexists _, _.
Defined.

(** On a browser that cannot enumerate anchors [scrape] of [rufus.py]
    raises after the seed was extracted from: the records stay in the
    client and no list is returned; [scrape] of [rufus_rag.py] returns
    them. *)
Lemma scrape_raises_on_anchors :
  let x := Rufus.scrape (Sim.deaf_browser Sim.linked_site) 3 Toy.lemmas
             "http://a" "p" ".x" 2 30000 Sim.start in
  let y := RufusRag.scrape (Sim.deaf_browser Sim.linked_site) 3
             "http://a" "p" ".x" 2 30000 Sim.start in
  res_of x = Raised OtherError
  /\ all_data (st_of x) = [mk_record "p" 1 "We have a job opening"]
  /\ res_of y = Done [mk_record "p" 1 "We have a job opening"].
Proof. cbv zeta. repeat split; by vm_compute. Qed.

(** ** The resources of a call of [scrape] *)

Section trace_facts.
Context {World : Type}.

Lemma do_call_trace {A} c (op : World -> reply A * World) st :
  tr_of (do_call c op st) = [EvCall c].
Proof. unfold do_call. by destruct (op (world st)) as [[a|e] w]. Qed.

Lemma tr_bind_do_call_ok {A C} c (op : World -> reply A * World)
    (f : A -> M World C) st a w :
  op (world st) = (Ok a, w) ->
  tr_of (bind (do_call c op) f st)
  = EvCall c :: tr_of (f a (mk_state w (visited st) (all_data st))).
Proof.
  intros Hop. rewrite (bind_do_call_ok c op f st a w Hop).
  by destruct (f a _) as [[r2 st2] t2].
Qed.

Lemma tr_bind_done {A C} (m : M World A) (f : A -> M World C) st a :
  res_of (m st) = Done a ->
  tr_of (bind m f st) = tr_of (m st) ++ tr_of (f a (st_of (m st))).
Proof.
  unfold bind. destruct (m st) as [[r st1] t1]; simpl. intros ->.
  by destruct (f a st1) as [[r2 st2] t2].
Qed.

Lemma tr_bind_elem {A C} (m : M World A) (f : A -> M World C) st e :
  e ∈ tr_of (m st) -> e ∈ tr_of (bind m f st).
Proof.
  unfold bind. destruct (m st) as [[[a|e'|] st1] t1]; simpl; [|done|done].
  destruct (f a st1) as [[r2 st2] t2]. simpl. intros Hin.
  apply elem_of_app. by left.
Qed.

Lemma try_finally_trace {A} (m : M World A) fin st :
  total_at m st ->
  tr_of (try_finally m fin st) = tr_of (m st) ++ tr_of (fin (st_of (m st))).
Proof.
  unfold total_at, try_finally.
  destruct (m st) as [[[a|e|] st1] t1]; simpl; [| |done]; intros _;
    by destruct (fin st1) as [[[[]|e'|] st2] t2].
Qed.
End trace_facts.

Section release.
Context {World : Type} (B : Browser World) (max_retries : Z).
Variable lemmas : string -> list string.
Variables (url prompt css_selector : string) (pages timeout : Z).

Lemma rufus_scrape_trace (st : state World) w1 :
  playwright_enter _ B (world st) = (Ok tt, w1) ->
  exists body,
    tr_of (Rufus.scrape B max_retries lemmas url prompt css_selector pages timeout st)
    = EvCall CEnter :: body ++ [EvCall CExit]
    /\ forall w2 w3, launch _ B w1 = (Ok tt, w2) -> new_context _ B w2 = (Ok tt, w3) ->
         (forall p w4, new_page _ B w3 = (Ok p, w4) -> EvCall CContextClose ∈ body)
         /\ (forall e w4, new_page _ B w3 = (Fail e, w4) ->
               body = [EvCall CLaunch; EvCall CNewContext; EvCall CNewPage]).
Proof.
  intros Henter.
  assert (forall page st', visited st' = ∅ ->
            total_at (Rufus._crawl_links B max_retries (Rufus.enough_fuel pages) page url
                        css_selector prompt pages timeout) st') as Hcrawl.
  { intros page st' Hst'. apply rufus_crawl_total.
    rewrite Hst', size_empty. unfold Rufus.enough_fuel. lia. }
  unfold Rufus.scrape. revert Hcrawl.
  generalize (Rufus._crawl_links B max_retries (Rufus.enough_fuel pages)).
  intros crawl Hcrawl.
  erewrite tr_bind_do_call_ok by exact Henter.
  match goal with
  | |- context [try_finally ?m ?fin ?s] =>
      assert (total_at m s) as Hbody by (total_auto; by apply Hcrawl);
      rewrite (try_finally_trace m fin s Hbody); rewrite do_call_trace;
      exists (tr_of (m s))
  end.
  split; [done|]. intros w2 w3 Hlaunch Hctx.
  erewrite tr_bind_do_call_ok by exact Hlaunch.
  erewrite tr_bind_do_call_ok by exact Hctx.
  split.
  - intros p w4 Hpage. erewrite tr_bind_do_call_ok by exact Hpage.
    do 3 right. erewrite tr_bind_done by reflexivity. simpl.
    apply tr_bind_elem. rewrite try_finally_trace by (by apply Hcrawl).
    rewrite do_call_trace. apply elem_of_app. right. left.
  - intros e w4 Hpage. by erewrite bind_do_call_fail by exact Hpage.
Qed.

Lemma rag_scrape_trace (st : state World) w1 :
  playwright_enter _ B (world st) = (Ok tt, w1) ->
  exists body,
    tr_of (RufusRag.scrape B max_retries url prompt css_selector pages timeout st)
    = EvCall CEnter :: body ++ [EvCall CExit]
    /\ forall w2 w3, launch _ B w1 = (Ok tt, w2) -> new_context _ B w2 = (Ok tt, w3) ->
         EvCall CContextClose ∈ body.
Proof.
  intros Henter.
  assert (forall page st', visited st' = ∅ ->
            total_at (RufusRag._crawl_links B max_retries (RufusRag.enough_fuel pages)
                        page url css_selector prompt pages timeout) st') as Hcrawl.
  { intros page st' Hst'. apply rag_crawl_total.
    rewrite Hst', size_empty. unfold RufusRag.enough_fuel. lia. }
  unfold RufusRag.scrape. revert Hcrawl.
  generalize (RufusRag._crawl_links B max_retries (RufusRag.enough_fuel pages)).
  intros crawl Hcrawl.
  erewrite tr_bind_do_call_ok by exact Henter.
  match goal with
  | |- context [try_finally ?m ?fin ?s] =>
      assert (total_at m s) as Hbody by (total_auto; by apply Hcrawl);
      rewrite (try_finally_trace m fin s Hbody); rewrite do_call_trace;
      exists (tr_of (m s))
  end.
  split; [done|]. intros w2 w3 Hlaunch Hctx.
  erewrite tr_bind_do_call_ok by exact Hlaunch.
  erewrite tr_bind_do_call_ok by exact Hctx.
  do 2 right. apply tr_bind_elem.
  rewrite try_finally_trace by (total_auto; by apply Hcrawl).
  rewrite do_call_trace. apply elem_of_app. right. left.
Qed.
End release.

(** X10: the resources of [scrape]. Once Playwright has started, its exit
    is the last thing either variant does, on every path. Once the browser
    is launched and the context open, [rufus_rag.py] always closes the
    context; [rufus.py] closes it if its first tab could be opened, and
    never calls [context.close()] if opening that tab raised. *)
Theorem scrape_releases {World} (B : Browser World) max_retries lemmas
    url prompt css_selector pages timeout (st : state World) w1 :
  playwright_enter _ B (world st) = (Ok tt, w1) ->
  let x := Rufus.scrape B max_retries lemmas url prompt css_selector pages timeout st in
  let y := RufusRag.scrape B max_retries url prompt css_selector pages timeout st in
  last (tr_of x) = Some (EvCall CExit)
  /\ last (tr_of y) = Some (EvCall CExit)
  /\ (forall w2 w3, launch _ B w1 = (Ok tt, w2) -> new_context _ B w2 = (Ok tt, w3) ->
        EvCall CContextClose ∈ tr_of y
        /\ (forall p w4, new_page _ B w3 = (Ok p, w4) -> EvCall CContextClose ∈ tr_of x)
        /\ (forall e w4, new_page _ B w3 = (Fail e, w4) ->
              EvCall CContextClose ∉ tr_of x)).
Proof.
  intros Henter. cbv zeta.
  destruct (rufus_scrape_trace B max_retries lemmas url prompt css_selector pages
              timeout st w1 Henter) as (bx & -> & Hx).
  destruct (rag_scrape_trace B max_retries url prompt css_selector pages
              timeout st w1 Henter) as (by_ & -> & Hy).
  split; [by rewrite app_comm_cons, last_snoc|].
  split; [by rewrite app_comm_cons, last_snoc|].
  intros w2 w3 Hlaunch Hctx.
  destruct (Hx w2 w3 Hlaunch Hctx) as [Hok Hfail].
  split; [|split].
  - right. apply elem_of_app. left. by apply (Hy w2 w3).
  - intros p w4 Hpage. right. apply elem_of_app. left. by apply (Hok p w4).
  - intros e w4 Hpage. rewrite (Hfail e w4 Hpage). intros Hin. simpl in Hin.
    not_in_list Hin.
Qed.

Lemma scrape_releases_witness :
  last (tr_of (Rufus.scrape (Sim.browser Sim.linked_site) 3 Toy.lemmas
                 "http://a" "p" ".x" 2 30000 Sim.start))
  = Some (EvCall CExit).
Proof.
  exact (proj1 (scrape_releases (Sim.browser Sim.linked_site) 3 Toy.lemmas
                  "http://a" "p" ".x" 2 30000 Sim.start Sim.empty_world eq_refl)).
Defined.

(** ** The results of successive calls of [scrape] *)

Section data_rel_facts.
Context {World : Type}.

Lemma data_rel_nil (st : state World) : data_rel st [] st.
Proof. by unfold data_rel. Qed.

Lemma data_rel_app (st : state World) t1 st1 t2 st2 :
  data_rel st t1 st1 -> data_rel st1 t2 st2 -> data_rel st (t1 ++ t2) st2.
Proof. unfold data_rel. intros. by etrans. Qed.

Lemma data_rel_do_call {A} c (op : World -> reply A * World) :
  sound data_rel (do_call c op).
Proof. intros st. unfold sound_at, data_rel. by rewrite do_call_all_data. Qed.

Lemma data_rel_emit e : sound (@data_rel World) (emit e).
Proof. intros st. by unfold sound_at, data_rel. Qed.

Lemma data_rel_new_visited : sound (@data_rel World) new_visited.
Proof. intros st. by unfold sound_at, data_rel. Qed.

Lemma data_rel_of_crawl_rel {A} pages (m : M World A) :
  sound (crawl_rel pages) m -> sound data_rel m.
Proof. intros Hm st. by destruct (Hm st). Qed.
End data_rel_facts.

Ltac data_rel_step :=
  first
    [ apply (sound_bind _ data_rel_app); [|intros ?]
    | apply sound_catch
    | apply (sound_try_finally _ data_rel_app)
    | apply (sound_ret _ data_rel_nil)
    | apply (sound_get_all_data _ data_rel_nil)
    | apply data_rel_do_call
    | apply data_rel_emit
    | apply data_rel_new_visited
    | assumption
    | match goal with
      | |- sound _ (match ?x with _ => _ end) => destruct x
      end ].

Section scrape_done.
Context {World : Type} (B : Browser World) (max_retries : Z).
Variable lemmas : string -> list string.

Lemma rufus_scrape_data url prompt css_selector pages timeout :
  sound data_rel (Rufus.scrape B max_retries lemmas url prompt css_selector pages timeout).
Proof.
  pose proof (fun page => data_rel_of_crawl_rel pages _
                (rufus_crawl_sound B max_retries pages (Rufus.enough_fuel pages) page url
                   css_selector prompt timeout)) as Hcrawl.
  unfold Rufus.scrape. revert Hcrawl.
  generalize (Rufus._crawl_links B max_retries (Rufus.enough_fuel pages)).
  intros crawl Hcrawl. repeat first [apply Hcrawl | data_rel_step].
Qed.

Lemma rag_scrape_data url prompt css_selector pages timeout :
  sound data_rel (RufusRag.scrape B max_retries url prompt css_selector pages timeout).
Proof.
  pose proof (fun page => data_rel_of_crawl_rel pages _
                (rag_crawl_sound B max_retries pages (RufusRag.enough_fuel pages) page url
                   css_selector prompt timeout)) as Hcrawl.
  unfold RufusRag.scrape. revert Hcrawl.
  generalize (RufusRag._crawl_links B max_retries (RufusRag.enough_fuel pages)).
  intros crawl Hcrawl. repeat first [apply Hcrawl | data_rel_step].
Qed.

(** A call of [scrape] that returns gives the filter of the accumulator as
    the call leaves it. *)
Lemma rufus_scrape_done url prompt css_selector pages timeout (st : state World) out :
  res_of (Rufus.scrape B max_retries lemmas url prompt css_selector pages timeout st)
  = Done out ->
  out = Rufus_filter.filter_data lemmas
          (all_data (st_of (Rufus.scrape B max_retries lemmas url prompt css_selector
                              pages timeout st))).
Proof.
  intros Hdone. unfold Rufus.scrape in *.
  apply bind_Done_inv in Hdone as (_ & _ & Hdone & ->).
  apply try_finally_Done_inv in Hdone as (Hdone & ->).
  rewrite do_call_all_data.
  apply bind_Done_inv in Hdone as (_ & _ & Hdone & ->).
  apply bind_Done_inv in Hdone as (_ & _ & Hdone & ->).
  apply bind_Done_inv in Hdone as (page & _ & Hdone & ->).
  apply bind_Done_inv in Hdone as (_ & _ & Hdone & ->).
  apply bind_Done_inv in Hdone as (u & _ & Hdone & ->).
  simpl in Hdone. by injection Hdone as <-.
Qed.

Lemma rag_scrape_done url prompt css_selector pages timeout (st : state World) out :
  res_of (RufusRag.scrape B max_retries url prompt css_selector pages timeout st)
  = Done out ->
  out = Rag_filter.filter_data
          (all_data (st_of (RufusRag.scrape B max_retries url prompt css_selector
                              pages timeout st))).
Proof.
  intros Hdone. unfold RufusRag.scrape in *.
  apply bind_Done_inv in Hdone as (_ & _ & Hdone & ->).
  apply try_finally_Done_inv in Hdone as (Hdone & ->).
  rewrite do_call_all_data.
  apply bind_Done_inv in Hdone as (_ & _ & Hdone & ->).
  apply bind_Done_inv in Hdone as (_ & _ & Hdone & ->).
  apply bind_Done_inv in Hdone as (u & _ & Hdone & ->).
  simpl in Hdone. by injection Hdone as <-.
Qed.
End scrape_done.

(** X11: the results of successive calls of [scrape] of [rufus.py] on one
    client only grow: whatever the two calls crawl, the list returned by
    the first is a prefix of the list returned by the second. *)
Theorem scrape_results_grow {World} (B : Browser World) max_retries lemmas
    url1 prompt1 css1 pages1 timeout1 url2 prompt2 css2 pages2 timeout2
    (st : state World) out1 out2 :
  let first := Rufus.scrape B max_retries lemmas url1 prompt1 css1 pages1 timeout1 st in
  res_of first = Done out1 ->
  res_of (Rufus.scrape B max_retries lemmas url2 prompt2 css2 pages2 timeout2
            (st_of first)) = Done out2 ->
  out1 `prefix_of` out2.
Proof.
  cbv zeta. intros H1%rufus_scrape_done H2%rufus_scrape_done. subst out1 out2.
  destruct (rufus_scrape_data B max_retries lemmas url2 prompt2 css2 pages2 timeout2
              (st_of (Rufus.scrape B max_retries lemmas url1 prompt1 css1 pages1
                        timeout1 st))) as [new Hnew].
  rewrite Hnew. apply filter_data_prefix.
Qed.

Lemma scrape_results_grow_witness :
  [mk_record "first" 1 "We have a job opening"]
  `prefix_of` [mk_record "first" 1 "We have a job opening";
               mk_record "second" 1 "Career fair"].
Proof.
  apply (scrape_results_grow (Sim.browser Sim.two_sites) 3 Toy.lemmas
           "http://a" "first" ".x" 1 30000 "http://b" "second" ".x" 1 30000 Sim.start);
    by vm_compute.
Defined.

(** X12: the same for [rufus_rag.py], whose filter works record by record:
    the second result is the first followed by the filter of the records
    the second call appended. *)
Theorem rag_scrape_results_grow {World} (B : Browser World) max_retries
    url1 prompt1 css1 pages1 timeout1 url2 prompt2 css2 pages2 timeout2
    (st : state World) out1 out2 :
  let first := RufusRag.scrape B max_retries url1 prompt1 css1 pages1 timeout1 st in
  let second := RufusRag.scrape B max_retries url2 prompt2 css2 pages2 timeout2
                  (st_of first) in
  res_of first = Done out1 ->
  res_of second = Done out2 ->
  exists new,
    all_data (st_of second) = all_data (st_of first) ++ new
    /\ out2 = out1 ++ Rag_filter.filter_data new.
Proof.
  cbv zeta. intros H1%rag_scrape_done H2%rag_scrape_done. subst out1 out2.
  destruct (rag_scrape_data B max_retries url2 prompt2 css2 pages2 timeout2
              (st_of (RufusRag.scrape B max_retries url1 prompt1 css1 pages1
                        timeout1 st))) as [new Hnew].
  exists new. split; [done|]. rewrite Hnew.
  unfold Rag_filter.filter_data. apply List.filter_app.
Qed.

Lemma rag_scrape_results_grow_witness :
  exists new,
    all_data (st_of (RufusRag.scrape (Sim.browser Sim.two_sites) 3
                       "http://b" "second" ".x" 1 30000
                       (st_of (RufusRag.scrape (Sim.browser Sim.two_sites) 3
                                 "http://a" "first" ".x" 1 30000 Sim.start))))
    = all_data (st_of (RufusRag.scrape (Sim.browser Sim.two_sites) 3
                         "http://a" "first" ".x" 1 30000 Sim.start)) ++ new
    /\ [mk_record "first" 1 "We have a job opening"; mk_record "second" 1 "Career fair"]
       = [mk_record "first" 1 "We have a job opening"] ++ Rag_filter.filter_data new.
Proof.
  apply (rag_scrape_results_grow (Sim.browser Sim.two_sites) 3
           "http://a" "first" ".x" 1 30000 "http://b" "second" ".x" 1 30000 Sim.start);
    by vm_compute.
Defined.

(** ** The browser calls of a crawl *)

Section emits_facts.
Context {World : Type} (P : event -> Prop).

Lemma emits_nil (st : state World) : emits P st [] st.
Proof. constructor. Qed.

Lemma emits_app (st : state World) t1 st1 t2 st2 :
  emits P st t1 st1 -> emits P st1 t2 st2 -> emits P st (t1 ++ t2) st2.
Proof. unfold emits. intros. by apply Forall_app. Qed.

Lemma emits_do_call {A} c (op : World -> reply A * World) :
  P (EvCall c) -> sound (emits P) (do_call c op).
Proof.
  intros Hc st. unfold sound_at, emits. rewrite do_call_trace. by repeat constructor.
Qed.

Lemma emits_emit e : P e -> sound (@emits World P) (emit e).
Proof. intros He st. unfold sound_at, emits. simpl. by repeat constructor. Qed.

Lemma emits_visited_add url : P (EvVisit url) -> sound (@emits World P) (visited_add url).
Proof. intros He st. unfold sound_at, emits. simpl. by repeat constructor. Qed.

Lemma emits_all_data_append r : sound (@emits World P) (all_data_append r).
Proof. intros st. constructor. Qed.

Lemma emits_new_visited : sound (@emits World P) new_visited.
Proof. intros st. constructor. Qed.
End emits_facts.

Lemma link_wanted_http next_url visited u :
  link_wanted next_url visited = Some u -> Text.startswith u "http" = true.
Proof.
  unfold link_wanted. destruct next_url as [u'|]; [|done].
  destruct (negb (Text.is_empty u') && Text.startswith u' "http"
            && negb (bool_decide (u' ∈ visited))) eqn:Hc; [|done].
  intros [= <-]. apply andb_prop in Hc as [Hc _]. by apply andb_prop in Hc as [_ Hc].
Qed.

Lemma range_bounds n : Forall (fun a => 0 <= a < n) (range n).
Proof.
  unfold range. apply Forall_fmap, Forall_forall. intros i Hi%elem_of_seq. simpl. lia.
Qed.

(** One proof step of [sound (emits P) m], by the shape of [m]; the side
    conditions on the events are left to [solver]. *)
Ltac emits_step solver :=
  first
    [ apply (sound_bind _ (emits_app _)); [|intros ?]
    | apply sound_catch
    | apply (sound_try_finally _ (emits_app _))
    | apply (sound_for_each _ (emits_nil _) (emits_app _)); intros ?
    | apply (sound_ret _ (emits_nil _))
    | apply (sound_raise _ (emits_nil _))
    | apply (sound_out_of_fuel _ (emits_nil _))
    | apply (sound_get_visited _ (emits_nil _))
    | apply (sound_len_visited _ (emits_nil _))
    | apply (sound_get_all_data _ (emits_nil _))
    | apply emits_all_data_append
    | apply emits_new_visited
    | apply emits_do_call; solver
    | apply emits_emit; solver
    | apply emits_visited_add; solver
    | assumption
    | match goal with
      | |- sound _ (match ?x with _ => _ end) => destruct x eqn:?
      | |- sound _ (if ?b then _ else _) => destruct b
      end ].

Ltac event_solver :=
  simpl; solve [ eauto using link_wanted_http
               | split; eauto using link_wanted_http ].

Section rufus_events.
Context {World : Type} (B : Browser World) (max_retries : Z).
Variables (seed css_selector prompt : string) (pages timeout : Z).
Local Abbreviation P :=
  (crawl_event (fun s => exists a, 0 <= a < max_retries /\ s = 2 ^ a)
     seed css_selector timeout).

Lemma rufus_navigate_events page url :
  url = seed \/ Text.startswith url "http" = true ->
  sound (emits P) (Rufus._navigate_to_url B max_retries page url timeout).
Proof.
  intros Hurl. unfold Rufus._navigate_to_url.
  pose proof (range_bounds max_retries) as Hb.
  induction (range max_retries) as [|attempt attempts IH]; simpl.
  - apply emits_emit. done.
  - apply Forall_cons in Hb as [Ha Hb]. specialize (IH Hb).
    unfold Rufus.navigate_attempt. repeat emits_step event_solver.
Qed.

Lemma rufus_extract_events page page_num :
  sound (emits P) (Rufus._extract_data_from_page B page prompt css_selector page_num).
Proof. unfold Rufus._extract_data_from_page. repeat emits_step event_solver. Qed.

Lemma rufus_crawl_link_events crawl link :
  (forall p u, Text.startswith u "http" = true -> sound (emits P) (crawl p u)) ->
  sound (emits P) (Rufus.crawl_link B crawl timeout link).
Proof.
  intros Hcrawl. unfold Rufus.crawl_link.
  repeat first [ apply Hcrawl; eauto using link_wanted_http | emits_step event_solver ].
Qed.

Lemma rufus_crawl_events fuel page url :
  url = seed \/ Text.startswith url "http" = true ->
  sound (emits P)
    (Rufus._crawl_links B max_retries fuel page url css_selector prompt pages timeout).
Proof.
  revert page url. induction fuel as [|fuel IH]; intros page url Hurl; simpl.
  - apply (sound_out_of_fuel _ (emits_nil _)).
  - unfold Rufus.crawl_body, Rufus.crawl_visit.
    pose proof (rufus_navigate_events page url Hurl).
    pose proof (rufus_extract_events page).
    assert (forall link, sound (emits P)
              (Rufus.crawl_link B
                 (fun new_page next_url =>
                    Rufus._crawl_links B max_retries fuel new_page next_url css_selector
                      prompt pages timeout) timeout link)) as Hlink.
    { intros link. apply rufus_crawl_link_events. intros p u Hu. apply IH. by right. }
    repeat first [ apply Hlink | emits_step event_solver ].
Qed.
End rufus_events.

Section rag_events.
Context {World : Type} (B : Browser World) (max_retries : Z).
Variables (seed css_selector prompt : string) (pages timeout : Z).
Local Abbreviation P :=
  (crawl_event (fun s => (exists a, 0 <= a < max_retries /\ s = 2 ^ a) \/ s = 2)
     seed css_selector timeout).

Lemma rag_navigate_events page url :
  url = seed \/ Text.startswith url "http" = true ->
  sound (emits P) (RufusRag._navigate_to_url B max_retries page url timeout).
Proof.
  intros Hurl. unfold RufusRag._navigate_to_url.
  pose proof (range_bounds max_retries) as Hb.
  induction (range max_retries) as [|attempt attempts IH]; simpl.
  - apply emits_emit. done.
  - apply Forall_cons in Hb as [Ha Hb]. specialize (IH Hb).
    unfold RufusRag.navigate_attempt. repeat emits_step event_solver.
Qed.

Lemma rag_extract_events page page_num :
  sound (emits P) (RufusRag._extract_data_from_page B page prompt css_selector page_num).
Proof. unfold RufusRag._extract_data_from_page. repeat emits_step event_solver. Qed.

Lemma rag_retry_events crawl page next_url attempts :
  Text.startswith next_url "http" = true ->
  (forall p u, Text.startswith u "http" = true -> sound (emits P) (crawl p u)) ->
  sound (emits P) (RufusRag.retry_loop B crawl page next_url timeout attempts).
Proof.
  intros Hu Hcrawl. induction attempts as [|attempt attempts IH]; simpl.
  - apply (sound_ret _ (emits_nil _)).
  - repeat first [ by apply Hcrawl | emits_step event_solver ].
Qed.

Lemma rag_crawl_link_events crawl page link :
  (forall p u, Text.startswith u "http" = true -> sound (emits P) (crawl p u)) ->
  sound (emits P) (RufusRag.crawl_link B crawl page timeout link).
Proof.
  intros Hcrawl. unfold RufusRag.crawl_link, RufusRag._get_link_href,
    RufusRag._retry_navigation.
  repeat first [ apply rag_retry_events; eauto using link_wanted_http
               | emits_step event_solver ].
Qed.

Lemma rag_crawl_events fuel page url :
  url = seed \/ Text.startswith url "http" = true ->
  sound (emits P)
    (RufusRag._crawl_links B max_retries fuel page url css_selector prompt pages timeout).
Proof.
  revert page url. induction fuel as [|fuel IH]; intros page url Hurl; simpl.
  - apply (sound_out_of_fuel _ (emits_nil _)).
  - unfold RufusRag.crawl_body, RufusRag.crawl_visit.
    pose proof (rag_navigate_events page url Hurl).
    pose proof (rag_extract_events page).
    assert (forall p link, sound (emits P)
              (RufusRag.crawl_link B
                 (fun page next_url =>
                    RufusRag._crawl_links B max_retries fuel page next_url css_selector
                      prompt pages timeout) p timeout link)) as Hlink.
    { intros p link. apply rag_crawl_link_events. intros p' u Hu. apply IH. by right. }
    repeat first [ apply Hlink | emits_step event_solver ].
Qed.
End rag_events.

(** The events of a call of [scrape], in both variants; the lemma the
    proofs below rest on. *)
Lemma scrape_events_both {World} (B : Browser World) max_retries lemmas
    url prompt css_selector pages timeout (st : state World) :
  Forall (crawl_event (fun s => exists a, 0 <= a < max_retries /\ s = 2 ^ a)
            url css_selector timeout)
    (tr_of (Rufus.scrape B max_retries lemmas url prompt css_selector pages timeout st))
  /\ Forall (crawl_event
               (fun s => (exists a, 0 <= a < max_retries /\ s = 2 ^ a) \/ s = 2)
               url css_selector timeout)
       (tr_of (RufusRag.scrape B max_retries url prompt css_selector pages timeout st)).
Proof.
  split.
  - pose proof (fun page => rufus_crawl_events B max_retries url css_selector prompt
                              pages timeout (Rufus.enough_fuel pages) page url
                              (or_introl eq_refl)) as Hcrawl.
    unfold Rufus.scrape. revert Hcrawl.
    generalize (Rufus._crawl_links B max_retries (Rufus.enough_fuel pages)).
    intros crawl Hcrawl.
    match goal with
    | |- Forall ?P (tr_of (?m st)) =>
        cut (sound (emits P) m); [intros Hs; apply Hs|]
    end.
    repeat first [ apply Hcrawl | emits_step event_solver ].
  - pose proof (fun page => rag_crawl_events B max_retries url css_selector prompt
                              pages timeout (RufusRag.enough_fuel pages) page url
                              (or_introl eq_refl)) as Hcrawl.
    unfold RufusRag.scrape. revert Hcrawl.
    generalize (RufusRag._crawl_links B max_retries (RufusRag.enough_fuel pages)).
    intros crawl Hcrawl.
    match goal with
    | |- Forall ?P (tr_of (?m st)) =>
        cut (sound (emits P) m); [intros Hs; apply Hs|]
    end.
    repeat first [ apply Hcrawl | emits_step event_solver ].
Qed.

(** X13: what a call of [scrape] asks of the browser. In both variants
    every [goto] goes to the seed or to an address that starts with
    ["http"] (a relative link, a [mailto:] or an empty [href] is never
    followed) and carries the timeout of the caller; only such addresses
    enter the visited set; every wait for the selector uses the selector of
    the caller and 30000 ms, whatever the timeout of the caller is; every
    dwell is 3000 ms; in [rufus.py] every pause is [2 ^ attempt] seconds
    for an attempt below [max_retries], in [rufus_rag.py] it is that or
    the 2 seconds of [_retry_navigation]. *)
Theorem scrape_events {World} (B : Browser World) max_retries lemmas
    url prompt css_selector pages timeout (st : state World) :
  Forall (crawl_event (fun s => exists a, 0 <= a < max_retries /\ s = 2 ^ a)
            url css_selector timeout)
    (tr_of (Rufus.scrape B max_retries lemmas url prompt css_selector pages timeout st))
  /\ Forall (crawl_event
               (fun s => (exists a, 0 <= a < max_retries /\ s = 2 ^ a) \/ s = 2)
               url css_selector timeout)
       (tr_of (RufusRag.scrape B max_retries url prompt css_selector pages timeout st)).
Proof. apply scrape_events_both. Qed.

(** ** One extraction for each address *)

Lemma extraction_count_app t1 t2 :
  extraction_count (t1 ++ t2) = (extraction_count t1 + extraction_count t2)%nat.
Proof. unfold extraction_count. by rewrite List.filter_app, length_app. Qed.

Lemma plain_events_count tr :
  Forall plain_event tr -> extraction_count tr = 0%nat /\ visits tr = [].
Proof.
  induction 1 as [|e tr He _ [IHc IHv]]; [done|].
  unfold extraction_count, visits in *. simpl.
  destruct e as [[]| | |]; simpl in *; try done.
Qed.

Lemma size_union_list_to_set (V : gset string) l :
  NoDup l -> (forall u, u ∈ l -> u ∉ V) ->
  size (V ∪ list_to_set l) = (size V + length l)%nat.
Proof.
  intros Hnd Hfresh. rewrite size_union.
  - by rewrite size_list_to_set.
  - intros u HV Hl. apply elem_of_list_to_set in Hl. by apply (Hfresh u).
Qed.

Section balanced_facts.
Context {World : Type}.

Lemma balanced_nil (st : state World) : balanced st [] st.
Proof. done. Qed.

Lemma balanced_app (st : state World) t1 st1 t2 st2 :
  balanced st t1 st1 -> balanced st1 t2 st2 -> balanced st (t1 ++ t2) st2.
Proof.
  unfold balanced. intros H1 H2.
  rewrite extraction_count_app, visits_app, length_app. lia.
Qed.

Lemma balanced_of_plain {A} (m : M World A) :
  sound (emits plain_event) m -> sound balanced m.
Proof.
  intros Hm st. destruct (plain_events_count _ (Hm st)) as [Hc Hv].
  unfold sound_at, balanced. by rewrite Hc, Hv.
Qed.

(** A computation that begins with a browser call. *)
Lemma bind_do_call_trace {A C} (P : event -> Prop) c (op : World -> reply A * World)
    (f : A -> M World C) st :
  (forall a, sound (emits P) (f a)) ->
  exists tr, tr_of (bind (do_call c op) f st) = EvCall c :: tr /\ Forall P tr.
Proof.
  intros Hf. unfold bind, do_call. destruct (op (world st)) as [[a|e] w]; simpl.
  - specialize (Hf a (mk_state w (visited st) (all_data st))).
    unfold sound_at, emits in Hf.
    destruct (f a _) as [[r2 st2] t2]. by eexists.
  - by eexists.
Qed.
End balanced_facts.

Ltac plain_step := emits_step ltac:(exact I).

Ltac balanced_step :=
  first
    [ apply (sound_bind _ balanced_app); [|intros ?]
    | apply sound_catch
    | apply (sound_try_finally _ balanced_app)
    | apply (sound_for_each _ balanced_nil balanced_app); intros ?
    | apply (sound_ret _ balanced_nil)
    | apply (sound_get_visited _ balanced_nil)
    | apply (sound_len_visited _ balanced_nil)
    | solve [apply balanced_of_plain; repeat plain_step]
    | assumption
    | match goal with
      | |- sound _ (match ?x with _ => _ end) => destruct x
      end ].

Section extraction_facts.
Context {World : Type} (B : Browser World) (max_retries : Z).

Lemma rufus_navigate_plain page url timeout :
  sound (emits plain_event) (Rufus._navigate_to_url B max_retries page url timeout).
Proof.
  unfold Rufus._navigate_to_url.
  induction (range max_retries) as [|attempt attempts IH]; simpl.
  - by apply emits_emit.
  - unfold Rufus.navigate_attempt. repeat plain_step.
Qed.

Lemma rag_navigate_plain page url timeout :
  sound (emits plain_event) (RufusRag._navigate_to_url B max_retries page url timeout).
Proof.
  unfold RufusRag._navigate_to_url.
  induction (range max_retries) as [|attempt attempts IH]; simpl.
  - by apply emits_emit.
  - unfold RufusRag.navigate_attempt. repeat plain_step.
Qed.

(** An extraction is one wait for the selector, then plain events. *)
Lemma rufus_extract_one page prompt css_selector page_num (st : state World) :
  extraction_count
    (tr_of (Rufus._extract_data_from_page B page prompt css_selector page_num st))
  = 1%nat
  /\ visits (tr_of (Rufus._extract_data_from_page B page prompt css_selector page_num st))
     = [].
Proof.
  unfold Rufus._extract_data_from_page.
  match goal with
  | |- context [bind (do_call ?c ?op) ?f st] =>
      destruct (bind_do_call_trace plain_event c op f st) as (tr & -> & Htr)
  end.
  { intros []. repeat plain_step. }
  destruct (plain_events_count tr Htr) as [Hc Hv].
  split.
  - change (S (extraction_count tr) = 1%nat). by rewrite Hc.
  - exact Hv.
Qed.

Lemma rufus_crawl_link_balanced crawl timeout link :
  (forall p u, sound balanced (crawl p u)) ->
  sound balanced (Rufus.crawl_link B crawl timeout link).
Proof.
  intros Hcrawl. unfold Rufus.crawl_link.
  repeat first [ apply Hcrawl | balanced_step ].
Qed.

Lemma rag_retry_balanced crawl page next_url timeout attempts :
  (forall p u, sound balanced (crawl p u)) ->
  sound balanced (RufusRag.retry_loop B crawl page next_url timeout attempts).
Proof.
  intros Hcrawl. induction attempts as [|attempt attempts IH]; simpl.
  - apply (sound_ret _ balanced_nil).
  - repeat first [ apply Hcrawl | balanced_step ].
Qed.

Lemma rag_crawl_link_balanced crawl page timeout link :
  (forall p u, sound balanced (crawl p u)) ->
  sound balanced (RufusRag.crawl_link B crawl page timeout link).
Proof.
  intros Hcrawl. unfold RufusRag.crawl_link, RufusRag._get_link_href,
    RufusRag._retry_navigation.
  repeat first [ by apply rag_retry_balanced | balanced_step ].
Qed.
End extraction_facts.

Section crawl_balanced.
Context {World : Type} (B : Browser World) (max_retries : Z).

Lemma rag_crawl_visit_split crawl page url css_selector prompt timeout (st : state World) :
  let nav := RufusRag._navigate_to_url B max_retries page url timeout st in
  let page_num := Z.of_nat (size (visited (st_of nav))) in
  let ex := RufusRag._extract_data_from_page B page prompt css_selector page_num (st_of nav) in
  exists log_,
    Forall plain_event log_
    /\ RufusRag.crawl_visit B max_retries crawl page url css_selector prompt timeout st
       = match bind (do_call (CQuerySelectorAll page) (page_query_selector_all _ B page))
                 (fun links => for_each links (RufusRag.crawl_link B crawl page timeout))
                 (st_of ex) with
         | (r, st3, t3) => (r, st3, tr_of nav ++ tr_of ex ++ log_ ++ t3)
         end.
Proof.
  cbv zeta. unfold RufusRag.crawl_visit.
  pose proof (rag_navigate_returns B max_retries page url timeout st) as Hnav.
  pose proof (rufus_extract_total B page prompt css_selector
                (Z.of_nat (size (visited (st_of
                  (RufusRag._navigate_to_url B max_retries page url timeout st)))))
                (st_of (RufusRag._navigate_to_url B max_retries page url timeout st)))
    as Hex.
  unfold total_at in Hex. rewrite <- rag_extract_eq in Hex. revert Hex.
  unfold bind at 1.
  destruct (RufusRag._navigate_to_url B max_retries page url timeout st) as [[r1 st1] t1].
  simpl in Hnav. subst r1. simpl.
  unfold bind at 1. unfold len_visited at 1. simpl.
  unfold bind at 1. unfold bind at 1. unfold catch.
  destruct (RufusRag._extract_data_from_page _ _ _ _ _ _) as [[[[]|[]|] st2] t2];
    simpl; intros Hex; [| | |done].
  - exists []. split; [constructor|]. unfold bind.
    destruct (do_call _ _ st2) as [[[links|e|] st3] t3]; simpl; [|done|done].
    by destruct (for_each links _ st3) as [[r4 st4] t4].
  - eexists [_]. split; last first.
    { unfold bind, len_visited, log, emit. simpl.
      destruct (do_call _ _ st2) as [[[links|e|] st3] t3]; simpl; [|done|done].
      by destruct (for_each links _ st3) as [[r4 st4] t4]. }
    by repeat constructor.
  - eexists [_]. split; last first.
    { unfold bind, len_visited, log, emit. simpl.
      destruct (do_call _ _ st2) as [[[links|e|] st3] t3]; simpl; [|done|done].
      by destruct (for_each links _ st3) as [[r4 st4] t4]. }
    by repeat constructor.
Qed.

Lemma balanced_after_visit (st st' : state World) url t_nav t_ex t_rest :
  Forall plain_event t_nav ->
  extraction_count t_ex = 1%nat -> visits t_ex = [] ->
  extraction_count t_rest = length (visits t_rest) ->
  balanced st (EvVisit url :: t_nav ++ t_ex ++ t_rest) st'.
Proof.
  intros [Hc Hv]%plain_events_count Hex Hvx Hrest. unfold balanced.
  change (extraction_count (t_nav ++ t_ex ++ t_rest)
          = length (url :: visits (t_nav ++ t_ex ++ t_rest))).
  rewrite !extraction_count_app, !visits_app, Hc, Hv, Hex, Hvx, Hrest. simpl. lia.
Qed.

Lemma rufus_crawl_balanced fuel page url css_selector prompt pages timeout :
  sound balanced
    (Rufus._crawl_links B max_retries fuel page url css_selector prompt pages timeout).
Proof.
  revert page url. induction fuel as [|fuel IH]; intros page url st; [done|].
  unfold sound_at. cbn [Rufus._crawl_links].
  destruct (passes_or_rejects st url pages) as [Hpass|Hrej].
  2:{ by rewrite rufus_crawl_body_rejects. }
  rewrite rufus_crawl_body_passes by done. rewrite rufus_crawl_visit_run. cbv zeta.
  set (st0 := st_of (visited_add url st)).
  pose proof (rufus_navigate_plain B max_retries page url timeout st0) as Hnav.
  destruct (rufus_extract_one B page prompt css_selector
              (Z.of_nat (size (visited (st_of
                 (Rufus._navigate_to_url B max_retries page url timeout st0)))))
              (st_of (Rufus._navigate_to_url B max_retries page url timeout st0)))
    as [Hex Hvx].
  destruct (res_of (Rufus._extract_data_from_page _ _ _ _ _ _)) as [[]|[]|].
  - match goal with
    | |- context [bind (do_call ?c ?op) ?f ?s] =>
        assert (sound balanced (bind (do_call c op) f)) as Hloop
          by (repeat first [ apply rufus_crawl_link_balanced; intros; apply IH
                           | balanced_step ]);
        specialize (Hloop s); unfold sound_at, balanced in Hloop;
        destruct (bind (do_call c op) f s) as [[r3 st3] t3]
    end.
    simpl in *. by apply balanced_after_visit.
  - simpl. by apply balanced_after_visit.
  - simpl. by apply balanced_after_visit.
  - simpl. rewrite <- (app_nil_r (tr_of (Rufus._extract_data_from_page _ _ _ _ _ _))).
    by apply balanced_after_visit.
Qed.

Lemma rag_crawl_balanced fuel page url css_selector prompt pages timeout :
  sound balanced
    (RufusRag._crawl_links B max_retries fuel page url css_selector prompt pages timeout).
Proof.
  revert page url. induction fuel as [|fuel IH]; intros page url st; [done|].
  unfold sound_at. cbn [RufusRag._crawl_links].
  destruct (passes_or_rejects st url pages) as [Hpass|Hrej].
  2:{ by rewrite rag_crawl_body_rejects. }
  rewrite rag_crawl_body_passes by done.
  set (st0 := st_of (visited_add url st)).
  destruct (rag_crawl_visit_split
              (fun page next_url =>
                 RufusRag._crawl_links B max_retries fuel page next_url css_selector
                   prompt pages timeout)
              page url css_selector prompt timeout st0) as (log_ & Hlog & ->).
  pose proof (rag_navigate_plain B max_retries page url timeout st0) as Hnav.
  destruct (rufus_extract_one B page prompt css_selector
              (Z.of_nat (size (visited (st_of
                 (RufusRag._navigate_to_url B max_retries page url timeout st0)))))
              (st_of (RufusRag._navigate_to_url B max_retries page url timeout st0)))
    as [Hex Hvx].
  apply plain_events_count in Hlog as [Hlc Hlv].
  match goal with
  | |- context [bind (do_call ?c ?op) ?f ?s] =>
      assert (sound balanced (bind (do_call c op) f)) as Hloop
        by (repeat first [ apply rag_crawl_link_balanced; intros; apply IH
                         | balanced_step ]);
      specialize (Hloop s); unfold sound_at, balanced in Hloop;
      destruct (bind (do_call c op) f s) as [[r3 st3] t3]
  end.
  simpl in *. apply balanced_after_visit; try done.
  rewrite extraction_count_app, visits_app, length_app, Hlc, Hlv. simpl. done.
Qed.
End crawl_balanced.

(** X14: in both variants a crawl begins exactly one extraction for every
    address it adds to the visited set; started within its budget, it
    therefore begins at most as many extractions as the budget has pages
    left. *)
Theorem one_extraction_per_address {World} (B : Browser World) max_retries fuel page
    url css_selector prompt pages timeout (st : state World) :
  let x := Rufus._crawl_links B max_retries fuel page url css_selector prompt
             pages timeout st in
  let y := RufusRag._crawl_links B max_retries fuel page url css_selector prompt
             pages timeout st in
  (extraction_count (tr_of x) = length (visits (tr_of x))
   /\ extraction_count (tr_of y) = length (visits (tr_of y)))
  /\ (Z.of_nat (size (visited st)) <= pages ->
      Z.of_nat (extraction_count (tr_of x)) <= pages - Z.of_nat (size (visited st))
      /\ Z.of_nat (extraction_count (tr_of y)) <= pages - Z.of_nat (size (visited st))).
Proof.
  cbv zeta.
  pose proof (rufus_crawl_balanced B max_retries fuel page url css_selector prompt
                pages timeout st) as Hx.
  pose proof (rag_crawl_balanced B max_retries fuel page url css_selector prompt
                pages timeout st) as Hy.
  unfold sound_at, balanced in Hx, Hy. split; [done|]. intros Hle.
  rewrite Hx, Hy. split.
  - destruct (crawl_rel_prefix pages st _ _ _ [] 
                (rufus_crawl_sound B max_retries pages fuel page url css_selector prompt
                   timeout st) Hle (eq_sym (app_nil_r _))) as (Hnd & Hfresh & Hsize).
    unfold visited_at in Hsize. rewrite size_union_list_to_set in Hsize by done. lia.
  - destruct (crawl_rel_prefix pages st _ _ _ [] 
                (rag_crawl_sound B max_retries pages fuel page url css_selector prompt
                   timeout st) Hle (eq_sym (app_nil_r _))) as (Hnd & Hfresh & Hsize).
    unfold visited_at in Hsize. rewrite size_union_list_to_set in Hsize by done. lia.
Qed.

(** ** The records a crawl appends *)

Lemma re_sub_ws_strip_twice (s : string) :
  Text.re_sub_ws (Text.strip (Text.re_sub_ws (Text.strip s)))
  = Text.re_sub_ws (Text.strip s).
Proof.
  rewrite !re_sub_ws_strip. unfold Text.normalized.
  by rewrite !words_concat by apply words_proper.
Qed.

Section appends_facts.
Context {World : Type} (prompt : string) (pages : Z).
Local Abbreviation R := (@appends_ok World prompt pages).

Lemma appends_ok_nil st : R st [] st.
Proof. intros Hin. split; [done|]. exists []. by rewrite app_nil_r. Qed.

Lemma appends_ok_app st t1 st1 t2 st2 :
  R st t1 st1 -> R st1 t2 st2 -> R st (t1 ++ t2) st2.
Proof.
  intros H1 H2 Hin.
  destruct (H1 Hin) as (Hin1 & new1 & Hd1 & Hok1).
  destruct (H2 Hin1) as (Hin2 & new2 & Hd2 & Hok2).
  split; [done|]. exists (new1 ++ new2).
  split; [by rewrite Hd2, Hd1, app_assoc|by apply Forall_app].
Qed.

Lemma appends_ok_same st tr st' :
  visited st' = visited st -> all_data st' = all_data st -> R st tr st'.
Proof.
  intros Hv Hd Hin. unfold in_budget in *. rewrite Hv, Hd.
  split; [done|]. exists []. by rewrite app_nil_r.
Qed.

Lemma appends_ok_do_call {A} c (op : World -> reply A * World) : sound R (do_call c op).
Proof.
  intros st. apply appends_ok_same; [apply do_call_visited|apply do_call_all_data].
Qed.

Lemma appends_ok_emit e : sound R (emit e).
Proof. intros st. by apply appends_ok_same. Qed.

Lemma appends_ok_of_quiet {A} (m : M World A) : sound quiet m -> sound R m.
Proof. intros Hm st. destruct (Hm st) as (Hv & Hd & _). by apply appends_ok_same. Qed.
End appends_facts.

Ltac appends_step :=
  first
    [ apply (sound_bind _ (appends_ok_app _ _)); [|intros ?]
    | apply sound_catch
    | apply (sound_try_finally _ (appends_ok_app _ _))
    | apply (sound_for_each _ (appends_ok_nil _ _) (appends_ok_app _ _)); intros ?
    | apply (sound_ret _ (appends_ok_nil _ _))
    | apply (sound_out_of_fuel _ (appends_ok_nil _ _))
    | apply (sound_get_visited _ (appends_ok_nil _ _))
    | apply (sound_len_visited _ (appends_ok_nil _ _))
    | apply appends_ok_do_call
    | apply appends_ok_emit
    | assumption
    | match goal with
      | |- sound _ (match ?x with _ => _ end) => destruct x
      end ].

Section rufus_appends.
Context {World : Type} (B : Browser World) (max_retries : Z).
Variables (prompt css_selector : string) (pages timeout : Z).
Local Abbreviation R := (@appends_ok World prompt pages).

(** What an extraction appends, whether it succeeds or fails. *)
Lemma rufus_extract_appends page page_num (st : state World) :
  exists elements,
    all_data (st_of (Rufus._extract_data_from_page B page prompt css_selector page_num st))
    = all_data st
      ++ ((fun element =>
             mk_record prompt page_num (Text.re_sub_ws (get_text_strip element)))
            <$> elements)
    /\ visited (st_of (Rufus._extract_data_from_page B page prompt css_selector
                        page_num st)) = visited st.
Proof.
  unfold Rufus._extract_data_from_page.
  destruct (page_wait_for_selector World B page css_selector 30000 (world st))
    as [[[]|e1] w1] eqn:Hw.
  2:{ run_call (page_wait_for_selector _ B page css_selector 30000) Hw.
      exists []. simpl. by rewrite app_nil_r. }
  run_call (page_wait_for_selector _ B page css_selector 30000) Hw.
  destruct (page_content World B page w1) as [[content|e2] w2] eqn:Hc.
  2:{ run_call (page_content _ B page) Hc. exists []. simpl. by rewrite app_nil_r. }
  run_call (page_content _ B page) Hc. simpl.
  destruct (soup_select World B content css_selector) as [elements|]; simpl.
  - rewrite extract_loop_run. by exists elements.
  - exists []. by rewrite app_nil_r.
Qed.

Lemma rufus_extract_appends_ok page (st : state World) :
  sound_at R
    (catch (Rufus._extract_data_from_page B page prompt css_selector
              (Z.of_nat (size (visited st))))) st.
Proof.
  apply sound_at_catch. intros Hin.
  destruct (rufus_extract_appends page (Z.of_nat (size (visited st))) st)
    as (elements & Hd & Hv).
  split; [unfold in_budget in *; by rewrite Hv|].
  eexists. split; [exact Hd|].
  apply Forall_fmap, Forall_forall. intros element _.
  repeat split; simpl; try apply Hin.
  rewrite <- (get_text_strip_fixed element). apply re_sub_ws_strip_twice.
Qed.

Lemma rufus_crawl_link_appends crawl link :
  (forall p u, sound R (crawl p u)) ->
  sound R (Rufus.crawl_link B crawl timeout link).
Proof.
  intros Hcrawl. unfold Rufus.crawl_link.
  repeat first [ apply Hcrawl | appends_step ].
Qed.

Lemma rufus_crawl_visit_appends crawl page url :
  (forall p u, sound R (crawl p u)) ->
  sound R (Rufus.crawl_visit B max_retries crawl page url css_selector prompt timeout).
Proof.
  intros Hcrawl. unfold Rufus.crawl_visit.
  apply (sound_bind _ (appends_ok_app _ _));
    [apply appends_ok_of_quiet, rufus_navigate_quiet|]. intros _ st.
  apply (sound_at_bind _ (appends_ok_app _ _)); [apply appends_ok_nil|].
  simpl. intros page_num [= <-].
  apply (sound_at_bind _ (appends_ok_app _ _)); [apply rufus_extract_appends_ok|].
  intros r _. revert r. generalize (st_of (catch
    (Rufus._extract_data_from_page B page prompt css_selector
       (Z.of_nat (size (visited st)))) st)).
  intros st' r. revert st'.
  change (sound R (match r with
                   | Ok _ =>
                       bind (do_call (CQuerySelectorAll page)
                               (page_query_selector_all World B page))
                         (fun links => for_each links (Rufus.crawl_link B crawl timeout))
                   | Fail TimeoutError =>
                       bind len_visited (fun n => log ERROR (ExtractTimeout n))
                   | Fail OtherError =>
                       bind len_visited (fun n => log ERROR (ExtractError n))
                   end)).
  pose proof (rufus_crawl_link_appends crawl).
  repeat first [ apply rufus_crawl_link_appends; assumption | appends_step ].
Qed.

Lemma appends_ok_visited_add url (st : state World) :
  passes_test st url pages -> sound_at R (visited_add url) st.
Proof.
  intros [Hlt Hnot] Hin. simpl. split.
  - unfold in_budget in *. simpl.
    rewrite size_union by set_solver. rewrite size_singleton. lia.
  - exists []. by rewrite app_nil_r.
Qed.

Lemma rufus_crawl_appends fuel page url :
  sound R (Rufus._crawl_links B max_retries fuel page url css_selector prompt pages timeout).
Proof.
  revert page url. induction fuel as [|fuel IH]; intros page url st.
  - apply appends_ok_nil.
  - unfold sound_at. cbn [Rufus._crawl_links].
    destruct (passes_or_rejects st url pages) as [Hpass|Hrej].
    2:{ rewrite rufus_crawl_body_rejects by done. apply appends_ok_nil. }
    unfold Rufus.crawl_body.
    apply (sound_at_bind _ (appends_ok_app _ _)); [apply appends_ok_nil|].
    simpl. intros v [= <-].
    destruct Hpass as [Hlt Hnot].
    rewrite (proj2 (Z.leb_gt _ _) Hlt), bool_decide_eq_false_2 by done. simpl.
    apply (sound_at_bind _ (appends_ok_app _ _));
      [by apply appends_ok_visited_add|].
    intros _ _. by apply rufus_crawl_visit_appends.
Qed.

(** A crawl started within its budget, even with no address visited yet. *)
Lemma rufus_crawl_appends_from fuel page url (st : state World) :
  Z.of_nat (size (visited st)) <= pages ->
  exists new,
    all_data (st_of (Rufus._crawl_links B max_retries fuel page url css_selector prompt
                       pages timeout st)) = all_data st ++ new
    /\ Forall (record_ok prompt pages) new.
Proof.
  intros Hle. destruct fuel as [|fuel].
  { exists []. simpl. by rewrite app_nil_r. }
  cbn [Rufus._crawl_links].
  destruct (passes_or_rejects st url pages) as [Hpass|Hrej].
  2:{ rewrite rufus_crawl_body_rejects by done. exists []. simpl. by rewrite app_nil_r. }
  rewrite rufus_crawl_body_passes by done.
  pose proof (rufus_crawl_visit_appends
                (fun new_page next_url =>
                   Rufus._crawl_links B max_retries fuel new_page next_url css_selector
                     prompt pages timeout) page url
                (fun p u => rufus_crawl_appends fuel p u) (st_of (visited_add url st)))
    as Hvisit.
  unfold sound_at in Hvisit.
  destruct (Rufus.crawl_visit _ _ _ _ _ _ _ _ _) as [[r st2] t2]. simpl in *.
  destruct Hvisit as (_ & new & Hd & Hok); [|by exists new].
  destruct Hpass as [Hlt Hnot]. unfold in_budget. simpl.
  rewrite size_union by set_solver. rewrite size_singleton. lia.
Qed.
End rufus_appends.

Section scrape_records.
Context {World : Type} (B : Browser World) (max_retries : Z).
Variable lemmas : string -> list string.

(** The accumulator after a call of [scrape] that returns is the one the
    crawl left, and the crawl began with the accumulator of the client and
    an empty visited set. *)
Lemma rufus_scrape_crawl url prompt css_selector pages timeout (st : state World) out :
  res_of (Rufus.scrape B max_retries lemmas url prompt css_selector pages timeout st)
  = Done out ->
  exists page st5,
    visited st5 = ∅ /\ all_data st5 = all_data st
    /\ all_data (st_of (Rufus.scrape B max_retries lemmas url prompt css_selector
                          pages timeout st))
       = all_data (st_of (Rufus._crawl_links B max_retries (Rufus.enough_fuel pages)
                            page url css_selector prompt pages timeout st5)).
Proof.
  intros Hdone. unfold Rufus.scrape in *.
  apply bind_Done_inv in Hdone as (_ & _ & Hdone & ->).
  set (st1 := st_of (do_call CEnter (playwright_enter World B) st)) in *.
  apply try_finally_Done_inv in Hdone as (Hdone & ->).
  rewrite do_call_all_data.
  apply bind_Done_inv in Hdone as (_ & _ & Hdone & ->).
  set (st2 := st_of (do_call CLaunch (launch World B) st1)) in *.
  apply bind_Done_inv in Hdone as (_ & _ & Hdone & ->).
  set (st3 := st_of (do_call CNewContext (new_context World B) st2)) in *.
  apply bind_Done_inv in Hdone as (page & _ & Hdone & ->).
  set (st4 := st_of (do_call CNewPage (new_page World B) st3)) in *.
  apply bind_Done_inv in Hdone as (_ & _ & Hdone & ->).
  set (st5 := st_of (new_visited st4)) in *.
  apply bind_Done_inv in Hdone as (u & Hcrawl & Hdone & ->).
  apply try_finally_Done_inv in Hcrawl as (_ & Hst6).
  set (st6 := st_of (try_finally _ _ st5)) in *.
  simpl. exists page, st5. split; [done|]. split.
  - subst st5 st4 st3 st2 st1. simpl. by rewrite !do_call_all_data.
  - by rewrite Hst6, do_call_all_data.
Qed.
End scrape_records.

(** X15: the records of a call of [scrape] of [rufus.py]. Every record the
    call appends to the accumulator carries the prompt of the caller, a
    page number between 1 and the budget, and a normalised content; on a
    client that held no record, every record of the returned list is of
    that kind. *)
Theorem scrape_records_ok {World} (B : Browser World) max_retries lemmas
    url prompt css_selector pages timeout (st : state World) out :
  let x := Rufus.scrape B max_retries lemmas url prompt css_selector pages timeout st in
  res_of x = Done out ->
  exists new,
    all_data (st_of x) = all_data st ++ new
    /\ Forall (record_ok prompt pages) new
    /\ (all_data st = [] -> Forall (record_ok prompt pages) out).
Proof.
  cbv zeta. intros Hdone.
  pose proof (rufus_scrape_done B max_retries lemmas _ _ _ _ _ _ _ Hdone) as Hout.
  destruct (rufus_scrape_crawl B max_retries lemmas _ _ _ _ _ _ _ Hdone)
    as (page & st5 & Hv & Hd & Hall).
  assert (exists new,
            all_data (st_of (Rufus._crawl_links B max_retries (Rufus.enough_fuel pages)
                               page url css_selector prompt pages timeout st5))
            = all_data st5 ++ new
            /\ Forall (record_ok prompt pages) new) as (new & Hnew & Hok).
  { destruct (decide (0 <= pages)) as [Hpos|Hneg].
    - apply rufus_crawl_appends_from. rewrite Hv, size_empty. lia.
    - unfold Rufus.enough_fuel. cbn [Rufus._crawl_links].
      rewrite rufus_crawl_body_rejects by (left; rewrite Hv, size_empty; lia).
      exists []. simpl. by rewrite app_nil_r. }
  exists new. rewrite Hall, Hnew, Hd. split; [done|]. split; [done|].
  intros Hempty. rewrite Hout, Hall, Hnew, Hd, Hempty, app_nil_l.
  apply Forall_forall. intros r Hr. rewrite filter_data_kept in Hr.
  apply kept_elem in Hr as (Hr & _). eapply Forall_forall in Hok; done.
Qed.

Lemma scrape_records_ok_witness :
  exists new,
    all_data (st_of (Rufus.scrape (Sim.browser Sim.linked_site) 3 Toy.lemmas
                       "http://a" "p" ".x" 2 30000 Sim.start))
    = all_data Sim.start ++ new
    /\ Forall (record_ok "p" 2) new
    /\ (all_data Sim.start = [] ->
        Forall (record_ok "p" 2)
          [mk_record "p" 1 "We have a job opening"; mk_record "p" 2 "Internship"]).
Proof.
  apply (scrape_records_ok (Sim.browser Sim.linked_site) 3 Toy.lemmas
           "http://a" "p" ".x" 2 30000 Sim.start).
  by vm_compute.
Defined.

(** ** [_retry_navigation] of [rufus_rag.py] *)

(** X16: [_retry_navigation] never raises; on an address whose [goto]
    always times out it makes exactly three attempts, pauses 2 seconds
    after each (a fixed pause, unlike the doubling pauses of
    [_navigate_to_url]), never calls [_crawl_links], and leaves the visited
    set and the accumulator as they are. *)
Theorem retry_navigation_backoff {World} (B : Browser World) crawl page next_url timeout
    (st : state World) :
  (forall w, exists w', page_goto _ B page next_url timeout w = (Fail TimeoutError, w')) ->
  let x := RufusRag._retry_navigation B crawl page next_url timeout st in
  no_raise (RufusRag._retry_navigation B crawl page next_url timeout)
  /\ res_of x = Done tt
  /\ tr_of x
     = [EvCall (CGoto page next_url timeout); EvLog WARNING (RetryTimeout 1 next_url);
        EvSleep 2;
        EvCall (CGoto page next_url timeout); EvLog WARNING (RetryTimeout 2 next_url);
        EvSleep 2;
        EvCall (CGoto page next_url timeout); EvLog WARNING (RetryTimeout 3 next_url);
        EvSleep 2]
  /\ visited (st_of x) = visited st /\ all_data (st_of x) = all_data st.
Proof.
  intros Hgoto. cbv zeta. split; [apply rag_retry_no_raise|].
  unfold RufusRag._retry_navigation.
  change (range 3) with [0; 1; 2]. cbn [RufusRag.retry_loop].
  unfold bind, catch, do_call, log, sleep, emit. simpl.
  destruct (Hgoto (world st)) as [w1 ->]. simpl.
  destruct (Hgoto w1) as [w2 ->]. simpl.
  destruct (Hgoto w2) as [w3 ->]. simpl.
  done.
Qed.

Lemma retry_navigation_backoff_witness :
  sleeps (tr_of (RufusRag._retry_navigation (Sim.browser Sim.dead_site)
                   (fun _ _ => ret tt) 0%nat "http://b" 30000 Sim.one_tab))
  = [2; 2; 2].
Proof.
  destruct (retry_navigation_backoff (Sim.browser Sim.dead_site) (fun _ _ => ret tt)
              0%nat "http://b" 30000 Sim.one_tab) as (_ & _ & Htr & _).
  - intros w. by eexists.
  - rewrite Htr. reflexivity.
Defined.

(** ** Calls through [RufusAPI] *)

(** X17: a call through [RufusAPI.scrape] (of either file) pauses only for
    1, 2 or 4 seconds at a time and navigates only with a timeout of
    30000 ms. *)
Theorem api_scrape_events {World} (B : Browser World) lemmas url prompt css_selector
    pages (st : state World) :
  Forall api_event (tr_of (RufusAPI.scrape B lemmas url prompt css_selector pages st))
  /\ Forall api_event (tr_of (RufusRagAPI.scrape B url prompt css_selector pages st)).
Proof.
  destruct (scrape_events_both B 3 lemmas url prompt css_selector pages 30000 st)
    as [Hx Hy].
  assert (forall a, 0 <= a < 3 -> 2 ^ a = 1 \/ 2 ^ a = 2 \/ 2 ^ a = 4) as Hpow.
  { intros a Ha. assert (a = 0 \/ a = 1 \/ a = 2) as [-> | [-> | ->]] by lia; auto. }
  split; (eapply Forall_impl; [eassumption|]); intros [[]| | |]; simpl; try done.
  - by intros [_ ->].
  - intros (a & Ha & ->). by apply Hpow.
  - by intros [_ ->].
  - intros [(a & Ha & ->)| ->]; [by apply Hpow|auto].
Qed.

(** ** One link of the loop *)

Lemma link_wanted_None next_url (visited : gset string) :
  link_wanted next_url visited = None
  <-> (forall u, next_url = Some u ->
         u = EmptyString \/ Text.startswith u "http" = false \/ u ∈ visited).
Proof.
  unfold link_wanted. destruct next_url as [u|]; [|by split].
  destruct (Text.is_empty u) eqn:He; simpl.
  - split; [|done]. intros _ u' [= <-]. left. by destruct u.
  - destruct (Text.startswith u "http") eqn:Hh; simpl.
    + destruct (decide (u ∈ visited)) as [Hin|Hnot].
      * rewrite bool_decide_eq_true_2 by done. simpl. split; [|done].
        intros _ u' [= <-]. by right; right.
      * rewrite bool_decide_eq_false_2 by done. simpl. split; [done|].
        intros H. destruct (H u eq_refl) as [Hu|[?|?]];
          [by rewrite Hu in He|congruence|done].
    + split; [|done]. intros _ u' [= <-]. right. by left.
Qed.

(** X18: the links that are passed over. A link whose [href] cannot be
    read costs one diagnostic and nothing else, in both variants; a link
    without [href], with an empty one, with one that does not start with
    ["http"], or with one that is in the visited set is passed over in
    silence: no tab is opened for it, nothing is navigated to, and the
    loop goes on. *)
Theorem skipped_links {World} (B : Browser World) crawl page timeout link
    (st : state World) :
  let x := Rufus.crawl_link B crawl timeout link st in
  let y := RufusRag.crawl_link B crawl page timeout link st in
  (forall e w, link_get_attribute _ B link (world st) = (Fail e, w) ->
     x = (Done tt, mk_state w (visited st) (all_data st),
          [EvCall (CGetAttribute link);
           EvLog ERROR (match e with TimeoutError => LinkTimeout | OtherError => LinkError end)])
     /\ y = (Done tt, mk_state w (visited st) (all_data st),
             [EvCall (CGetAttribute link); EvLog ERROR HrefError]))
  /\ (forall next_url w,
        link_get_attribute _ B link (world st) = (Ok next_url, w) ->
        (forall u, next_url = Some u ->
           u = EmptyString \/ Text.startswith u "http" = false \/ u ∈ visited st) ->
        x = (Done tt, mk_state w (visited st) (all_data st), [EvCall (CGetAttribute link)])
        /\ y = (Done tt, mk_state w (visited st) (all_data st),
                [EvCall (CGetAttribute link)])).
Proof.
  cbv zeta. split.
  - intros e w Hget.
    unfold Rufus.crawl_link, RufusRag.crawl_link, RufusRag._get_link_href,
      bind, catch, do_call, log, emit.
    rewrite Hget. simpl. by destruct e.
  - intros next_url w Hget Hskip. apply link_wanted_None in Hskip.
    unfold Rufus.crawl_link, RufusRag.crawl_link, RufusRag._get_link_href,
      bind, catch, do_call, get_visited.
    rewrite Hget. simpl. by rewrite Hskip.
Qed.

(** X19: the tab opened for a link in [rufus.py] is closed whatever happens
    while it is used: when the [href] is wanted and the tab opens, the
    iteration closes that tab after the navigation and the recursive
    crawl, whether they returned, timed out or raised, and the iteration
    itself returns normally. *)
Theorem link_tab_closed {World} (B : Browser World) crawl timeout link
    (st : state World) next_url u tab w1 w2 :
  link_get_attribute _ B link (world st) = (Ok next_url, w1) ->
  link_wanted next_url (visited st) = Some u ->
  new_page _ B w1 = (Ok tab, w2) ->
  (forall st', total_at (crawl tab u) st') ->
  let x := Rufus.crawl_link B crawl timeout link st in
  res_of x = Done tt
  /\ exists used rest,
       tr_of x = [EvCall (CGetAttribute link); EvCall CNewPage;
                  EvCall (CGoto tab u timeout)]
                 ++ used ++ EvCall (CClose tab) :: rest
       /\ Forall (fun e => is_log e = true) rest.
Proof.
  intros Hget Hwanted Hpage Htotal. cbv zeta.
  set (fin := do_call (CClose tab) (page_close World B tab)).
  set (body := bind (do_call (CGoto tab u timeout)
                       (page_goto World B tab u timeout))
                 (fun _ => crawl tab u)).
  set (st2 := mk_state w2 (visited st) (all_data st)).
  assert (Rufus.crawl_link B crawl timeout link st
          = match try_finally body fin st2 with
            | (Done _, st3, t3) =>
                (Done tt, st3,
                 (EvCall (CGetAttribute link) :: EvCall CNewPage :: t3) ++ [])
            | (Raised TimeoutError, st3, t3) =>
                (Done tt, st3,
                 (EvCall (CGetAttribute link) :: EvCall CNewPage :: t3)
                 ++ [EvLog ERROR LinkTimeout])
            | (Raised OtherError, st3, t3) =>
                (Done tt, st3,
                 (EvCall (CGetAttribute link) :: EvCall CNewPage :: t3)
                 ++ [EvLog ERROR LinkError])
            | (OutOfFuel, st3, t3) =>
                (OutOfFuel, st3,
                 EvCall (CGetAttribute link) :: EvCall CNewPage :: t3)
            end) as ->.
  { unfold Rufus.crawl_link, fin, body, st2.
    unfold bind at 1. unfold catch. unfold bind at 1.
    unfold do_call at 1. rewrite Hget. cbn [world visited all_data].
    unfold bind at 1. unfold get_visited. cbn [visited]. rewrite Hwanted.
    unfold bind at 1. unfold do_call at 1. cbn [world visited all_data].
    rewrite Hpage.
    destruct (try_finally _ _ _) as [[[[]|[]|] st3] t3]; by simpl. }
  assert (total_at body st2) as Hbody by (unfold body; total_auto).
  destruct (bind_do_call_begins (CGoto tab u timeout)
              (page_goto World B tab u timeout) (fun _ => crawl tab u) st2)
    as [used Hused].
  fold body in Hused.
  pose proof (try_finally_trace body fin st2 Hbody) as Htr.
  unfold fin at 2 in Htr. rewrite do_call_trace, Hused in Htr.
  assert (total_at (try_finally body fin) st2)
    as Htf by (apply total_at_try_finally; [done|apply total_do_call]).
  unfold total_at in Htf.
  destruct (try_finally body fin st2) as [[[[]|[]|] st3] t3]; simpl in *;
    subst t3; try done.
  - split; [done|]. exists used, []. split; [|done].
    by rewrite app_nil_r.
  - split; [done|]. exists used, [EvLog ERROR LinkTimeout].
    split; [by rewrite <- app_comm_cons, <- app_assoc|]. by repeat constructor.
  - split; [done|]. exists used, [EvLog ERROR LinkError].
    split; [by rewrite <- app_comm_cons, <- app_assoc|]. by repeat constructor.
Qed.

Lemma link_tab_closed_witness :
  res_of (Rufus.crawl_link (Sim.browser Sim.linked_site) (fun _ _ => ret tt) 30000
            0%nat (mk_state (Sim.mk_world ["http://a"] [Some "http://b"]) ∅ []))
  = Done tt.
Proof.
  refine (proj1 (link_tab_closed (Sim.browser Sim.linked_site) (fun _ _ => ret tt) 30000
                   0%nat (mk_state (Sim.mk_world ["http://a"] [Some "http://b"]) ∅ [])
                   (Some "http://b") "http://b" 1%nat _ _ eq_refl _ eq_refl _)).
  - by vm_compute.
  - done.
Defined.
